(** * RuStore parser: the decision pipeline of [src/parser.js]

    A shallow embedding of the pure core of the scraper's parser module:
    title classification ([isBrandToken], [classifyTitle]), query cleanup
    ([cleanSearchQuery]), relevance scoring ([wordJaccard],
    [substringMatch], [calculateRelevance]), install-count parsing
    ([parseInstalls]), the opportunity score ([calculateOpportunityScore])
    and the orchestration in [checkRuStore].

    Conventions of the embedding.
    - A JavaScript string is the list of its UTF-16 code units, which is
      what regular expressions without the [u] flag, [length], [trim] and
      [split] operate on.
    - [toLowerCase] is the mapping of the Unicode Character Database
      (version 14.0), code point by code point, with the two special
      cases that do not depend on the language; [toUpperCase], used on
      install counts only, is a table of the letters that matter there.
    - Numbers come twice.  The module [Double] has the numeric functions
      in the arithmetic of the engine, IEEE 754 binary64 ([Binary64],
      over [SpecFloat]): every operation rounds, and the results are the
      doubles that the program returns.  [Math.log10] is left to the
      implementation by the language; it is a parameter there.
    - Outside [Double], a number is a real number and arithmetic is
      exact ([NaN] is kept apart where [parseFloat] can produce it;
      [Math.round x] is the greatest integer not above [x + 1/2];
      [Math.log10 x] is [ln x / ln 10]).  This is the setting of the
      order properties of the score and of the orchestration in
      [checkRuStore], where the theorems are about which fields are
      computed from what, not about the last digit. *)

From Stdlib Require Import Strings.String Strings.Ascii.
From Stdlib Require Import List Bool Arith NArith ZArith Lia.
From Stdlib Require Import Sorting.Permutation Sorting.Sorted.
From Stdlib Require Import Reals Lra.
From Stdlib Require Import Floats.SpecFloat.
Import ListNotations.
Local Open Scope list_scope.

Set Implicit Arguments.

(* ===================================================================== *)
(** ** JavaScript strings                                                  *)
(* ===================================================================== *)

Module JS.

Definition codeunit := N.
Definition jsstring := list codeunit.

(** A string literal of the source, when it is pure ASCII. *)
Definition lit (s : String.string) : jsstring :=
  map Ascii.N_of_ascii (String.list_ascii_of_string s).

Arguments lit s%_string.

Definition str_eqb (a b : jsstring) : bool :=
  if list_eq_dec N.eq_dec a b then true else false.

Definition between (lo hi c : N) : bool := (lo <=? c)%N && (c <=? hi)%N.

(** [\s] of ECMAScript, which is also what [trim] removes: WhiteSpace and
    LineTerminator. *)
Definition is_space (c : codeunit) : bool :=
  between 9 13 c || (c =? 32)%N || (c =? 160)%N || (c =? 0x1680)%N
  || between 0x2000 0x200A c || (c =? 0x2028)%N || (c =? 0x2029)%N
  || (c =? 0x202F)%N || (c =? 0x205F)%N || (c =? 0x3000)%N
  || (c =? 0xFEFF)%N.

Definition is_digit (c : codeunit) : bool := between 48 57 c.      (* \d *)
Definition is_upper (c : codeunit) : bool := between 65 90 c.      (* [A-Z] *)
Definition is_lower (c : codeunit) : bool := between 97 122 c.     (* [a-z] *)
Definition is_alpha (c : codeunit) : bool := is_upper c || is_lower c.
(** [\w], the class behind [\b]. *)
Definition is_word (c : codeunit) : bool :=
  is_alpha c || is_digit c || (c =? 95)%N.

Definition SP : codeunit := 32%N.

Fixpoint trimStart (s : jsstring) : jsstring :=
  match s with
  | c :: r => if is_space c then trimStart r else s
  | [] => []
  end.

Definition trimEnd (s : jsstring) : jsstring := rev (trimStart (rev s)).

Definition trim (s : jsstring) : jsstring := trimEnd (trimStart s).

(** [s.split(/\s+/)]: the pieces between the maximal runs of white space.
    A run at the very start or end leaves an empty piece there, and the
    empty string splits into one empty piece. *)
Fixpoint split_go (inrun : bool) (acc : jsstring) (s : jsstring)
  : list jsstring :=
  match s with
  | [] => [rev acc]
  | c :: r =>
      if is_space c
      then if inrun then split_go true [] r
           else rev acc :: split_go true [] r
      else split_go false (c :: acc) r
  end.

Definition split_ws (s : jsstring) : list jsstring := split_go false [] s.

(** [s.replace(/[class]/g, ' ')] and [s.replace(/[class]/g, '')]. *)
Definition blank (cls : codeunit -> bool) (s : jsstring) : jsstring :=
  map (fun c => if cls c then SP else c) s.

Definition strip (cls : codeunit -> bool) (s : jsstring) : jsstring :=
  filter (fun c => negb (cls c)) s.

(** [s.replace(/\s+/g, ' ')]. *)
Fixpoint collapse_go (inrun : bool) (s : jsstring) : jsstring :=
  match s with
  | [] => []
  | c :: r =>
      if is_space c
      then if inrun then collapse_go true r else SP :: collapse_go true r
      else c :: collapse_go false r
  end.

Definition collapse_ws (s : jsstring) : jsstring := collapse_go false s.

(** *** [String.prototype.toLowerCase]

    The string is read code point by code point, a lead surrogate
    followed by a trail surrogate being one code point, and each code
    point is replaced by its lower-case mapping in the Unicode Character
    Database (version 14.0): the simple mapping of [UnicodeData.txt], and
    the two mappings of [SpecialCasing.txt] that do not depend on the
    language, the one of U+0130 and the final form of the capital sigma.

    A row of [LOWERCASE] stands for the code points from its first
    component to its second, in steps of its third, mapped in order to
    the code points that start at its fourth, in the same steps. *)

Definition LOWERCASE : list (N * N * N * N) :=
  [
    (0x41, 0x5A, 1, 0x61); (0xC0, 0xD6, 1, 0xE0); (0xD8, 0xDE, 1, 0xF8);
    (0x100, 0x12E, 2, 0x101); (0x132, 0x136, 2, 0x133);
    (0x139, 0x147, 2, 0x13A); (0x14A, 0x176, 2, 0x14B);
    (0x178, 0x178, 1, 0xFF); (0x179, 0x17D, 2, 0x17A);
    (0x181, 0x181, 1, 0x253); (0x182, 0x184, 2, 0x183);
    (0x186, 0x186, 1, 0x254); (0x187, 0x187, 1, 0x188);
    (0x189, 0x18A, 1, 0x256); (0x18B, 0x18B, 1, 0x18C);
    (0x18E, 0x18E, 1, 0x1DD); (0x18F, 0x18F, 1, 0x259);
    (0x190, 0x190, 1, 0x25B); (0x191, 0x191, 1, 0x192);
    (0x193, 0x193, 1, 0x260); (0x194, 0x194, 1, 0x263);
    (0x196, 0x196, 1, 0x269); (0x197, 0x197, 1, 0x268);
    (0x198, 0x198, 1, 0x199); (0x19C, 0x19C, 1, 0x26F);
    (0x19D, 0x19D, 1, 0x272); (0x19F, 0x19F, 1, 0x275);
    (0x1A0, 0x1A4, 2, 0x1A1); (0x1A6, 0x1A6, 1, 0x280);
    (0x1A7, 0x1A7, 1, 0x1A8); (0x1A9, 0x1A9, 1, 0x283);
    (0x1AC, 0x1AC, 1, 0x1AD); (0x1AE, 0x1AE, 1, 0x288);
    (0x1AF, 0x1AF, 1, 0x1B0); (0x1B1, 0x1B2, 1, 0x28A);
    (0x1B3, 0x1B5, 2, 0x1B4); (0x1B7, 0x1B7, 1, 0x292);
    (0x1B8, 0x1B8, 1, 0x1B9); (0x1BC, 0x1BC, 1, 0x1BD);
    (0x1C4, 0x1C4, 1, 0x1C6); (0x1C5, 0x1C5, 1, 0x1C6);
    (0x1C7, 0x1C7, 1, 0x1C9); (0x1C8, 0x1C8, 1, 0x1C9);
    (0x1CA, 0x1CA, 1, 0x1CC); (0x1CB, 0x1DB, 2, 0x1CC);
    (0x1DE, 0x1EE, 2, 0x1DF); (0x1F1, 0x1F1, 1, 0x1F3);
    (0x1F2, 0x1F4, 2, 0x1F3); (0x1F6, 0x1F6, 1, 0x195);
    (0x1F7, 0x1F7, 1, 0x1BF); (0x1F8, 0x21E, 2, 0x1F9);
    (0x220, 0x220, 1, 0x19E); (0x222, 0x232, 2, 0x223);
    (0x23A, 0x23A, 1, 0x2C65); (0x23B, 0x23B, 1, 0x23C);
    (0x23D, 0x23D, 1, 0x19A); (0x23E, 0x23E, 1, 0x2C66);
    (0x241, 0x241, 1, 0x242); (0x243, 0x243, 1, 0x180);
    (0x244, 0x244, 1, 0x289); (0x245, 0x245, 1, 0x28C);
    (0x246, 0x24E, 2, 0x247); (0x370, 0x372, 2, 0x371);
    (0x376, 0x376, 1, 0x377); (0x37F, 0x37F, 1, 0x3F3);
    (0x386, 0x386, 1, 0x3AC); (0x388, 0x38A, 1, 0x3AD);
    (0x38C, 0x38C, 1, 0x3CC); (0x38E, 0x38F, 1, 0x3CD);
    (0x391, 0x3A1, 1, 0x3B1); (0x3A3, 0x3AB, 1, 0x3C3);
    (0x3CF, 0x3CF, 1, 0x3D7); (0x3D8, 0x3EE, 2, 0x3D9);
    (0x3F4, 0x3F4, 1, 0x3B8); (0x3F7, 0x3F7, 1, 0x3F8);
    (0x3F9, 0x3F9, 1, 0x3F2); (0x3FA, 0x3FA, 1, 0x3FB);
    (0x3FD, 0x3FF, 1, 0x37B); (0x400, 0x40F, 1, 0x450);
    (0x410, 0x42F, 1, 0x430); (0x460, 0x480, 2, 0x461);
    (0x48A, 0x4BE, 2, 0x48B); (0x4C0, 0x4C0, 1, 0x4CF);
    (0x4C1, 0x4CD, 2, 0x4C2); (0x4D0, 0x52E, 2, 0x4D1);
    (0x531, 0x556, 1, 0x561); (0x10A0, 0x10C5, 1, 0x2D00);
    (0x10C7, 0x10C7, 1, 0x2D27); (0x10CD, 0x10CD, 1, 0x2D2D);
    (0x13A0, 0x13EF, 1, 0xAB70); (0x13F0, 0x13F5, 1, 0x13F8);
    (0x1C90, 0x1CBA, 1, 0x10D0); (0x1CBD, 0x1CBF, 1, 0x10FD);
    (0x1E00, 0x1E94, 2, 0x1E01); (0x1E9E, 0x1E9E, 1, 0xDF);
    (0x1EA0, 0x1EFE, 2, 0x1EA1); (0x1F08, 0x1F0F, 1, 0x1F00);
    (0x1F18, 0x1F1D, 1, 0x1F10); (0x1F28, 0x1F2F, 1, 0x1F20);
    (0x1F38, 0x1F3F, 1, 0x1F30); (0x1F48, 0x1F4D, 1, 0x1F40);
    (0x1F59, 0x1F5F, 2, 0x1F51); (0x1F68, 0x1F6F, 1, 0x1F60);
    (0x1F88, 0x1F8F, 1, 0x1F80); (0x1F98, 0x1F9F, 1, 0x1F90);
    (0x1FA8, 0x1FAF, 1, 0x1FA0); (0x1FB8, 0x1FB9, 1, 0x1FB0);
    (0x1FBA, 0x1FBB, 1, 0x1F70); (0x1FBC, 0x1FBC, 1, 0x1FB3);
    (0x1FC8, 0x1FCB, 1, 0x1F72); (0x1FCC, 0x1FCC, 1, 0x1FC3);
    (0x1FD8, 0x1FD9, 1, 0x1FD0); (0x1FDA, 0x1FDB, 1, 0x1F76);
    (0x1FE8, 0x1FE9, 1, 0x1FE0); (0x1FEA, 0x1FEB, 1, 0x1F7A);
    (0x1FEC, 0x1FEC, 1, 0x1FE5); (0x1FF8, 0x1FF9, 1, 0x1F78);
    (0x1FFA, 0x1FFB, 1, 0x1F7C); (0x1FFC, 0x1FFC, 1, 0x1FF3);
    (0x2126, 0x2126, 1, 0x3C9); (0x212A, 0x212A, 1, 0x6B);
    (0x212B, 0x212B, 1, 0xE5); (0x2132, 0x2132, 1, 0x214E);
    (0x2160, 0x216F, 1, 0x2170); (0x2183, 0x2183, 1, 0x2184);
    (0x24B6, 0x24CF, 1, 0x24D0); (0x2C00, 0x2C2F, 1, 0x2C30);
    (0x2C60, 0x2C60, 1, 0x2C61); (0x2C62, 0x2C62, 1, 0x26B);
    (0x2C63, 0x2C63, 1, 0x1D7D); (0x2C64, 0x2C64, 1, 0x27D);
    (0x2C67, 0x2C6B, 2, 0x2C68); (0x2C6D, 0x2C6D, 1, 0x251);
    (0x2C6E, 0x2C6E, 1, 0x271); (0x2C6F, 0x2C6F, 1, 0x250);
    (0x2C70, 0x2C70, 1, 0x252); (0x2C72, 0x2C72, 1, 0x2C73);
    (0x2C75, 0x2C75, 1, 0x2C76); (0x2C7E, 0x2C7F, 1, 0x23F);
    (0x2C80, 0x2CE2, 2, 0x2C81); (0x2CEB, 0x2CED, 2, 0x2CEC);
    (0x2CF2, 0x2CF2, 1, 0x2CF3); (0xA640, 0xA66C, 2, 0xA641);
    (0xA680, 0xA69A, 2, 0xA681); (0xA722, 0xA72E, 2, 0xA723);
    (0xA732, 0xA76E, 2, 0xA733); (0xA779, 0xA77B, 2, 0xA77A);
    (0xA77D, 0xA77D, 1, 0x1D79); (0xA77E, 0xA786, 2, 0xA77F);
    (0xA78B, 0xA78B, 1, 0xA78C); (0xA78D, 0xA78D, 1, 0x265);
    (0xA790, 0xA792, 2, 0xA791); (0xA796, 0xA7A8, 2, 0xA797);
    (0xA7AA, 0xA7AA, 1, 0x266); (0xA7AB, 0xA7AB, 1, 0x25C);
    (0xA7AC, 0xA7AC, 1, 0x261); (0xA7AD, 0xA7AD, 1, 0x26C);
    (0xA7AE, 0xA7AE, 1, 0x26A); (0xA7B0, 0xA7B0, 1, 0x29E);
    (0xA7B1, 0xA7B1, 1, 0x287); (0xA7B2, 0xA7B2, 1, 0x29D);
    (0xA7B3, 0xA7B3, 1, 0xAB53); (0xA7B4, 0xA7C2, 2, 0xA7B5);
    (0xA7C4, 0xA7C4, 1, 0xA794); (0xA7C5, 0xA7C5, 1, 0x282);
    (0xA7C6, 0xA7C6, 1, 0x1D8E); (0xA7C7, 0xA7C9, 2, 0xA7C8);
    (0xA7D0, 0xA7D0, 1, 0xA7D1); (0xA7D6, 0xA7D8, 2, 0xA7D7);
    (0xA7F5, 0xA7F5, 1, 0xA7F6); (0xFF21, 0xFF3A, 1, 0xFF41);
    (0x10400, 0x10427, 1, 0x10428); (0x104B0, 0x104D3, 1, 0x104D8);
    (0x10570, 0x1057A, 1, 0x10597); (0x1057C, 0x1058A, 1, 0x105A3);
    (0x1058C, 0x10592, 1, 0x105B3); (0x10594, 0x10595, 1, 0x105BB);
    (0x10C80, 0x10CB2, 1, 0x10CC0); (0x118A0, 0x118BF, 1, 0x118C0);
    (0x16E40, 0x16E5F, 1, 0x16E60); (0x1E900, 0x1E921, 1, 0x1E922)
  ]%N.

Definition CASED : list (N * N) :=
  [
    (0x41, 0x5A); (0x61, 0x7A); (0xAA, 0xAA); (0xB5, 0xB5); (0xBA, 0xBA);
    (0xC0, 0xD6); (0xD8, 0xF6); (0xF8, 0x1BA); (0x1BC, 0x1BF);
    (0x1C4, 0x293); (0x295, 0x2AF); (0x370, 0x373); (0x376, 0x377);
    (0x37B, 0x37D); (0x37F, 0x37F); (0x386, 0x386); (0x388, 0x38A);
    (0x38C, 0x38C); (0x38E, 0x3A1); (0x3A3, 0x3F5); (0x3F7, 0x481);
    (0x48A, 0x52F); (0x531, 0x556); (0x560, 0x588); (0x10A0, 0x10C5);
    (0x10C7, 0x10C7); (0x10CD, 0x10CD); (0x10D0, 0x10FA); (0x10FD, 0x10FF);
    (0x13A0, 0x13F5); (0x13F8, 0x13FD); (0x1C80, 0x1C88); (0x1C90, 0x1CBA);
    (0x1CBD, 0x1CBF); (0x1D00, 0x1D2B); (0x1D6B, 0x1D77); (0x1D79, 0x1D9A);
    (0x1E00, 0x1F15); (0x1F18, 0x1F1D); (0x1F20, 0x1F45); (0x1F48, 0x1F4D);
    (0x1F50, 0x1F57); (0x1F59, 0x1F59); (0x1F5B, 0x1F5B); (0x1F5D, 0x1F5D);
    (0x1F5F, 0x1F7D); (0x1F80, 0x1FB4); (0x1FB6, 0x1FBC); (0x1FBE, 0x1FBE);
    (0x1FC2, 0x1FC4); (0x1FC6, 0x1FCC); (0x1FD0, 0x1FD3); (0x1FD6, 0x1FDB);
    (0x1FE0, 0x1FEC); (0x1FF2, 0x1FF4); (0x1FF6, 0x1FFC); (0x2102, 0x2102);
    (0x2107, 0x2107); (0x210A, 0x2113); (0x2115, 0x2115); (0x2119, 0x211D);
    (0x2124, 0x2124); (0x2126, 0x2126); (0x2128, 0x2128); (0x212A, 0x212D);
    (0x212F, 0x2134); (0x2139, 0x2139); (0x213C, 0x213F); (0x2145, 0x2149);
    (0x214E, 0x214E); (0x2160, 0x217F); (0x2183, 0x2184); (0x24B6, 0x24E9);
    (0x2C00, 0x2C7B); (0x2C7E, 0x2CE4); (0x2CEB, 0x2CEE); (0x2CF2, 0x2CF3);
    (0x2D00, 0x2D25); (0x2D27, 0x2D27); (0x2D2D, 0x2D2D); (0xA640, 0xA66D);
    (0xA680, 0xA69B); (0xA722, 0xA76F); (0xA771, 0xA787); (0xA78B, 0xA78E);
    (0xA790, 0xA7CA); (0xA7D0, 0xA7D1); (0xA7D3, 0xA7D3); (0xA7D5, 0xA7D9);
    (0xA7F5, 0xA7F6); (0xA7FA, 0xA7FA); (0xAB30, 0xAB5A); (0xAB60, 0xAB68);
    (0xAB70, 0xABBF); (0xFB00, 0xFB06); (0xFB13, 0xFB17); (0xFF21, 0xFF3A);
    (0xFF41, 0xFF5A); (0x10400, 0x1044F); (0x104B0, 0x104D3);
    (0x104D8, 0x104FB); (0x10570, 0x1057A); (0x1057C, 0x1058A);
    (0x1058C, 0x10592); (0x10594, 0x10595); (0x10597, 0x105A1);
    (0x105A3, 0x105B1); (0x105B3, 0x105B9); (0x105BB, 0x105BC);
    (0x10C80, 0x10CB2); (0x10CC0, 0x10CF2); (0x118A0, 0x118DF);
    (0x16E40, 0x16E7F); (0x1D400, 0x1D454); (0x1D456, 0x1D49C);
    (0x1D49E, 0x1D49F); (0x1D4A2, 0x1D4A2); (0x1D4A5, 0x1D4A6);
    (0x1D4A9, 0x1D4AC); (0x1D4AE, 0x1D4B9); (0x1D4BB, 0x1D4BB);
    (0x1D4BD, 0x1D4C3); (0x1D4C5, 0x1D505); (0x1D507, 0x1D50A);
    (0x1D50D, 0x1D514); (0x1D516, 0x1D51C); (0x1D51E, 0x1D539);
    (0x1D53B, 0x1D53E); (0x1D540, 0x1D544); (0x1D546, 0x1D546);
    (0x1D54A, 0x1D550); (0x1D552, 0x1D6A5); (0x1D6A8, 0x1D6C0);
    (0x1D6C2, 0x1D6DA); (0x1D6DC, 0x1D6FA); (0x1D6FC, 0x1D714);
    (0x1D716, 0x1D734); (0x1D736, 0x1D74E); (0x1D750, 0x1D76E);
    (0x1D770, 0x1D788); (0x1D78A, 0x1D7A8); (0x1D7AA, 0x1D7C2);
    (0x1D7C4, 0x1D7CB); (0x1DF00, 0x1DF09); (0x1DF0B, 0x1DF1E);
    (0x1E900, 0x1E943); (0x1F130, 0x1F149); (0x1F150, 0x1F169);
    (0x1F170, 0x1F189)
  ]%N.

Definition CASE_IGNORABLE : list (N * N) :=
  [
    (0x27, 0x27); (0x2E, 0x2E); (0x3A, 0x3A); (0x5E, 0x5E); (0x60, 0x60);
    (0xA8, 0xA8); (0xAD, 0xAD); (0xAF, 0xAF); (0xB4, 0xB4); (0xB7, 0xB8);
    (0x2B0, 0x36F); (0x374, 0x375); (0x37A, 0x37A); (0x384, 0x385);
    (0x387, 0x387); (0x483, 0x489); (0x559, 0x559); (0x55F, 0x55F);
    (0x591, 0x5BD); (0x5BF, 0x5BF); (0x5C1, 0x5C2); (0x5C4, 0x5C5);
    (0x5C7, 0x5C7); (0x5F4, 0x5F4); (0x600, 0x605); (0x610, 0x61A);
    (0x61C, 0x61C); (0x640, 0x640); (0x64B, 0x65F); (0x670, 0x670);
    (0x6D6, 0x6DD); (0x6DF, 0x6E8); (0x6EA, 0x6ED); (0x70F, 0x70F);
    (0x711, 0x711); (0x730, 0x74A); (0x7A6, 0x7B0); (0x7EB, 0x7F5);
    (0x7FA, 0x7FA); (0x7FD, 0x7FD); (0x816, 0x82D); (0x859, 0x85B);
    (0x888, 0x888); (0x890, 0x891); (0x898, 0x89F); (0x8C9, 0x902);
    (0x93A, 0x93A); (0x93C, 0x93C); (0x941, 0x948); (0x94D, 0x94D);
    (0x951, 0x957); (0x962, 0x963); (0x971, 0x971); (0x981, 0x981);
    (0x9BC, 0x9BC); (0x9C1, 0x9C4); (0x9CD, 0x9CD); (0x9E2, 0x9E3);
    (0x9FE, 0x9FE); (0xA01, 0xA02); (0xA3C, 0xA3C); (0xA41, 0xA42);
    (0xA47, 0xA48); (0xA4B, 0xA4D); (0xA51, 0xA51); (0xA70, 0xA71);
    (0xA75, 0xA75); (0xA81, 0xA82); (0xABC, 0xABC); (0xAC1, 0xAC5);
    (0xAC7, 0xAC8); (0xACD, 0xACD); (0xAE2, 0xAE3); (0xAFA, 0xAFF);
    (0xB01, 0xB01); (0xB3C, 0xB3C); (0xB3F, 0xB3F); (0xB41, 0xB44);
    (0xB4D, 0xB4D); (0xB55, 0xB56); (0xB62, 0xB63); (0xB82, 0xB82);
    (0xBC0, 0xBC0); (0xBCD, 0xBCD); (0xC00, 0xC00); (0xC04, 0xC04);
    (0xC3C, 0xC3C); (0xC3E, 0xC40); (0xC46, 0xC48); (0xC4A, 0xC4D);
    (0xC55, 0xC56); (0xC62, 0xC63); (0xC81, 0xC81); (0xCBC, 0xCBC);
    (0xCBF, 0xCBF); (0xCC6, 0xCC6); (0xCCC, 0xCCD); (0xCE2, 0xCE3);
    (0xD00, 0xD01); (0xD3B, 0xD3C); (0xD41, 0xD44); (0xD4D, 0xD4D);
    (0xD62, 0xD63); (0xD81, 0xD81); (0xDCA, 0xDCA); (0xDD2, 0xDD4);
    (0xDD6, 0xDD6); (0xE31, 0xE31); (0xE34, 0xE3A); (0xE46, 0xE4E);
    (0xEB1, 0xEB1); (0xEB4, 0xEBC); (0xEC6, 0xEC6); (0xEC8, 0xECD);
    (0xF18, 0xF19); (0xF35, 0xF35); (0xF37, 0xF37); (0xF39, 0xF39);
    (0xF71, 0xF7E); (0xF80, 0xF84); (0xF86, 0xF87); (0xF8D, 0xF97);
    (0xF99, 0xFBC); (0xFC6, 0xFC6); (0x102D, 0x1030); (0x1032, 0x1037);
    (0x1039, 0x103A); (0x103D, 0x103E); (0x1058, 0x1059); (0x105E, 0x1060);
    (0x1071, 0x1074); (0x1082, 0x1082); (0x1085, 0x1086); (0x108D, 0x108D);
    (0x109D, 0x109D); (0x10FC, 0x10FC); (0x135D, 0x135F); (0x1712, 0x1714);
    (0x1732, 0x1733); (0x1752, 0x1753); (0x1772, 0x1773); (0x17B4, 0x17B5);
    (0x17B7, 0x17BD); (0x17C6, 0x17C6); (0x17C9, 0x17D3); (0x17D7, 0x17D7);
    (0x17DD, 0x17DD); (0x180B, 0x180F); (0x1843, 0x1843); (0x1885, 0x1886);
    (0x18A9, 0x18A9); (0x1920, 0x1922); (0x1927, 0x1928); (0x1932, 0x1932);
    (0x1939, 0x193B); (0x1A17, 0x1A18); (0x1A1B, 0x1A1B); (0x1A56, 0x1A56);
    (0x1A58, 0x1A5E); (0x1A60, 0x1A60); (0x1A62, 0x1A62); (0x1A65, 0x1A6C);
    (0x1A73, 0x1A7C); (0x1A7F, 0x1A7F); (0x1AA7, 0x1AA7); (0x1AB0, 0x1ACE);
    (0x1B00, 0x1B03); (0x1B34, 0x1B34); (0x1B36, 0x1B3A); (0x1B3C, 0x1B3C);
    (0x1B42, 0x1B42); (0x1B6B, 0x1B73); (0x1B80, 0x1B81); (0x1BA2, 0x1BA5);
    (0x1BA8, 0x1BA9); (0x1BAB, 0x1BAD); (0x1BE6, 0x1BE6); (0x1BE8, 0x1BE9);
    (0x1BED, 0x1BED); (0x1BEF, 0x1BF1); (0x1C2C, 0x1C33); (0x1C36, 0x1C37);
    (0x1C78, 0x1C7D); (0x1CD0, 0x1CD2); (0x1CD4, 0x1CE0); (0x1CE2, 0x1CE8);
    (0x1CED, 0x1CED); (0x1CF4, 0x1CF4); (0x1CF8, 0x1CF9); (0x1D2C, 0x1D6A);
    (0x1D78, 0x1D78); (0x1D9B, 0x1DFF); (0x1FBD, 0x1FBD); (0x1FBF, 0x1FC1);
    (0x1FCD, 0x1FCF); (0x1FDD, 0x1FDF); (0x1FED, 0x1FEF); (0x1FFD, 0x1FFE);
    (0x200B, 0x200F); (0x2018, 0x2019); (0x2024, 0x2024); (0x2027, 0x2027);
    (0x202A, 0x202E); (0x2060, 0x2064); (0x2066, 0x206F); (0x2071, 0x2071);
    (0x207F, 0x207F); (0x2090, 0x209C); (0x20D0, 0x20F0); (0x2C7C, 0x2C7D);
    (0x2CEF, 0x2CF1); (0x2D6F, 0x2D6F); (0x2D7F, 0x2D7F); (0x2DE0, 0x2DFF);
    (0x2E2F, 0x2E2F); (0x3005, 0x3005); (0x302A, 0x302D); (0x3031, 0x3035);
    (0x303B, 0x303B); (0x3099, 0x309E); (0x30FC, 0x30FE); (0xA015, 0xA015);
    (0xA4F8, 0xA4FD); (0xA60C, 0xA60C); (0xA66F, 0xA672); (0xA674, 0xA67D);
    (0xA67F, 0xA67F); (0xA69C, 0xA69F); (0xA6F0, 0xA6F1); (0xA700, 0xA721);
    (0xA770, 0xA770); (0xA788, 0xA78A); (0xA7F2, 0xA7F4); (0xA7F8, 0xA7F9);
    (0xA802, 0xA802); (0xA806, 0xA806); (0xA80B, 0xA80B); (0xA825, 0xA826);
    (0xA82C, 0xA82C); (0xA8C4, 0xA8C5); (0xA8E0, 0xA8F1); (0xA8FF, 0xA8FF);
    (0xA926, 0xA92D); (0xA947, 0xA951); (0xA980, 0xA982); (0xA9B3, 0xA9B3);
    (0xA9B6, 0xA9B9); (0xA9BC, 0xA9BD); (0xA9CF, 0xA9CF); (0xA9E5, 0xA9E6);
    (0xAA29, 0xAA2E); (0xAA31, 0xAA32); (0xAA35, 0xAA36); (0xAA43, 0xAA43);
    (0xAA4C, 0xAA4C); (0xAA70, 0xAA70); (0xAA7C, 0xAA7C); (0xAAB0, 0xAAB0);
    (0xAAB2, 0xAAB4); (0xAAB7, 0xAAB8); (0xAABE, 0xAABF); (0xAAC1, 0xAAC1);
    (0xAADD, 0xAADD); (0xAAEC, 0xAAED); (0xAAF3, 0xAAF4); (0xAAF6, 0xAAF6);
    (0xAB5B, 0xAB5F); (0xAB69, 0xAB6B); (0xABE5, 0xABE5); (0xABE8, 0xABE8);
    (0xABED, 0xABED); (0xFB1E, 0xFB1E); (0xFBB2, 0xFBC2); (0xFE00, 0xFE0F);
    (0xFE13, 0xFE13); (0xFE20, 0xFE2F); (0xFE52, 0xFE52); (0xFE55, 0xFE55);
    (0xFEFF, 0xFEFF); (0xFF07, 0xFF07); (0xFF0E, 0xFF0E); (0xFF1A, 0xFF1A);
    (0xFF3E, 0xFF3E); (0xFF40, 0xFF40); (0xFF70, 0xFF70); (0xFF9E, 0xFF9F);
    (0xFFE3, 0xFFE3); (0xFFF9, 0xFFFB); (0x101FD, 0x101FD);
    (0x102E0, 0x102E0); (0x10376, 0x1037A); (0x10780, 0x10785);
    (0x10787, 0x107B0); (0x107B2, 0x107BA); (0x10A01, 0x10A03);
    (0x10A05, 0x10A06); (0x10A0C, 0x10A0F); (0x10A38, 0x10A3A);
    (0x10A3F, 0x10A3F); (0x10AE5, 0x10AE6); (0x10D24, 0x10D27);
    (0x10EAB, 0x10EAC); (0x10F46, 0x10F50); (0x10F82, 0x10F85);
    (0x11001, 0x11001); (0x11038, 0x11046); (0x11070, 0x11070);
    (0x11073, 0x11074); (0x1107F, 0x11081); (0x110B3, 0x110B6);
    (0x110B9, 0x110BA); (0x110BD, 0x110BD); (0x110C2, 0x110C2);
    (0x110CD, 0x110CD); (0x11100, 0x11102); (0x11127, 0x1112B);
    (0x1112D, 0x11134); (0x11173, 0x11173); (0x11180, 0x11181);
    (0x111B6, 0x111BE); (0x111C9, 0x111CC); (0x111CF, 0x111CF);
    (0x1122F, 0x11231); (0x11234, 0x11234); (0x11236, 0x11237);
    (0x1123E, 0x1123E); (0x112DF, 0x112DF); (0x112E3, 0x112EA);
    (0x11300, 0x11301); (0x1133B, 0x1133C); (0x11340, 0x11340);
    (0x11366, 0x1136C); (0x11370, 0x11374); (0x11438, 0x1143F);
    (0x11442, 0x11444); (0x11446, 0x11446); (0x1145E, 0x1145E);
    (0x114B3, 0x114B8); (0x114BA, 0x114BA); (0x114BF, 0x114C0);
    (0x114C2, 0x114C3); (0x115B2, 0x115B5); (0x115BC, 0x115BD);
    (0x115BF, 0x115C0); (0x115DC, 0x115DD); (0x11633, 0x1163A);
    (0x1163D, 0x1163D); (0x1163F, 0x11640); (0x116AB, 0x116AB);
    (0x116AD, 0x116AD); (0x116B0, 0x116B5); (0x116B7, 0x116B7);
    (0x1171D, 0x1171F); (0x11722, 0x11725); (0x11727, 0x1172B);
    (0x1182F, 0x11837); (0x11839, 0x1183A); (0x1193B, 0x1193C);
    (0x1193E, 0x1193E); (0x11943, 0x11943); (0x119D4, 0x119D7);
    (0x119DA, 0x119DB); (0x119E0, 0x119E0); (0x11A01, 0x11A0A);
    (0x11A33, 0x11A38); (0x11A3B, 0x11A3E); (0x11A47, 0x11A47);
    (0x11A51, 0x11A56); (0x11A59, 0x11A5B); (0x11A8A, 0x11A96);
    (0x11A98, 0x11A99); (0x11C30, 0x11C36); (0x11C38, 0x11C3D);
    (0x11C3F, 0x11C3F); (0x11C92, 0x11CA7); (0x11CAA, 0x11CB0);
    (0x11CB2, 0x11CB3); (0x11CB5, 0x11CB6); (0x11D31, 0x11D36);
    (0x11D3A, 0x11D3A); (0x11D3C, 0x11D3D); (0x11D3F, 0x11D45);
    (0x11D47, 0x11D47); (0x11D90, 0x11D91); (0x11D95, 0x11D95);
    (0x11D97, 0x11D97); (0x11EF3, 0x11EF4); (0x13430, 0x13438);
    (0x16AF0, 0x16AF4); (0x16B30, 0x16B36); (0x16B40, 0x16B43);
    (0x16F4F, 0x16F4F); (0x16F8F, 0x16F9F); (0x16FE0, 0x16FE1);
    (0x16FE3, 0x16FE4); (0x1AFF0, 0x1AFF3); (0x1AFF5, 0x1AFFB);
    (0x1AFFD, 0x1AFFE); (0x1BC9D, 0x1BC9E); (0x1BCA0, 0x1BCA3);
    (0x1CF00, 0x1CF2D); (0x1CF30, 0x1CF46); (0x1D167, 0x1D169);
    (0x1D173, 0x1D182); (0x1D185, 0x1D18B); (0x1D1AA, 0x1D1AD);
    (0x1D242, 0x1D244); (0x1DA00, 0x1DA36); (0x1DA3B, 0x1DA6C);
    (0x1DA75, 0x1DA75); (0x1DA84, 0x1DA84); (0x1DA9B, 0x1DA9F);
    (0x1DAA1, 0x1DAAF); (0x1E000, 0x1E006); (0x1E008, 0x1E018);
    (0x1E01B, 0x1E021); (0x1E023, 0x1E024); (0x1E026, 0x1E02A);
    (0x1E130, 0x1E13D); (0x1E2AE, 0x1E2AE); (0x1E2EC, 0x1E2EF);
    (0x1E8D0, 0x1E8D6); (0x1E944, 0x1E94B); (0x1F3FB, 0x1F3FF);
    (0xE0001, 0xE0001); (0xE0020, 0xE007F); (0xE0100, 0xE01EF)
  ]%N.

Fixpoint N_seq (start : N) (len : nat) : list N :=
  match len with
  | O => []
  | S k => start :: N_seq (start + 1) k
  end.

Definition pairs_of (row : N * N * N * N) : list (N * N) :=
  let '(first, last, step, image) := row in
  map (fun k => (first + k * step, image + k * step)%N)
      (N_seq 0 (N.to_nat ((last - first) / step + 1))).

(** The simple lower-case mapping as a list of pairs, and as a
    function: a code point without a pair maps to itself. *)
Definition lowercase_pairs : list (N * N) :=
  Eval vm_compute in flat_map pairs_of LOWERCASE.

Definition simple_lowercase (cp : N) : N :=
  match find (fun p => (fst p =? cp)%N) lowercase_pairs with
  | Some p => snd p
  | None => cp
  end.

Definition in_ranges (ranges : list (N * N)) (cp : N) : bool :=
  existsb (fun r => between (fst r) (snd r) cp) ranges.

(** [Case_Ignorable], and [Cased] for the code points that are not
    [Case_Ignorable]; the test of the final sigma asks in this order. *)
Definition is_case_ignorable (cp : N) : bool := in_ranges CASE_IGNORABLE cp.
Definition is_cased (cp : N) : bool := in_ranges CASED cp.

Definition is_lead (c : codeunit) : bool := between 0xD800 0xDBFF c.
Definition is_trail (c : codeunit) : bool := between 0xDC00 0xDFFF c.

Definition code_point (lead trail : codeunit) : N :=
  (0x10000 + (lead - 0xD800) * 0x400 + (trail - 0xDC00))%N.

(** The surrogate pair of a code point above U+FFFF. *)
Definition surrogates (cp : N) : jsstring :=
  [(0xD800 + (cp - 0x10000) / 0x400)%N; (0xDC00 + (cp - 0x10000) mod 0x400)%N].

(** Is [s] a run of case-ignorable code points followed by a cased one? *)
Fixpoint followed_by_cased (s : jsstring) : bool :=
  match s with
  | [] => false
  | c :: r =>
      match r with
      | d :: r' =>
          if is_lead c && is_trail d then
            if is_case_ignorable (code_point c d) then followed_by_cased r'
            else is_cased (code_point c d)
          else
            if is_case_ignorable c then followed_by_cased r else is_cased c
      | [] => if is_case_ignorable c then false else is_cased c
      end
  end.

(** The context before the next code point, once [cp] is passed:
    [before] tells whether the code points read so far end with a cased
    one followed by case-ignorable ones only. *)
Definition passed (before : bool) (cp : N) : bool :=
  if is_case_ignorable cp then before else is_cased cp.

(** The lower case of a code point of the Basic Multilingual Plane that
    stands before [rest]. *)
Definition lower_unit (before : bool) (c : codeunit) (rest : jsstring)
  : jsstring :=
  if (c =? 0x3A3)%N then
    [if before && negb (followed_by_cased rest) then 0x3C2%N else 0x3C3%N]
  else if (c =? 0x130)%N then [0x69%N; 0x307%N]
  else [simple_lowercase c].

Fixpoint lower_go (before : bool) (s : jsstring) : jsstring :=
  match s with
  | [] => []
  | c :: r =>
      match r with
      | d :: r' =>
          if is_lead c && is_trail d then
            surrogates (simple_lowercase (code_point c d))
            ++ lower_go (passed before (code_point c d)) r'
          else lower_unit before c r ++ lower_go (passed before c) r
      | [] => lower_unit before c []
      end
  end.

Definition toLowerCase (s : jsstring) : jsstring := lower_go false s.

(** The number of capital I with a dot, U+0130, in a string: the one
    code unit whose lower case takes two. *)
Definition dotted (s : jsstring) : nat := count_occ N.eq_dec s 0x130%N.

(** *** [String.prototype.toUpperCase]

    Code unit by code unit, with the mapping of Basic Latin, Latin-1 and
    the Cyrillic letters U+0430 to U+045F.  The only use is in
    [parseInstalls], before a pattern of ASCII digits, dots, white space
    and the letters K, M, B, T.  A code unit outside this table is not in
    the alphabet of the pattern, and its upper case in Unicode holds a
    code unit that is not either (the nearest are U+1E97, which gives T
    and U+0308, and U+FB05 and U+FB06, which give ST): the match fails
    on it with the full mapping as it does here. *)
Definition upper_cu (c : codeunit) : jsstring :=
  if between 97 122 c then [(c - 32)%N]                    (* a-z *)
  else if between 0xE0 0xFE c && negb (c =? 0xF7)%N then [(c - 32)%N]
  else if (c =? 0xDF)%N then [83%N; 83%N]                  (* sharp s *)
  else if (c =? 0xFF)%N then [0x178%N]
  else if (c =? 0xB5)%N then [0x39C%N]
  else if between 0x430 0x44F c then [(c - 32)%N]          (* а-я *)
  else if between 0x450 0x45F c then [(c - 80)%N]          (* ѐ-џ *)
  else [c].

Definition toUpperCase (s : jsstring) : jsstring := flat_map upper_cu s.

(** Canonicalisation of the [i] flag for the patterns of this module,
    which are ASCII: a letter matches itself in either case, and a code
    unit outside ASCII never matches an ASCII one. *)
Definition canonicalize (c : codeunit) : codeunit :=
  if is_lower c then (c - 32)%N else c.

(** [a.includes(b)]. *)
Fixpoint is_prefix (p s : jsstring) : bool :=
  match p, s with
  | [], _ => true
  | x :: p', y :: s' => (x =? y)%N && is_prefix p' s'
  | _ :: _, [] => false
  end.

Fixpoint includes (a b : jsstring) : bool :=
  is_prefix b a ||
  match a with
  | [] => false
  | _ :: a' => includes a' b
  end.

(** A [Set] of strings in insertion order: [add] keeps the first
    occurrence. *)
Definition set_has (x : jsstring) (s : list jsstring) : bool :=
  existsb (str_eqb x) s.

Definition set_add (x : jsstring) (s : list jsstring) : list jsstring :=
  if set_has x s then s else s ++ [x].

Definition set_of (l : list jsstring) : list jsstring :=
  fold_left (fun s x => set_add x s) l [].

End JS.

Import JS.

(* ===================================================================== *)
(** ** Filler tables and brand tokens                                      *)
(* ===================================================================== *)

Definition UNIVERSAL_FILLER : list jsstring :=
  map lit
    [ "for android"; "for phone"; "for mobile"; "pro"; "free"; "app";
      "lite"; "plus"; "premium"; "mod"; "the"; "a"; "an";
      "new"; "best"; "top"; "ultimate"; "official" ]%string.

Definition CATEGORY_FILLER : list (jsstring * list jsstring) :=
  map (fun kv => (lit (fst kv), map lit (snd kv)))
    [ ("Tools", ["tool"; "tools"; "utility"; "utilities"; "helper"]);
      ("Communication", ["messenger"; "messaging"; "chat"; "call"; "calling"]);
      ("Photography", ["photo"; "camera"; "picture"; "pic"; "image"]);
      ("Music & Audio", ["music"; "player"; "audio"; "sound"; "mp3"]);
      ("Entertainment", ["entertainment"; "fun"; "funny"]);
      ("Education", ["learn"; "learning"; "education"; "study"; "school"]);
      ("Health & Fitness", ["health"; "fitness"; "workout"; "exercise"]);
      ("Finance", ["finance"; "money"; "bank"; "banking"; "pay"; "payment"]);
      ("Productivity", ["productivity"; "organizer"; "planner"]);
      ("Shopping", ["shopping"; "shop"; "store"; "deals"; "coupons"; "sale"]);
      ("Social", ["social"; "network"; "friends"; "community"]);
      ("Travel & Local",
        ["travel"; "hotel"; "flights"; "booking"; "trip"; "guide"]);
      ("Weather", ["weather"; "forecast"; "radar"; "climate"]);
      ("Lifestyle", ["lifestyle"; "fashion"; "style"; "beauty"]);
      ("Video Players & Editors",
        ["video"; "player"; "editor"; "movie"; "clip"]);
      ("Maps & Navigation", ["maps"; "map"; "navigation"; "gps"; "directions"]);
      ("News & Magazines", ["news"; "magazine"; "headlines"; "daily"]);
      ("Food & Drink", ["food"; "recipe"; "restaurant"; "cooking"; "delivery"]);
      ("Business", ["business"; "office"; "corporate"; "enterprise"]) ]%string.

(** The character class of the short-title cleanup: comma, round and
    square brackets, colon, semicolon, [!], [?], apostrophe, double quote,
    and the trademark, registered and copyright signs. *)
Definition punct_short (c : codeunit) : bool :=
  existsb (N.eqb c)
    [44; 40; 41; 91; 93; 58; 59; 33; 63; 39; 34; 0x2122; 0xAE; 0xA9]%N.

(** The character class used everywhere else: the same, and the
    ampersand, the hyphen, the en dash and the em dash. *)
Definition punct_full (c : codeunit) : bool :=
  punct_short c || existsb (N.eqb c) [38; 45; 0x2013; 0x2014]%N.

(** [/[a-z][A-Z]/.test(w)] *)
Fixpoint has_camel (w : jsstring) : bool :=
  match w with
  | a :: (b :: _) as r => (is_lower a && is_upper b) || has_camel r
  | _ => false
  end.

(** [/^[A-Z]{2,}$/.test(w)] *)
Definition all_caps (w : jsstring) : bool :=
  (2 <=? length w) && forallb is_upper w.

Definition is_trademark (c : codeunit) : bool :=
  (c =? 0x2122)%N || (c =? 0xAE)%N || (c =? 0xA9)%N.

Definition isBrandToken (originalWord : jsstring) : bool :=
  if has_camel originalWord then true
  else if all_caps originalWord then true
  else if existsb is_alpha originalWord && existsb is_digit originalWord
       then true
  else if existsb is_trademark originalWord then true
  else false.

(* ===================================================================== *)
(** ** classifyTitle                                                       *)
(* ===================================================================== *)

Inductive TitleType := brand | descriptive | mixed.

Record Classification := {
  type : TitleType;
  brandWords : list jsstring;
  otherWords : list jsstring
}.

(** The loop over [words]: each word is stripped of punctuation, dropped
    when nothing is left, and pushed on one of the two arrays. *)
Fixpoint classify_words (words brandWords otherWords : list jsstring)
  : list jsstring * list jsstring :=
  match words with
  | [] => (brandWords, otherWords)
  | w :: rest =>
      let clean := strip punct_full w in
      match clean with
      | [] => classify_words rest brandWords otherWords
      | _ =>
          if isBrandToken clean
          then classify_words rest (brandWords ++ [clean]) otherWords
          else classify_words rest brandWords (otherWords ++ [clean])
      end
  end.

Definition classifyTitle (title : jsstring) : Classification :=
  let words := split_ws (trim title) in
  let '(brandWords, otherWords) := classify_words words [] [] in
  let meaningfulOther :=
    filter (fun w =>
              let lower := toLowerCase w in
              negb (set_has lower UNIVERSAL_FILLER) && (2 <=? length lower))
           otherWords in
  if (0 <? length brandWords) && (length meaningfulOther =? 0)
  then {| type := brand; brandWords := brandWords;
          otherWords := meaningfulOther |}
  else if (0 <? length brandWords) && (0 <? length meaningfulOther)
  then {| type := mixed; brandWords := brandWords;
          otherWords := meaningfulOther |}
  else {| type := descriptive; brandWords := brandWords;
          otherWords := meaningfulOther |}.

(* ===================================================================== *)
(** ** cleanSearchQuery                                                    *)
(* ===================================================================== *)

(** What a function of the module does: it returns a value or throws. *)
Inductive exn := TypeError | URIError | BrowserError.

Inductive outcome (A : Type) :=
| Return (a : A)
| Throw (e : exn).

Arguments Return {A} a.
Arguments Throw {A} e.

(** [CATEGORY_FILLER[category]] is a property read on an object literal:
    an own key gives its [Set]; a name that the object inherits from
    [Object.prototype] gives a function (or the prototype itself), which
    is truthy and not iterable; any other name gives [undefined]. *)
Inductive property :=
| Own (words : list jsstring)
| Inherited
| Undefined.

Definition OBJECT_PROTOTYPE : list jsstring :=
  map lit
    [ "constructor"; "__defineGetter__"; "__defineSetter__";
      "hasOwnProperty"; "__lookupGetter__"; "__lookupSetter__";
      "isPrototypeOf"; "propertyIsEnumerable"; "toString"; "valueOf";
      "__proto__"; "toLocaleString" ]%string.

Fixpoint assoc (k : jsstring) (tbl : list (jsstring * list jsstring))
  : option (list jsstring) :=
  match tbl with
  | [] => None
  | (k', v) :: rest => if str_eqb k k' then Some v else assoc k rest
  end.

Definition CATEGORY_FILLER_get (category : jsstring) : property :=
  match assoc category CATEGORY_FILLER with
  | Some words => Own words
  | None => if set_has category OBJECT_PROTOTYPE then Inherited
            else Undefined
  end.

(** [\b]: exactly one of the two neighbours is a word character; beyond
    either end of the string there is none. *)
Definition is_word_at (o : option codeunit) : bool :=
  match o with Some c => is_word c | None => false end.

Definition boundary (l r : option codeunit) : bool :=
  xorb (is_word_at l) (is_word_at r).

Fixpoint ci_prefix (pat s : jsstring) : bool :=
  match pat, s with
  | [], _ => true
  | p :: pat', c :: s' =>
      (canonicalize p =? canonicalize c)%N && ci_prefix pat' s'
  | _ :: _, [] => false
  end.

(** Does [/\bpat\b/i] match at the head of [s], [prev] being the code
    unit before it? *)
Definition word_at (pat : jsstring) (prev : option codeunit) (s : jsstring)
  : bool :=
  boundary prev (hd_error s)
  && ci_prefix pat s
  && boundary (hd_error (rev (firstn (length pat) s)))
              (hd_error (skipn (length pat) s)).

(** [s.replace(new RegExp('\\b' + pat + '\\b', 'gi'), ' ')] for a
    non-empty literal [pat]: matches are taken left to right and do not
    overlap; [skip] counts the code units of the current match that are
    still to be dropped. *)
Fixpoint replace_word_go (pat : jsstring) (skip : nat)
  (prev : option codeunit) (s : jsstring) : jsstring :=
  match s with
  | [] => []
  | c :: r =>
      match skip with
      | S k => replace_word_go pat k (Some c) r
      | O =>
          if word_at pat prev s
          then SP :: replace_word_go pat (length pat - 1) (Some c) r
          else c :: replace_word_go pat 0 (Some c) r
      end
  end.

Definition replace_word (pat s : jsstring) : jsstring :=
  replace_word_go pat 0 None s.

(** [words.forEach((w, i) => ...)] filling [protectedWords]. *)
Fixpoint protect_words (words : list jsstring) (i : nat)
  (protectedWords : list jsstring) : list jsstring :=
  match words with
  | [] => protectedWords
  | w :: rest =>
      let clean := strip punct_full w in
      match clean with
      | [] => protect_words rest (S i) protectedWords
      | _ =>
          if isBrandToken clean || (i =? 0)
          then protect_words rest (S i)
                 (set_add (toLowerCase clean) protectedWords)
          else protect_words rest (S i) protectedWords
      end
  end.

(** One turn of the loop over [UNIVERSAL_FILLER]. *)
Definition drop_universal (protectedWords : list jsstring)
  (cleaned phrase : jsstring) : jsstring :=
  let phraseWords := split_ws phrase in
  if (length phraseWords =? 1) && set_has (hd [] phraseWords) protectedWords
  then cleaned
  else replace_word phrase cleaned.

(** One turn of the loop over [catFillers]. *)
Definition drop_category (protectedWords : list jsstring)
  (cleaned word : jsstring) : jsstring :=
  if set_has word protectedWords then cleaned
  else replace_word word cleaned.

(** The soft cleanup of the short-title branch. *)
Definition soft_clean (title : jsstring) : jsstring :=
  trim (collapse_ws (blank punct_short title)).

(** The fallback of the long-title branch. *)
Definition fallback_clean (title : jsstring) : jsstring :=
  toLowerCase (trim (collapse_ws (blank punct_full title))).

Definition at_least_2_or (cleaned title : jsstring) : jsstring :=
  if 2 <=? length cleaned then cleaned else title.

(** The end of the long-title branch, once the filler loops are done:
    punctuation, white space, the minimal-length guard and the final
    fallback on the raw title. *)
Definition finish_clean (title cleaned : jsstring) : jsstring :=
  let cleaned := blank punct_full cleaned in
  let cleaned := trim (collapse_ws cleaned) in
  let remainingWords :=
    filter (fun w => 2 <=? length w) (split_ws cleaned) in
  let cleaned :=
    if (length remainingWords <? 2) || (length cleaned <? 3)
    then fallback_clean title
    else cleaned in
  at_least_2_or cleaned title.

Definition cleanSearchQuery (title category : jsstring) : outcome jsstring :=
  let words := split_ws (trim title) in
  if length words <=? 2 then
    let cleaned := soft_clean title in
    Return (at_least_2_or cleaned title)
  else
    let protectedWords := protect_words words 0 [] in
    let cleaned := toLowerCase title in
    let cleaned :=
      fold_left (drop_universal protectedWords) UNIVERSAL_FILLER cleaned in
    match CATEGORY_FILLER_get category with
    | Undefined => Return (finish_clean title cleaned)
    | Inherited => Throw TypeError
    | Own catFillers =>
        let cleaned :=
          fold_left (drop_category protectedWords) catFillers cleaned in
        Return (finish_clean title cleaned)
    end.

(** What it means for a query to be normalised. *)
Definition lower_cased (s : jsstring) : Prop := toLowerCase s = s.

(** A code point that lower-casing leaves alone, and a string whose code
    points are all such: a test on its code units and on its pairs of
    neighbours, a lead surrogate before a trail surrogate being the one
    code point they encode. *)
Definition stable (cp : N) : bool :=
  (simple_lowercase cp =? cp)%N && negb (cp =? 0x130)%N.

Definition pair_ok (a b : codeunit) : bool :=
  negb (is_lead a && is_trail b) || stable (code_point a b).

Fixpoint adjacent (Q : codeunit -> codeunit -> bool) (s : jsstring) : bool :=
  match s with
  | a :: (b :: _) as r => Q a b && adjacent Q r
  | _ => true
  end.

Definition locally_lower (s : jsstring) : Prop :=
  Forall (fun c => stable c = true) s /\ adjacent pair_ok s = true.

(** What the proofs use of a pair of the mapping: the image is left
    alone by the mapping; neither code point is white space, punctuation
    of the cleanup or a surrogate; both lie in the same plane. *)
Definition pair_checked (p : N * N) : bool :=
  let '(c, d) := p in
  stable d
  && negb (is_space c) && negb (is_space d)
  && negb (punct_full c) && negb (punct_full d)
  && negb (is_lead c) && negb (is_trail c)
  && negb (is_lead d) && negb (is_trail d)
  && Bool.eqb (c <? 0x10000)%N (d <? 0x10000)%N
  && (d <? 0x110000)%N && negb (c =? 0x130)%N.

(** [a] may stand before [s]. *)
Definition precedes (Q : codeunit -> codeunit -> bool) (a : codeunit)
  (s : jsstring) : Prop :=
  match s with
  | c :: _ => Q a c = true
  | [] => True
  end.

Definition punctuation_free (s : jsstring) : Prop :=
  Forall (fun c => punct_full c = false) s.

Definition is_space_at (o : option codeunit) : bool :=
  match o with Some c => is_space c | None => false end.

Fixpoint no_space_run (s : jsstring) : bool :=
  match s with
  | a :: (b :: _) as r => negb (is_space a && is_space b) && no_space_run r
  | _ => true
  end.

Definition whitespace_collapsed (s : jsstring) : Prop :=
  is_space_at (hd_error s) = false
  /\ is_space_at (hd_error (rev s)) = false
  /\ no_space_run s = true.

Definition normalised (q : jsstring) : Prop :=
  lower_cased q /\ punctuation_free q /\ whitespace_collapsed q.

(* ===================================================================== *)
(** ** Numbers and parseInstalls                                           *)
(* ===================================================================== *)

(** This section and the two after it take numbers to be real numbers.
    The same functions with the doubles of the engine are in the module
    [Double] at the end; the scanner of the pattern and the reading of
    the digits, which are about strings, are shared. *)

(** A number that a parse may fail to produce. *)
Inductive jsnum :=
| NaN
| Num (x : R).

(** The longest prefix of [s] made of code units of the class. *)
Fixpoint span (cls : codeunit -> bool) (s : jsstring) : jsstring * jsstring :=
  match s with
  | c :: r =>
      if cls c then let '(a, b) := span cls r in (c :: a, b) else ([], s)
  | [] => ([], [])
  end.

Definition digit_value (c : codeunit) : Z := Z.of_N (c - 48).

Definition digits_value (ds : jsstring) : Z :=
  fold_left (fun acc c => (10 * acc + digit_value c)%Z) ds 0%Z.

(** The decimal literal that [parseFloat] reads at the head of a string
    of digits and dots: digits, then possibly a dot and more digits, with
    one digit at least.  The result is the mantissa and the number of
    digits after the dot; what follows the literal is ignored. *)
Definition decimal_prefix (s : jsstring) : option (Z * nat) :=
  let '(ip, r) := span is_digit s in
  let fp := match r with
            | 46%N :: r' => fst (span is_digit r')
            | _ => []
            end in
  match ip ++ fp with
  | [] => None
  | ds => Some (digits_value ds, length fp)
  end.

Definition parseFloat (s : jsstring) : jsnum :=
  match decimal_prefix s with
  | None => NaN
  | Some (m, k) => Num (IZR m / 10 ^ k)
  end.

Definition is_digit_or_dot (c : codeunit) : bool :=
  is_digit c || (c =? 46)%N.

Definition is_plus_or_comma (c : codeunit) : bool :=
  (c =? 43)%N || (c =? 44)%N.

(** [K], [M], [B] or [T]. *)
Definition is_suffix (c : codeunit) : bool :=
  (c =? 75)%N || (c =? 77)%N || (c =? 66)%N || (c =? 84)%N.

(** [str.match(/^([\d.]+)\s*([KMBT]?)$/)]: the two groups, when the
    whole string matches.  The three classes are disjoint, so the greedy
    reading is the only one. *)
Definition installs_match (str : jsstring) : option (jsstring * jsstring) :=
  let '(g1, r) := span is_digit_or_dot str in
  match g1 with
  | [] => None
  | _ =>
      match trimStart r with
      | [] => Some (g1, [])
      | [c] => if is_suffix c then Some (g1, [c]) else None
      | _ => None
      end
  end.

(** [multipliers[suffix] || 1] *)
Definition multiplier (suffix : jsstring) : R :=
  match suffix with
  | [75%N] => 1e3
  | [77%N] => 1e6
  | [66%N] => 1e9
  | [84%N] => 1e12
  | _ => 1
  end.

Definition times (num : jsnum) (m : R) : jsnum :=
  match num with
  | NaN => NaN
  | Num x => Num (x * m)
  end.

Definition parseInstalls (installsStr : jsstring) : jsnum :=
  match installsStr with
  | [] => Num 0
  | _ =>
      if str_eqb installsStr (lit "N/A") then Num 0
      else
        let str := toUpperCase (trim (strip is_plus_or_comma installsStr)) in
        match installs_match str with
        | None => Num 0
        | Some (digits, suffix) =>
            let num := parseFloat digits in
            times num (multiplier suffix)
        end
  end.

(** The pattern of [parseInstalls], read as a language: a non-empty run
    of digits and dots, white space, and at most one suffix letter. *)
Definition matches_pattern (str digits ws suffix : jsstring) : Prop :=
  str = digits ++ ws ++ suffix
  /\ digits <> []
  /\ Forall (fun c => is_digit_or_dot c = true) digits
  /\ Forall (fun c => is_space c = true) ws
  /\ (suffix = [] \/ exists c, suffix = [c] /\ is_suffix c = true).

(* ===================================================================== *)
(** ** calculateOpportunityScore                                           *)
(* ===================================================================== *)

Local Open Scope R_scope.

Definition Math_round (x : R) : Z := Int_part (x + / 2).

Definition Math_log10 (x : R) : R := ln x / ln 10.

(** The [installs] field is a string or a number. *)
Inductive installs_t :=
| InstallsStr (s : jsstring)
| InstallsNum (n : R).

(** The argument of [calculateOpportunityScore]; [None] is [null]. *)
Record Stats := {
  competitorsCount : R;
  avgRating : option R;
  maxRating : option R;
  gpRating : R;
  installs : installs_t
}.

(** [typeof installs === 'string' ? parseInstalls(installs)
                                  : (installs || 0)] *)
Definition installsNum_of (i : installs_t) : jsnum :=
  match i with
  | InstallsStr s => parseInstalls s
  | InstallsNum n => Num n
  end.

Definition calculateOpportunityScore (s : Stats) : Z :=
  let f1 := Rmax 0 (1 - competitorsCount s / 20) in
  let f2 := match avgRating s with
            | None => 0.7
            | Some a => Rmax 0 (1 - (a - 2) / 3)
            end in
  let installsNum := installsNum_of (installs s) in
  let f3 := match installsNum with
            | Num n =>
                if Rlt_dec 0 n then Rmin 1 (Math_log10 (n + 1) / 9) else 0
            | NaN => 0        (* [NaN > 0] is false *)
            end in
  let f4 := Rmax 0 (Rmin 1 ((gpRating s - 2.5) / 2)) in
  let f5 := match maxRating s with
            | None => 1.0
            | Some m => Rmax 0 (1 - (m - 2) / 3)
            end in
  let raw := 0.30 * f1 + 0.25 * f2 + 0.25 * f3 + 0.10 * f4 + 0.10 * f5 in
  let score := Math_round (100 * raw) in
  Z.max 0 (Z.min 100 score)%Z.

(** Scenario 3 of the specification: no competitor at all. *)
Definition scenario3 : Stats :=
  {| competitorsCount := 0; avgRating := None; maxRating := None;
     gpRating := 4.2; installs := InstallsStr (lit "10M+") |}.

Local Close Scope R_scope.

(* ===================================================================== *)
(** ** Relevance of a competitor                                           *)
(* ===================================================================== *)

Local Open Scope R_scope.

Definition RELEVANCE_THRESHOLD : R := 0.15.

(** The lower-cased words of at least two code units. *)
Definition tokens (a : jsstring) : list jsstring :=
  filter (fun w => 2 <=? length w)%nat (split_ws (toLowerCase a)).

Definition wordJaccard (a b : jsstring) : R :=
  let setA := set_of (tokens a) in
  let setB := set_of (tokens b) in
  if ((length setA =? 0) || (length setB =? 0))%nat then 0
  else
    let intersection :=
      fold_left (fun n w => if set_has w setB then S n else n) setA 0%nat in
    INR intersection / INR (length (set_of (setA ++ setB))).

Definition substringMatch (a b : jsstring) : bool :=
  let al := trim (toLowerCase a) in
  let bl := trim (toLowerCase b) in
  if ((length al <? 2) || (length bl <? 2))%nat then false
  else includes al bl || includes bl al.

(** A card of the search page, as [page.evaluate] returns it, with the two
    properties that [checkRuStore] adds later; [None] is [null] for the
    rating, and an absent property for the two others. *)
Record Competitor := {
  name : jsstring;
  category : jsstring;
  rating : option R;
  url : jsstring;
  relevance : option R;
  relevant : option bool
}.

Definition calculateRelevance (competitor : Competitor)
  (searchQuery cleanedTitle : jsstring) : R :=
  let jaccardQuery := wordJaccard (name competitor) searchQuery in
  let jaccardOriginal := wordJaccard (name competitor) cleanedTitle in
  let bestJaccard := Rmax jaccardQuery jaccardOriginal in
  let score := bestJaccard * 0.6 in
  let score :=
    if substringMatch (name competitor) searchQuery
       || substringMatch (name competitor) cleanedTitle
    then score + 0.3 else score in
  let score :=
    match rating competitor with
    | Some _ => score + 0.1
    | None => score
    end in
  Rmin 1 score.

(** [relevance >= RELEVANCE_THRESHOLD] *)
Definition accept (relevance : R) : bool :=
  if Rle_dec RELEVANCE_THRESHOLD relevance then true else false.

(** The relevance as the specification words it. *)
Module Relevance.

Definition word_set (a : jsstring) : list jsstring :=
  nodup (list_eq_dec N.eq_dec) (tokens a).

Definition member (w : jsstring) (s : list jsstring) : bool :=
  if in_dec (list_eq_dec N.eq_dec) w s then true else false.

(** |A ∩ B| / |A ∪ B|, and 0 when A or B is empty. *)
Definition jaccard (a b : jsstring) : R :=
  let A := word_set a in
  let B := word_set b in
  match A, B with
  | [], _ | _, [] => 0
  | _, _ =>
      INR (length (filter (fun w => member w B) A))
      / INR (length (nodup (list_eq_dec N.eq_dec) (A ++ B)))
  end.

Definition substring_of (x y : jsstring) : Prop :=
  exists before after, y = before ++ x ++ after.

(** [w] is a word of [s]: a run of code units that are no white space,
    one at least, with white space or an end of the string on each side
    of it. *)
Definition word_of (w s : jsstring) : Prop :=
  w <> []
  /\ Forall (fun c => is_space c = false) w
  /\ exists before after,
       s = before ++ w ++ after
       /\ (before = [] \/ exists b c, before = b ++ [c] /\ is_space c = true)
       /\ (after = [] \/ exists c a, after = c :: a /\ is_space c = true).

(** The two strings, lower-cased and trimmed, have two code units at
    least and one lies inside the other. *)
Definition overlap (a b : jsstring) : Prop :=
  let al := trim (toLowerCase a) in
  let bl := trim (toLowerCase b) in
  (2 <= length al)%nat /\ (2 <= length bl)%nat
  /\ (substring_of bl al \/ substring_of al bl).

End Relevance.

Local Close Scope R_scope.

(* ===================================================================== *)
(** ** Collaborators of checkRuStore                                       *)
(* ===================================================================== *)

(** What awaiting a call of [withRetry] gives. *)
Inductive retried (A : Type) :=
| Resolved (a : A)   (* the value of an attempt that succeeded *)
| Rejected           (* the error of the last attempt is thrown *)
| NoAttempt.         (* the loop ends without a [return]: [undefined] *)

Arguments Resolved {A} a.
Arguments Rejected {A}.
Arguments NoAttempt {A}.

(** [withRetry(fn, { maxRetries })]: the loop from [attempt] on, with
    [remaining] attempts to go, so that [withRetry fn 1 maxRetries] is
    the call; [fn k] is the outcome of attempt [k], [None] when it
    throws.  A failure of the last attempt ([attempt === maxRetries]) is
    thrown again; a loop that makes no attempt falls through.  The delays
    are not modelled. *)
Fixpoint withRetry {A : Type} (fn : nat -> option A)
  (attempt remaining : nat) : retried A :=
  match remaining with
  | O => NoAttempt
  | S k =>
      match fn attempt with
      | Some a => Resolved a
      | None =>
          match k with
          | O => Rejected
          | S _ => withRetry fn (S attempt) k
          end
      end
  end.

(** [/[а-яё]/i.test(text)]: with the [i] flag a code unit matches when its
    upper-case form is that of a letter of the class. *)
Definition is_cyrillic (c : codeunit) : bool :=
  between 0x430 0x44F c || (c =? 0x451)%N
  || between 0x410 0x42F c || (c =? 0x401)%N
  || between 0x1C80 0x1C86 c.

Definition cache_t := list (jsstring * jsstring).

Fixpoint cache_get (text : jsstring) (cache : cache_t) : option jsstring :=
  match cache with
  | [] => None
  | (k, v) :: rest => if str_eqb text k then Some v else cache_get text rest
  end.

(** [translateToRussian] with the [translationCache] it reads and
    writes; [service k text] is the answer of the translation service at
    attempt [k], [None] for any failure. *)
Definition translateToRussian (service : nat -> jsstring -> option jsstring)
  (translationCache : cache_t) (text : jsstring) : cache_t * jsstring :=
  if existsb is_cyrillic text then (translationCache, text)
  else
    match cache_get text translationCache with
    | Some cached => (translationCache, cached)
    | None =>
        match withRetry (fun k => service k text) 1 3 with
        | Resolved ((_ :: _) as translated) =>
            if negb (str_eqb (toLowerCase translated) (toLowerCase text))
            then (translationCache ++ [(text, translated)], translated)
            else (translationCache, text)
        | _ => (translationCache, text)
        end
    end.

(** [encodeURIComponent]: the UTF-8 bytes of every code point outside the
    unreserved set, each as a percent sign and two hexadecimal digits; a
    lone surrogate throws. *)
Definition is_unreserved (c : codeunit) : bool :=
  is_alpha c || is_digit c
  || existsb (N.eqb c) [45; 95; 46; 33; 126; 42; 39; 40; 41]%N.

Definition hex_digit (n : N) : codeunit :=
  if (n <? 10)%N then (48 + n)%N else (55 + n)%N.

Definition percent (byte : N) : jsstring :=
  [37%N; hex_digit (byte / 16); hex_digit (byte mod 16)].

Definition utf8 (cp : N) : list N :=
  (if cp <? 0x80 then [cp]
   else if cp <? 0x800 then [0xC0 + cp / 64; 0x80 + cp mod 64]
   else if cp <? 0x10000
        then [0xE0 + cp / 4096; 0x80 + (cp / 64) mod 64; 0x80 + cp mod 64]
   else [0xF0 + cp / 262144; 0x80 + (cp / 4096) mod 64;
         0x80 + (cp / 64) mod 64; 0x80 + cp mod 64])%N.

Definition prepend (a : jsstring) (r : outcome jsstring) : outcome jsstring :=
  match r with
  | Return s => Return (a ++ s)
  | Throw e => Throw e
  end.

Fixpoint encodeURIComponent (s : jsstring) : outcome jsstring :=
  match s with
  | [] => Return []
  | c :: r =>
      if is_unreserved c then prepend [c] (encodeURIComponent r)
      else if between 0xDC00 0xDFFF c then Throw URIError
      else if between 0xD800 0xDBFF c then
        match r with
        | d :: r' =>
            if between 0xDC00 0xDFFF d
            then prepend
                   (flat_map percent
                      (utf8 (0x10000 + (c - 0xD800) * 1024 + (d - 0xDC00))))
                   (encodeURIComponent r')
            else Throw URIError
        | [] => Throw URIError
        end
      else prepend (flat_map percent (utf8 c)) (encodeURIComponent r)
  end.

(** A card as [page.evaluate] builds it: [{ name, category, rating, url }]. *)
Module Card.
Record t := {
  name : jsstring;
  category : jsstring;
  rating : option R;
  url : jsstring
}.
End Card.

(** What the outside world does during one call of [checkRuStore]. *)
Record World := {
  service : nat -> jsstring -> option jsstring;  (* translation service *)
  context_opens : bool;        (* getRuStoreContext() and newPage() *)
  goto_succeeds : nat -> bool; (* page.goto at each attempt *)
  cards_appear : bool;         (* waitForSelector within its timeout *)
  extracted : option (list Card.t); (* page.evaluate, None when it throws *)
  page_closes : bool           (* page.close() in the finally block *)
}.

(** The [try] block of [checkRuStore]: either the early return of the
    branch without cards, or the array [competitors], which is empty when
    the navigation or the extraction throws. *)
Inductive fetch_result :=
| NoCards
| Fetched (cards : list Card.t).

Definition fetch (w : World) : fetch_result :=
  match withRetry (fun k => if goto_succeeds w k then Some tt else None) 1 3
  with
  | Rejected => Fetched []
  | _ =>
      if cards_appear w then
        match extracted w with
        | Some cards => Fetched cards
        | None => Fetched []
        end
      else NoCards
  end.

(* ===================================================================== *)
(** ** checkRuStore                                                        *)
(* ===================================================================== *)

Local Open Scope R_scope.

(** The competitor objects live in a store; the arrays [competitors],
    [relevant] and [topCompetitors] hold references to them. *)
Definition loc := nat.
Definition heap := list Competitor.

Fixpoint update (h : heap) (l : loc) (o : Competitor) : heap :=
  match h, l with
  | [], _ => []
  | _ :: t, O => o :: t
  | x :: t, S k => x :: update t k o
  end.

(** The object literal [{ name, category: cat, rating, url }]. *)
Definition new_competitor (card : Card.t) : Competitor :=
  {| name := Card.name card; category := Card.category card;
     rating := Card.rating card; url := Card.url card;
     relevance := None; relevant := None |}.

(** [c.relevance = v] and [c.relevant = v]. *)
Definition set_relevance (c : Competitor) (v : R) : Competitor :=
  {| name := name c; category := category c; rating := rating c;
     url := url c; relevance := Some v; relevant := relevant c |}.

Definition set_relevant (c : Competitor) (v : bool) : Competitor :=
  {| name := name c; category := category c; rating := rating c;
     url := url c; relevance := relevance c; relevant := Some v |}.

(** The body of the loop [for (const c of competitors)], on the object
    that [c] refers to. *)
Definition score_one (searchQuery cleaned : jsstring) (c : Competitor)
  : Competitor :=
  let c := set_relevance c (calculateRelevance c searchQuery cleaned) in
  match relevance c with
  | Some r => set_relevant c (accept r)
  | None => c
  end.

Fixpoint score_all (competitors : list loc) (searchQuery cleaned : jsstring)
  (h : heap) : heap :=
  match competitors with
  | [] => h
  | c :: rest =>
      let h :=
        match nth_error h c with
        | Some o => update h c (score_one searchQuery cleaned o)
        | None => h
        end in
      score_all rest searchQuery cleaned h
  end.

Definition is_relevant (h : heap) (c : loc) : bool :=
  match nth_error h c with
  | Some o => match relevant o with Some true => true | _ => false end
  | None => false
  end.

Definition rating_of (h : heap) (c : loc) : option R :=
  match nth_error h c with
  | Some o => rating o
  | None => None
  end.

(** [relevant.filter(c => c.rating !== null).map(c => c.rating)] *)
Fixpoint ratings (h : heap) (cs : list loc) : list R :=
  match cs with
  | [] => []
  | c :: rest =>
      match rating_of h c with
      | Some r => r :: ratings h rest
      | None => ratings h rest
      end
  end.

(** [b.rating || 0] *)
Definition rating_or_0 (h : heap) (c : loc) : R :=
  match rating_of h c with
  | Some r => r
  | None => 0
  end.

(** [[...relevant].sort((a, b) => (b.rating || 0) - (a.rating || 0))]:
    the sort is stable, so an element goes before the elements after it
    that do not rate higher. *)
Fixpoint insert_by_rating (h : heap) (a : loc) (sorted : list loc)
  : list loc :=
  match sorted with
  | [] => [a]
  | b :: rest =>
      if Rle_dec (rating_or_0 h b) (rating_or_0 h a) then a :: sorted
      else b :: insert_by_rating h a rest
  end.

Definition sort_by_rating (h : heap) (cs : list loc) : list loc :=
  fold_right (insert_by_rating h) [] cs.

(** [gpRating || 0] and [installs || 'N/A']; [None] is an argument left
    out. *)
Definition or_0 (gpRating : option R) : R :=
  match gpRating with
  | Some g => g
  | None => 0
  end.

Definition or_NA (installs : option installs_t) : installs_t :=
  match installs with
  | None | Some (InstallsStr []) => InstallsStr (lit "N/A")
  | Some (InstallsNum n) =>
      if Req_dec_T n 0 then InstallsStr (lit "N/A") else InstallsNum n
  | Some i => i
  end.

Definition RUSTORE_SEARCH_URL : jsstring :=
  lit "https://www.rustore.ru/catalog/search?query=".

Module Report.
Record t := {
  searchQuery : jsstring;
  searchUrl : jsstring;
  competitorsCount : nat;
  topCompetitors : list loc;
  avgRating : option R;
  maxRating : option R;
  opportunityScore : Z
}.
End Report.

(** Steps 5 to 8: scoring and filtering of the fetched competitors, the
    statistics, the top five and the score.  The result is the report and
    the store in its final state. *)
Definition assess (searchQuery searchUrl cleaned : jsstring)
  (gpRating : option R) (installs : option installs_t)
  (cards : list Card.t) : Report.t * heap :=
  let h := map new_competitor cards in
  let competitors := seq 0 (length cards) in
  let h := score_all competitors searchQuery cleaned h in
  let relevant := filter (is_relevant h) competitors in
  let competitorsCount := length relevant in
  let ratingsOnly := ratings h relevant in
  let avgRating :=
    match ratingsOnly with
    | [] => None
    | _ =>
        Some (IZR (Math_round
                     (fold_left Rplus ratingsOnly 0
                      / INR (length ratingsOnly) * 10)) / 10)
    end in
  let maxRating :=
    match ratingsOnly with
    | [] => None
    | r :: rs => Some (fold_left Rmax rs r)
    end in
  let topCompetitors := firstn 5 (sort_by_rating h relevant) in
  let opportunityScore :=
    calculateOpportunityScore
      {| competitorsCount := INR competitorsCount;
         avgRating := avgRating;
         maxRating := maxRating;
         gpRating := or_0 gpRating;
         installs := or_NA installs |} in
  ({| Report.searchQuery := searchQuery;
      Report.searchUrl := searchUrl;
      Report.competitorsCount := competitorsCount;
      Report.topCompetitors := topCompetitors;
      Report.avgRating := avgRating;
      Report.maxRating := maxRating;
      Report.opportunityScore := opportunityScore |}, h).

(** The early return of the branch without cards. *)
Definition no_cards_report (searchQuery searchUrl : jsstring)
  (gpRating : option R) (installs : option installs_t) : Report.t :=
  let score :=
    calculateOpportunityScore
      {| competitorsCount := 0;
         avgRating := None;
         maxRating := None;
         gpRating := or_0 gpRating;
         installs := or_NA installs |} in
  {| Report.searchQuery := searchQuery;
     Report.searchUrl := searchUrl;
     Report.competitorsCount := 0;
     Report.topCompetitors := [];
     Report.avgRating := None;
     Report.maxRating := None;
     Report.opportunityScore := score |}.

(** Step 3: only a descriptive title is translated. *)
Definition search_query (w : World) (translationCache : cache_t)
  (classification : Classification) (cleaned : jsstring)
  : cache_t * jsstring :=
  match type classification with
  | descriptive => translateToRussian (service w) translationCache cleaned
  | _ => (translationCache, cleaned)
  end.

(** A world where the search page shows no card. *)
Definition empty_store : World :=
  {| service := fun _ _ => None;
     context_opens := true;
     goto_succeeds := fun _ => true;
     cards_appear := false;
     extracted := None;
     page_closes := true |}.

(** A world where the search page shows two cards. *)
Definition two_cards : World :=
  {| service := fun _ _ => None;
     context_opens := true;
     goto_succeeds := fun _ => true;
     cards_appear := true;
     extracted :=
       Some [ {| Card.name := lit "WhatsApp Messenger";
                 Card.category := lit "Social";
                 Card.rating := Some 4.5;
                 Card.url := lit "https://www.rustore.ru/catalog/app/a" |};
              {| Card.name := lit "Solitaire";
                 Card.category := lit "Games";
                 Card.rating := None;
                 Card.url := lit "https://www.rustore.ru/catalog/app/b" |} ];
     page_closes := true |}.

(** The arguments and the first results of a sample run on [two_cards]. *)
Definition sample_title : jsstring := lit "WhatsApp Messenger".
Definition sample_category : jsstring := lit "Communication".
Definition sample_installs : option installs_t :=
  Some (InstallsStr (lit "10M+")).
Definition sample_url : jsstring :=
  RUSTORE_SEARCH_URL ++ lit "WhatsApp%20Messenger".
Definition sample_cards : list Card.t :=
  match extracted two_cards with
  | Some cards => cards
  | None => []
  end.

(** Four cards with a rating each, all named after the sample title. *)
Definition rated_cards : list Card.t :=
  [ {| Card.name := lit "WhatsApp Messenger";
       Card.category := lit "Social";
       Card.rating := Some 3;
       Card.url := lit "https://www.rustore.ru/catalog/app/a" |};
    {| Card.name := lit "WhatsApp Business";
       Card.category := lit "Social";
       Card.rating := Some 3.1;
       Card.url := lit "https://www.rustore.ru/catalog/app/b" |};
    {| Card.name := lit "Messenger Lite";
       Card.category := lit "Social";
       Card.rating := Some 3.8;
       Card.url := lit "https://www.rustore.ru/catalog/app/c" |};
    {| Card.name := lit "WhatsApp Messenger Stickers";
       Card.category := lit "Social";
       Card.rating := Some 3.1;
       Card.url := lit "https://www.rustore.ru/catalog/app/d" |} ].

(** [checkRuStore] threads the translation cache and returns, when it
    does not throw, the report and the store of competitor objects.  The
    [finally] block closes the page after the early return as well as on
    the normal path, and when [page.close()] rejects, its exception
    replaces the result. *)
Definition checkRuStore (w : World) (translationCache : cache_t)
  (title category : jsstring) (gpRating : option R)
  (installs : option installs_t)
  : cache_t * outcome (Report.t * heap) :=
  let classification := classifyTitle title in
  match cleanSearchQuery title category with
  | Throw e => (translationCache, Throw e)
  | Return cleaned =>
      let '(translationCache, searchQuery) :=
        search_query w translationCache classification cleaned in
      match encodeURIComponent searchQuery with
      | Throw e => (translationCache, Throw e)
      | Return encoded =>
          let searchUrl := RUSTORE_SEARCH_URL ++ encoded in
          if context_opens w then
            if page_closes w then
              match fetch w with
              | NoCards =>
                  (translationCache,
                   Return (no_cards_report searchQuery searchUrl
                             gpRating installs, []))
              | Fetched cards =>
                  (translationCache,
                   Return (assess searchQuery searchUrl cleaned
                             gpRating installs cards))
              end
            else (translationCache, Throw BrowserError)
          else (translationCache, Throw BrowserError)
      end
  end.

Local Close Scope R_scope.

(* ===================================================================== *)
(** ** Predicates used by the further properties                           *)
(* ===================================================================== *)

(** The value of the first attempt that succeeds among [remaining]
    attempts from [attempt] on. *)
Fixpoint first_success {A : Type} (fn : nat -> option A)
  (attempt remaining : nat) : option A :=
  match remaining with
  | O => None
  | S k =>
      match fn attempt with
      | Some a => Some a
      | None => first_success fn (S attempt) k
      end
  end.

(** What [translateToRussian] keeps true of [translationCache]: one entry
    per text, no text with a Cyrillic letter, and no translation that is
    empty or equal to its text up to case. *)
Definition cache_ok (cache : cache_t) : Prop :=
  NoDup (map fst cache)
  /\ Forall (fun kv =>
               existsb is_cyrillic (fst kv) = false
               /\ snd kv <> []
               /\ toLowerCase (snd kv) <> toLowerCase (fst kv)) cache.

(** A word written with letters only, upper case allowed in front. *)
Definition plain_word (w : jsstring) : bool :=
  match w with
  | [] => true
  | c :: r => is_alpha c && forallb is_lower r
  end.

(** The words of a title as [classifyTitle] and [cleanSearchQuery] read
    them: split on white space, stripped of punctuation, the empty ones
    dropped. *)
Definition clean_words (title : jsstring) : list jsstring :=
  filter (fun w => match w with [] => false | _ => true end)
         (map (strip punct_full) (split_ws (trim title))).

(** An other word that counts: no universal filler, two code units at
    least, both in lower case. *)
Definition meaningful (w : jsstring) : bool :=
  negb (set_has (toLowerCase w) UNIVERSAL_FILLER)
  && (2 <=? length (toLowerCase w)).

Definition not_space (c : codeunit) : bool := negb (is_space c).

(** The relevance of a card and whether it passes the threshold, as the
    loop of [checkRuStore] computes them on the object of the card. *)
Definition card_relevance (searchQuery cleaned : jsstring) (card : Card.t)
  : R :=
  calculateRelevance (new_competitor card) searchQuery cleaned.

Definition card_accepted (searchQuery cleaned : jsstring) (card : Card.t)
  : bool :=
  accept (card_relevance searchQuery cleaned card).

(** The ratings that the cards carry, in their order. *)
Definition card_ratings (cards : list Card.t) : list R :=
  flat_map (fun card => match Card.rating card with
                        | Some r => [r]
                        | None => []
                        end) cards.

(** [a] stands before [b] in the ranking: it rates higher, a missing
    rating counting as 0, or it rates the same and came first on the
    page. *)
Definition ranked_before (h : heap) (a b : loc) : Prop :=
  (rating_or_0 h b < rating_or_0 h a)%R
  \/ (rating_or_0 h a = rating_or_0 h b /\ a < b).

(** The cards that the [try] block leaves in [competitors]. *)
Definition candidates (w : World) : list Card.t :=
  match fetch w with
  | NoCards => []
  | Fetched cards => cards
  end.

Definition sum (rs : list R) : R := fold_right Rplus 0%R rs.

(** A world where the search page shows one card, rated but unrelated to
    the sample title. *)
Definition unrelated_store : World :=
  {| service := fun _ _ => None;
     context_opens := true;
     goto_succeeds := fun _ => true;
     cards_appear := true;
     extracted :=
       Some [ {| Card.name := lit "Solitaire";
                 Card.category := lit "Games";
                 Card.rating := Some 4.8%R;
                 Card.url := lit "https://www.rustore.ru/catalog/app/b" |} ];
     page_closes := true |}.

(* ===================================================================== *)
(** ** scrapeAppBrain                                                      *)
(* ===================================================================== *)

(** The global functions [parseInt] and [parseFloat] on any string.
    Numbers are exact: the rounding of a literal to a double is not
    modelled. *)
Module Global.

Inductive number :=
| NotANumber
| Infinite (negative : bool)
| Finite (x : R).

(** A sign at the head of the string, and the string without it. *)
Definition signed (s : jsstring) : bool * jsstring :=
  match s with
  | 45%N :: r => (true, r)
  | 43%N :: r => (false, r)
  | _ => (false, s)
  end.

(** The value of a digit in a radix up to 16. *)
Definition digit_in (radix : Z) (c : codeunit) : option Z :=
  let v := if is_digit c then Some (Z.of_N (c - 48))
           else if between 97 102 c then Some (Z.of_N (c - 87))
           else if between 65 70 c then Some (Z.of_N (c - 55))
           else None in
  match v with
  | Some d => if (d <? radix)%Z then Some d else None
  | None => None
  end.

Definition is_digit_in (radix : Z) (c : codeunit) : bool :=
  match digit_in radix c with Some _ => true | None => false end.

Definition value_in (radix : Z) (ds : jsstring) : Z :=
  fold_left (fun acc c =>
               (radix * acc
                + match digit_in radix c with Some d => d | None => 0 end)%Z)
            ds 0%Z.

(** [parseInt(string)], without a radix: white space is skipped, then a
    sign, then [0x] or [0X] selects radix 16, and the digits up to the
    first code unit that is none are read; [None] is [NaN]. *)
Definition parseInt (string : jsstring) : option Z :=
  let '(negative, s) := signed (trimStart string) in
  let '(radix, s) :=
    match s with
    | 48%N :: x :: r =>
        if (x =? 120)%N || (x =? 88)%N then (16%Z, r) else (10%Z, s)
    | _ => (10%Z, s)
    end in
  match fst (span (is_digit_in radix) s) with
  | [] => None
  | ds => Some (if negative then (- value_in radix ds)%Z
                else value_in radix ds)
  end.

(** The exponent part at the head of [r], which is there only when a
    digit follows the [e] and its sign. *)
Definition exponent (r : jsstring) : Z :=
  match r with
  | c :: r' =>
      if (c =? 101)%N || (c =? 69)%N then
        let '(negative, r'') := signed r' in
        match fst (span is_digit r'') with
        | [] => 0%Z
        | ds => if negative then (- digits_value ds)%Z else digits_value ds
        end
      else 0%Z
  | [] => 0%Z
  end.

(** [parseFloat(string)]: white space is skipped and the longest prefix
    that is a decimal literal is read: a sign, then [Infinity] or digits
    with at most one dot, one digit at least, and an exponent part. *)
Definition parseFloat (string : jsstring) : number :=
  let '(negative, s) := signed (trimStart string) in
  if is_prefix (lit "Infinity") s then Infinite negative
  else
    let '(ip, r) := span is_digit s in
    let '(fp, r) := match r with
                    | 46%N :: r' => span is_digit r'
                    | _ => ([], r)
                    end in
    match ip ++ fp with
    | [] => NotANumber
    | ds =>
        let x := (IZR (digits_value ds)
                  * powerRZ 10 (exponent r - Z.of_nat (length fp)))%R in
        Finite (if negative then (- x)%R else x)
    end.

End Global.

(** What the page shows of a table: of a link its text and its [href]
    attribute, of a cell its text and its first link, of a row its
    cells. *)
Module Dom.

Record link := {
  linkText : jsstring;
  href : option jsstring
}.

Record cell := {
  textContent : jsstring;
  querySelector_a : option link
}.

Definition row := list cell.

End Dom.

(** An entry of the result of [scrapeAppBrain]. *)
Module App.

Record t := {
  rank : Z;
  title : jsstring;
  category : jsstring;
  gp_rating : Global.number;
  installs : jsstring;
  recent : jsstring;
  gp_url : jsstring
}.

End App.

(** [s || d] on strings. *)
Definition or_else (s d : jsstring) : jsstring :=
  match s with
  | [] => d
  | _ => s
  end.

(** [cells[k] ? cells[k].textContent.trim() : d]. *)
Definition cell_text (cells : Dom.row) (k : nat) (d : jsstring) : jsstring :=
  match nth_error cells k with
  | Some c => trim (Dom.textContent c)
  | None => d
  end.

(** The body of the callback of [rows.forEach]: what row [i] does to
    [results]. *)
Definition visit_row (results : list App.t) (i : nat) (cells : Dom.row)
  : list App.t :=
  if (i =? 0)%nat then results
  else if (7 <=? length cells)%nat then
    let rank :=
      match Global.parseInt (cell_text cells 0 []) with
      | Some n => n
      | None => 0%Z
      end in
    let titleLink :=
      match nth_error cells 3 with
      | Some c => Dom.querySelector_a c
      | None => None
      end in
    match titleLink with
    | None => results
    | Some titleLink =>
        let title := trim (Dom.linkText titleLink) in
        let href := match Dom.href titleLink with
                    | Some h => h
                    | None => []
                    end in
        let gp_url :=
          if is_prefix (lit "http") href then href
          else lit "https://www.appbrain.com" ++ href in
        let category := cell_text cells 4 [] in
        let gp_rating :=
          match Global.parseFloat (cell_text cells 5 (lit "0")) with
          | Global.NotANumber => Global.Finite 0
          | n => n
          end in
        let installs := cell_text cells 6 (lit "N/A") in
        let recent := cell_text cells 7 (lit "N/A") in
        if negb (length title =? 0)%nat
           && negb (str_eqb title (lit "N/A"))
           && (0 <? rank)%Z
        then
          results
          ++ [ {| App.rank := rank;
                  App.title := title;
                  App.category := or_else category (lit "General");
                  App.gp_rating := gp_rating;
                  App.installs := or_else installs (lit "N/A");
                  App.recent := or_else recent (lit "N/A");
                  App.gp_url := gp_url |} ]
        else results
    end
  else results.

(** [rows.forEach((row, i) => ...)], from index [i] on. *)
Fixpoint forEach (rows : list Dom.row) (i : nat) (results : list App.t)
  : list App.t :=
  match rows with
  | [] => results
  | row :: rest => forEach rest (S i) (visit_row results i row)
  end.

(** The function that [page.evaluate] runs in the page, on the rows that
    [document.querySelectorAll('tr')] gives. *)
Definition evaluate (rows : list Dom.row) : list App.t :=
  forEach rows 0 [].

(** What the browser and the site do during one call of
    [scrapeAppBrain]. *)
Record Site := {
  page_opens : bool;          (* getBrowser(), newContext() and newPage() *)
  navigation : nat -> bool;   (* page.goto at each attempt *)
  table_appears : bool;       (* waitForSelector('tr td') *)
  document_rows : option (list Dom.row);  (* None when evaluate throws *)
  context_closes : bool       (* context.close() in the finally block *)
}.

(** The [try] block with its [catch], then the [finally] block, whose
    exception replaces the result. *)
Definition scrapeAppBrain (w : Site) : outcome (list App.t) :=
  if page_opens w then
    let result :=
      match withRetry (fun k => if navigation w k then Some tt else None) 1 3
      with
      | Rejected => []
      | _ =>
          if table_appears w then
            match document_rows w with
            | Some rows => firstn 100 (evaluate rows)
            | None => []
            end
          else []
      end in
    if context_closes w then Return result else Throw BrowserError
  else Throw BrowserError.

(** An entry as the filter of the callback lets it through. *)
Definition well_formed (app : App.t) : Prop :=
  (0 < App.rank app)%Z
  /\ App.title app <> []
  /\ App.title app <> lit "N/A"
  /\ trim (App.title app) = App.title app
  /\ App.category app <> []
  /\ App.installs app <> []
  /\ App.recent app <> []
  /\ is_prefix (lit "http") (App.gp_url app) = true
  /\ App.gp_rating app <> Global.NotANumber.

(** The entries that one row of the body of the table gives. *)
Definition row_apps (cells : Dom.row) : list App.t := visit_row [] 1 cells.

(** A page of the site: a header, a row that is complete, a row whose
    title is no link, and a row of too few cells. *)
Definition text_cell (s : jsstring) : Dom.cell :=
  {| Dom.textContent := s; Dom.querySelector_a := None |}.

Definition sample_rows : list Dom.row :=
  [ [ text_cell (lit "Rank"); text_cell (lit "App") ];
    [ text_cell (lit " 1 "); text_cell []; text_cell [];
      {| Dom.textContent := lit "WhatsApp Messenger";
         Dom.querySelector_a :=
           Some {| Dom.linkText := lit " WhatsApp Messenger ";
                   Dom.href := Some (lit "/app/whatsapp") |} |};
      text_cell (lit "Communication"); text_cell (lit "4.2");
      text_cell (lit "10M+") ];
    [ text_cell (lit "2"); text_cell []; text_cell [];
      text_cell (lit "Solitaire"); text_cell (lit "Games");
      text_cell (lit "4.8"); text_cell (lit "1M+"); text_cell (lit "5%") ];
    [ text_cell (lit "3"); text_cell (lit "Chess") ] ].

Definition sample_site : Site :=
  {| page_opens := true;
     navigation := fun k => (k =? 2)%nat;
     table_appears := true;
     document_rows := Some sample_rows;
     context_closes := true |}.

(** A site that cannot be reached. *)
Definition unreachable_site : Site :=
  {| page_opens := true;
     navigation := fun _ => false;
     table_appears := true;
     document_rows := Some sample_rows;
     context_closes := true |}.

(** The first three patterns of [isBrandToken]: a small letter before a
    capital, capitals only and two at least, a letter and a digit. *)
Definition brand_pattern (w : jsstring) : bool :=
  has_camel w || all_caps w || (existsb is_alpha w && existsb is_digit w).

(* ===================================================================== *)
(** ** Numbers as the engine has them: IEEE 754 binary64                  *)
(* ===================================================================== *)

(** The Number type of ECMAScript: the doubles of IEEE 754 with one NaN,
    rounding to nearest with ties to even.  The operations are those of
    [SpecFloat], at precision 53 and with exponents up to 1024. *)
Module Binary64.

Definition prec : Z := 53.
Definition emax : Z := 1024.

(** A zero or an infinity with its sign, NaN, or
    [(-1)^s * m * 2^e]. *)
Definition double : Type := spec_float.

Definition NaN : double := S754_nan.
Definition zero : double := S754_zero false.
Definition infinity : double := S754_infinity false.

Definition add (x y : double) : double := SFadd prec emax x y.
Definition sub (x y : double) : double := SFsub prec emax x y.
Definition mul (x y : double) : double := SFmul prec emax x y.
Definition div (x y : double) : double := SFdiv prec emax x y.

(** The value of an integer, rounded when it has more than 53 bits. *)
Definition of_Z (n : Z) : double := binary_normalize prec emax n 0 false.

Definition of_nat (n : nat) : double := of_Z (Z.of_nat n).

Definition one : double := of_Z 1.

(** The decimal literal [m * 10^-k] for [0 <= m], rounded once: the
    quotient of the two integers. *)
Definition decimal (m : Z) (k : nat) : double :=
  match m with
  | Zpos p =>
      SFdiv prec emax (S754_finite false p 0)
        (S754_finite false (Z.to_pos (10 ^ Z.of_nat k)) 0)
  | _ => zero
  end.

(** [x < y] and [x <= y], false when one side is NaN; [x > y] is
    [lt y x] and [x >= y] is [le y x]. *)
Definition lt (x y : double) : bool := SFltb x y.
Definition le (x y : double) : bool := SFleb x y.

(** [Math.max] and [Math.min] of two numbers: NaN when one is NaN, and
    -0 counts as smaller than +0. *)
Definition Math_max (x y : double) : double :=
  match x, y with
  | S754_nan, _ | _, S754_nan => S754_nan
  | S754_zero sx, S754_zero sy => S754_zero (sx && sy)
  | _, _ => if lt x y then y else x
  end.

Definition Math_min (x y : double) : double :=
  match x, y with
  | S754_nan, _ | _, S754_nan => S754_nan
  | S754_zero sx, S754_zero sy => S754_zero (sx || sy)
  | _, _ => if lt y x then y else x
  end.

(** [Math.round]: the integer nearest to [x], the greater one in a tie;
    a zero keeps the sign of [x]; NaN, the infinities and the integers
    are returned as they are. *)
Definition Math_round (x : double) : double :=
  match x with
  | S754_finite s m e =>
      if (0 <=? e)%Z then x
      else
        let d := (2 ^ (- e))%Z in
        let n := ((2 * (if s then Z.neg m else Z.pos m) + d) / (2 * d))%Z in
        if (n =? 0)%Z then S754_zero s else of_Z n
  | _ => x
  end.

(** [Math.log10], which the language leaves to the implementation but
    for its special values: [approx] is what the engine computes on the
    finite positive numbers other than 1. *)
Definition Math_log10 (approx : double -> double) (x : double) : double :=
  match x with
  | S754_nan => S754_nan
  | S754_zero _ => S754_infinity true
  | S754_infinity false => x
  | S754_infinity true => S754_nan
  | S754_finite true _ _ => S754_nan
  | S754_finite false _ _ =>
      match SFcompare x one with
      | Some Eq => zero
      | _ => approx x
      end
  end.

(** [x || 0] on a number: 0 for the zeros and NaN. *)
Definition or_zero (x : double) : double :=
  match x with
  | S754_zero _ | S754_nan => zero
  | _ => x
  end.

(** The sign bit is clear and the number is not NaN. *)
Definition positive_sign (x : double) : bool :=
  match x with
  | S754_zero s | S754_infinity s | S754_finite s _ _ => negb s
  | S754_nan => false
  end.

(** [y] has the exponent of [x] and a mantissa at most [k] away: for
    two numbers of one binade, [y] is within [k] units in the last
    place of [x]. *)
Definition near (k : Z) (x y : double) : bool :=
  match x, y with
  | S754_finite sx mx ex, S754_finite sy my ey =>
      Bool.eqb sx sy && (ex =? ey)%Z
      && (Z.abs (Z.pos mx - Z.pos my) <=? k)%Z
  | _, _ => false
  end.

End Binary64.

(* ===================================================================== *)
(** ** The numeric functions over binary64                                 *)
(* ===================================================================== *)

(** [parseInstalls], [calculateOpportunityScore], [wordJaccard] and
    [calculateRelevance] once more, with the numbers of the engine: the
    same control flow as above, each arithmetic operation rounded. *)
Module Double.

Import Binary64.

(** [parseFloat] on a string of digits and dots: the longest decimal
    literal at its head, rounded to the nearest double. *)
Definition parseFloat (s : jsstring) : double :=
  match decimal_prefix s with
  | None => NaN
  | Some (m, k) => decimal m k
  end.

(** [multipliers[suffix] || 1] *)
Definition multiplier (suffix : jsstring) : double :=
  match suffix with
  | [75%N] => of_Z 1000
  | [77%N] => of_Z 1000000
  | [66%N] => of_Z 1000000000
  | [84%N] => of_Z 1000000000000
  | _ => of_Z 1
  end.

Definition parseInstalls (installsStr : jsstring) : double :=
  match installsStr with
  | [] => zero
  | _ =>
      if str_eqb installsStr (lit "N/A") then zero
      else
        let str := toUpperCase (trim (strip is_plus_or_comma installsStr)) in
        match installs_match str with
        | None => zero
        | Some (digits, suffix) =>
            let num := parseFloat digits in
            mul num (multiplier suffix)
        end
  end.

(** The [installs] field is a string or a number. *)
Inductive installs_t :=
| InstallsStr (s : jsstring)
| InstallsNum (n : double).

(** The argument of [calculateOpportunityScore]; [None] is [null]. *)
Record Stats := {
  competitorsCount : double;
  avgRating : option double;
  maxRating : option double;
  gpRating : double;
  installs : installs_t
}.

(** [typeof installs === 'string' ? parseInstalls(installs)
                                  : (installs || 0)] *)
Definition installsNum_of (i : installs_t) : double :=
  match i with
  | InstallsStr s => parseInstalls s
  | InstallsNum n => or_zero n
  end.

Section Score.

(** What the engine computes for [Math.log10] on finite positive
    numbers. *)
Variable log10 : double -> double.

Definition calculateOpportunityScore (s : Stats) : double :=
  let f1 := Math_max zero (sub one (div (competitorsCount s) (of_Z 20))) in
  let f2 := match avgRating s with
            | None => decimal 7 1
            | Some a =>
                Math_max zero (sub one (div (sub a (of_Z 2)) (of_Z 3)))
            end in
  let installsNum := installsNum_of (installs s) in
  let f3 := if lt zero installsNum
            then Math_min one
                   (div (Math_log10 log10 (add installsNum one)) (of_Z 9))
            else zero in
  let f4 := Math_max zero
              (Math_min one (div (sub (gpRating s) (decimal 25 1)) (of_Z 2))) in
  let f5 := match maxRating s with
            | None => decimal 10 1
            | Some m =>
                Math_max zero (sub one (div (sub m (of_Z 2)) (of_Z 3)))
            end in
  let raw :=
    add (add (add (add (mul (decimal 30 2) f1) (mul (decimal 25 2) f2))
                  (mul (decimal 25 2) f3))
             (mul (decimal 10 2) f4))
        (mul (decimal 10 2) f5) in
  let score := Math_round (mul (of_Z 100) raw) in
  Math_max zero (Math_min (of_Z 100) score).

(** The score as the specification words it, in the same arithmetic. *)
Definition clamp (x lo hi : double) : double :=
  if le x lo then lo else if le hi x then hi else x.

Definition clamp01 (x : double) : double := clamp x zero one.

Definition F1 (competitorsCount : double) : double :=
  Math_max zero (sub one (div competitorsCount (of_Z 20))).

Definition F2 (avgRating : option double) : double :=
  match avgRating with
  | None => decimal 7 1
  | Some a => Math_max zero (sub one (div (sub a (of_Z 2)) (of_Z 3)))
  end.

(** 0 if the parsed installs are [<= 0], else
    [min(1, log10(installs + 1) / 9)]. *)
Definition F3 (parsedInstalls : double) : double :=
  if le parsedInstalls zero then zero
  else Math_min one
         (div (Math_log10 log10 (add parsedInstalls one)) (of_Z 9)).

(** [min(1, log10(installs + 1) / 9)] if the parsed installs are [> 0],
    else 0: what the code does, also when the parse gives NaN. *)
Definition F3_if_positive (parsedInstalls : double) : double :=
  if lt zero parsedInstalls
  then Math_min one
         (div (Math_log10 log10 (add parsedInstalls one)) (of_Z 9))
  else zero.

Definition F4 (gpRating : double) : double :=
  clamp01 (div (sub gpRating (decimal 25 1)) (of_Z 2)).

Definition F5 (maxRating : option double) : double :=
  match maxRating with
  | None => decimal 10 1
  | Some m => Math_max zero (sub one (div (sub m (of_Z 2)) (of_Z 3)))
  end.

Definition weighted (f1 f2 f3 f4 f5 : double) : double :=
  clamp
    (Math_round
       (mul (of_Z 100)
          (add (add (add (add (mul (decimal 30 2) f1) (mul (decimal 25 2) f2))
                         (mul (decimal 25 2) f3))
                    (mul (decimal 10 2) f4))
               (mul (decimal 10 2) f5))))
    zero (of_Z 100).

Definition score (c : double) (avg max : option double)
  (gp parsed : double) : double :=
  weighted (F1 c) (F2 avg) (F3 parsed) (F4 gp) (F5 max).

End Score.

(** Scenario 3 of the specification: no competitor at all. *)
Definition scenario3 : Stats :=
  {| competitorsCount := zero; avgRating := None; maxRating := None;
     gpRating := decimal 42 1; installs := InstallsStr (lit "10M+") |}.

(** The double nearest to the logarithm of 10000001, which is
    7.0000000434294460188...: 7881299396795577 * 2^-50, printed
    7.000000043429446. *)
Definition log10_10000001 : double :=
  S754_finite false 7881299396795577 (-50).

(** An approximation of the logarithm that is exact to the last place
    where the examples need it. *)
Definition sample_log10 (x : double) : double :=
  match SFcompare x (of_Z 10000001) with
  | Some Eq => log10_10000001
  | _ => NaN
  end.

(** Installs that read as NaN: the pattern lets a lone dot through. *)
Definition dot_installs : Stats :=
  {| competitorsCount := zero; avgRating := None; maxRating := None;
     gpRating := decimal 42 1; installs := InstallsStr (lit ".") |}.

Definition RELEVANCE_THRESHOLD : double := decimal 15 2.

Definition wordJaccard (a b : jsstring) : double :=
  let setA := set_of (tokens a) in
  let setB := set_of (tokens b) in
  if ((length setA =? 0) || (length setB =? 0))%nat then zero
  else
    let intersection :=
      fold_left (fun n w => if set_has w setB then S n else n) setA 0%nat in
    div (of_nat intersection) (of_nat (length (set_of (setA ++ setB)))).

(** A card of the search page, as [page.evaluate] returns it. *)
Record Competitor := {
  name : jsstring;
  category : jsstring;
  rating : option double;
  url : jsstring
}.

Definition calculateRelevance (competitor : Competitor)
  (searchQuery cleanedTitle : jsstring) : double :=
  let jaccardQuery := wordJaccard (name competitor) searchQuery in
  let jaccardOriginal := wordJaccard (name competitor) cleanedTitle in
  let bestJaccard := Math_max jaccardQuery jaccardOriginal in
  let score := mul bestJaccard (decimal 6 1) in
  let score :=
    if substringMatch (name competitor) searchQuery
       || substringMatch (name competitor) cleanedTitle
    then add score (decimal 3 1) else score in
  let score :=
    match rating competitor with
    | Some _ => add score (decimal 1 1)
    | None => score
    end in
  Math_min one score.

(** [relevance >= RELEVANCE_THRESHOLD] *)
Definition accept (relevance : double) : bool :=
  le RELEVANCE_THRESHOLD relevance.

(** |A ∩ B| / |A ∪ B| on the sets of words, and 0 when A or B is
    empty. *)
Definition jaccard (a b : jsstring) : double :=
  let A := Relevance.word_set a in
  let B := Relevance.word_set b in
  match A, B with
  | [], _ | _, [] => zero
  | _, _ =>
      div (of_nat (length (filter (fun w => Relevance.member w B) A)))
          (of_nat (length (nodup (list_eq_dec N.eq_dec) (A ++ B))))
  end.

(** A string as the language allows it: 2^53 - 1 code units at most. *)
Definition representable (s : jsstring) : Prop :=
  (Z.of_nat (length s) < 2 ^ 53)%Z.

End Double.

(* ===================================================================== *)
(** * Properties                                                           *)
(* ===================================================================== *)

(** ** Evaluation on sample inputs *)

Example split_ws_inner : split_ws (lit "a  b") = [lit "a"; lit "b"].
Proof. reflexivity. Qed.

Example split_ws_edges : split_ws (lit " a ") = [[]; lit "a"; []].
Proof. reflexivity. Qed.

Example split_ws_empty : split_ws [] = [[]].
Proof. reflexivity. Qed.

Example trim_both : trim (lit "  a b  ") = lit "a b".
Proof. reflexivity. Qed.

Example classify_whatsapp :
  classifyTitle (lit "WhatsApp") =
  {| type := brand; brandWords := [lit "WhatsApp"]; otherWords := [] |}.
Proof. reflexivity. Qed.

Example classify_photo_editor_pro :
  classifyTitle (lit "Photo Editor Pro") =
  {| type := descriptive; brandWords := [];
     otherWords := [lit "Photo"; lit "Editor"] |}.
Proof. reflexivity. Qed.

Example clean_short_title :
  cleanSearchQuery (lit "WhatsApp Messenger") (lit "Communication")
  = Return (lit "WhatsApp Messenger").
Proof. reflexivity. Qed.

Example clean_spotify :
  cleanSearchQuery (lit "Spotify: Music and Podcasts") (lit "Music & Audio")
  = Return (lit "spotify and podcasts").
Proof. reflexivity. Qed.

Example clean_photo_editor_pro :
  cleanSearchQuery (lit "Photo Editor Pro") (lit "Photography")
  = Return (lit "photo editor").
Proof. reflexivity. Qed.

Example clean_free_vpn :
  cleanSearchQuery (lit "Free VPN Proxy App") (lit "Tools")
  = Return (lit "free vpn proxy").
Proof. reflexivity. Qed.

Example clean_two_word_filler :
  cleanSearchQuery (lit "Maps for Android Phone") (lit "Travel & Local")
  = Return (lit "maps phone").
Proof. reflexivity. Qed.

Example clean_all_punctuation :
  cleanSearchQuery (lit "! ? !") (lit "Tools") = Return (lit "! ? !").
Proof. reflexivity. Qed.

Example clean_inherited_category :
  cleanSearchQuery (lit "Free VPN Proxy App") (lit "constructor")
  = Throw TypeError.
Proof. reflexivity. Qed.

(* ===================================================================== *)
(** ** Character classes                                                   *)
(* ===================================================================== *)

Lemma between_iff lo hi c :
  between lo hi c = true <-> (lo <= c /\ c <= hi)%N.
Proof.
  unfold between. rewrite andb_true_iff, !N.leb_le. tauto.
Qed.

Ltac class_to_prop :=
  repeat first
    [ rewrite orb_true_iff | rewrite andb_true_iff | rewrite negb_true_iff
    | rewrite between_iff | rewrite N.eqb_eq | rewrite N.eqb_neq
    | rewrite orb_false_iff | rewrite andb_false_iff ].

Lemma is_space_iff c :
  is_space c = true <->
  ((9 <= c <= 13) \/ c = 32 \/ c = 160 \/ c = 0x1680
   \/ (0x2000 <= c <= 0x200A) \/ c = 0x2028 \/ c = 0x2029 \/ c = 0x202F
   \/ c = 0x205F \/ c = 0x3000 \/ c = 0xFEFF)%N.
Proof. unfold is_space. class_to_prop. tauto. Qed.

Lemma punct_full_iff c :
  punct_full c = true <->
  In c [44; 40; 41; 91; 93; 58; 59; 33; 63; 39; 34; 0x2122; 0xAE; 0xA9;
        38; 45; 0x2013; 0x2014]%N.
Proof.
  unfold punct_full, punct_short. rewrite orb_true_iff, !existsb_exists.
  split.
  - intros [[x [Hin Hx]] | [x [Hin Hx]]]; apply N.eqb_eq in Hx; subst x;
      simpl in *; tauto.
  - intros H.
    assert (In c [44; 40; 41; 91; 93; 58; 59; 33; 63; 39; 34; 0x2122; 0xAE;
                  0xA9]%N \/ In c [38; 45; 0x2013; 0x2014]%N) as [H1 | H1]
      by (simpl in *; tauto).
    + left. exists c. split; [assumption | apply N.eqb_refl].
    + right. exists c. split; [assumption | apply N.eqb_refl].
Qed.

Lemma bool_eq_iff (a b : bool) : (a = true <-> b = true) -> a = b.
Proof. destruct a, b; intuition congruence. Qed.

Lemma str_eqb_eq a b : str_eqb a b = true <-> a = b.
Proof.
  unfold str_eqb. destruct (list_eq_dec N.eq_dec a b); split;
    congruence.
Qed.

Lemma is_space_SP : is_space SP = true.
Proof. reflexivity. Qed.

Lemma punct_full_SP : punct_full SP = false.
Proof. reflexivity. Qed.

(* ===================================================================== *)
(** ** String operations                                                   *)
(* ===================================================================== *)

Section Preservation.
Variable P : codeunit -> Prop.
Hypothesis P_SP : P SP.

Lemma Forall_trimStart s : Forall P s -> Forall P (trimStart s).
Proof.
  induction 1 as [|c r Hc Hr IH]; simpl; [constructor|].
  destruct (is_space c); [assumption | now constructor].
Qed.

Lemma Forall_trim s : Forall P s -> Forall P (trim s).
Proof.
  intros H. unfold trim, trimEnd.
  apply Forall_rev, Forall_trimStart, Forall_rev, Forall_trimStart, H.
Qed.

Lemma Forall_collapse_go b s : Forall P s -> Forall P (collapse_go b s).
Proof.
  intros H. revert b.
  induction H as [|c r Hc Hr IH]; intros b; simpl; [constructor|].
  destruct (is_space c); [destruct b|]; auto.
Qed.

Lemma Forall_blank cls s : Forall P s -> Forall P (blank cls s).
Proof.
  unfold blank. induction 1 as [|c r Hc Hr IH]; simpl; constructor; auto.
  now destruct (cls c).
Qed.

Lemma Forall_replace_word_go pat k prev s :
  Forall P s -> Forall P (replace_word_go pat k prev s).
Proof.
  intros H. revert k prev.
  induction H as [|c r Hc Hr IH]; intros k prev; [constructor|].
  cbn [replace_word_go]. destruct k as [|k]; [|apply IH].
  destruct (word_at pat prev (c :: r)); constructor; auto.
Qed.

Lemma Forall_drop_universal prot phrases s :
  Forall P s -> Forall P (fold_left (drop_universal prot) phrases s).
Proof.
  revert s. induction phrases as [|p ps IH]; intros s H; simpl; auto.
  apply IH. unfold drop_universal.
  destruct (_ && _); [assumption|].
  now apply Forall_replace_word_go.
Qed.

Lemma Forall_drop_category prot ws s :
  Forall P s -> Forall P (fold_left (drop_category prot) ws s).
Proof.
  revert s. induction ws as [|p ps IH]; intros s H; simpl; auto.
  apply IH. unfold drop_category.
  destruct (set_has p prot); [assumption|].
  now apply Forall_replace_word_go.
Qed.
End Preservation.

Lemma Forall_blank_punct s : punctuation_free (blank punct_full s).
Proof.
  unfold punctuation_free, blank. induction s as [|c r IH]; simpl;
    constructor; auto.
  destruct (punct_full c) eqn:E; [reflexivity | assumption].
Qed.

(** [trimStart] removes a run of white space from the front. *)
Lemma trimStart_split s :
  exists sp, s = sp ++ trimStart s /\ Forall (fun c => is_space c = true) sp.
Proof.
  induction s as [|c r [sp [E F]]]; simpl.
  - exists []. split; [reflexivity | constructor].
  - destruct (is_space c) eqn:Hc.
    + exists (c :: sp). split; [simpl; congruence | now constructor].
    + exists []. split; [reflexivity | constructor].
Qed.

Lemma trimEnd_split s :
  exists sp, s = trimEnd s ++ sp /\ Forall (fun c => is_space c = true) sp.
Proof.
  destruct (trimStart_split (rev s)) as [sp [E F]].
  exists (rev sp). split; [|now apply Forall_rev].
  unfold trimEnd. rewrite <- rev_app_distr, <- E. now rewrite rev_involutive.
Qed.

Lemma hd_trimStart s : is_space_at (hd_error (trimStart s)) = false.
Proof.
  induction s as [|c r IH]; simpl; [reflexivity|].
  destruct (is_space c) eqn:Hc; [assumption | simpl; assumption].
Qed.

Lemma trim_edges s :
  is_space_at (hd_error (trim s)) = false
  /\ is_space_at (hd_error (rev (trim s))) = false.
Proof.
  unfold trim. split.
  - pose proof (hd_trimStart s) as H.
    destruct (trimEnd_split (trimStart s)) as [sp [E _]].
    destruct (trimEnd (trimStart s)) as [|c r]; [reflexivity|].
    rewrite E in H. exact H.
  - unfold trimEnd. rewrite rev_involutive. apply hd_trimStart.
Qed.

Lemma no_space_run_app_r a b :
  no_space_run (a ++ b) = true -> no_space_run b = true.
Proof.
  induction a as [|x a IH]; simpl; [auto|].
  destruct (a ++ b) eqn:E.
  - destruct a; [simpl in E; now subst | discriminate].
  - intros H. apply andb_true_iff in H. now apply IH.
Qed.

Lemma no_space_run_app_l a b :
  no_space_run (a ++ b) = true -> no_space_run a = true.
Proof.
  induction a as [|x a IH]; [reflexivity|].
  destruct a as [|y a]; [reflexivity|].
  cbn [app no_space_run] in *.
  rewrite !andb_true_iff. intros [H1 H2]. split; [assumption | now apply IH].
Qed.

Lemma no_space_run_trim s :
  no_space_run s = true -> no_space_run (trim s) = true.
Proof.
  intros H. unfold trim.
  destruct (trimStart_split s) as [sp [E _]].
  destruct (trimEnd_split (trimStart s)) as [sp' [E' _]].
  rewrite E in H. apply no_space_run_app_r in H.
  rewrite E' in H. now apply no_space_run_app_l in H.
Qed.

Lemma no_space_run_cons a s :
  no_space_run (a :: s)
  = negb (is_space a && is_space_at (hd_error s)) && no_space_run s.
Proof.
  destruct s as [|b r]; [|reflexivity].
  simpl. now rewrite andb_false_r.
Qed.

Lemma collapse_go_run s :
  forall b,
    no_space_run (collapse_go b s) = true
    /\ is_space_at (hd_error (collapse_go true s)) = false.
Proof.
  induction s as [|c r IH]; intros b; [now split|].
  cbn [collapse_go]. destruct (is_space c) eqn:Hc.
  - destruct (IH true) as [Hrun Hhd]. split; [|assumption].
    destruct b; [assumption|].
    now rewrite no_space_run_cons, Hhd, Hrun, andb_false_r.
  - destruct (IH false) as [Hrun _]. split; [|simpl; assumption].
    now rewrite no_space_run_cons, Hc, Hrun.
Qed.

Lemma whitespace_collapsed_trim_collapse s :
  whitespace_collapsed (trim (collapse_ws s)).
Proof.
  destruct (trim_edges (collapse_ws s)) as [H1 H2].
  repeat split; try assumption.
  apply no_space_run_trim. apply (collapse_go_run s false).
Qed.

(* ===================================================================== *)
(** ** toLowerCase                                                         *)
(* ===================================================================== *)

Lemma string_pair_ind (P : jsstring -> Prop) :
  P [] -> (forall c, P [c]) ->
  (forall c d r, P r -> P (d :: r) -> P (c :: d :: r)) ->
  forall s, P s.
Proof.
  intros H0 H1 H2.
  assert (forall s, P s /\ forall c, P (c :: s)) as H.
  { induction s as [|d r [IH1 IH2]]; split; auto. }
  intros s. apply H.
Qed.

(** *** The mapping *)

Example toLowerCase_latin : toLowerCase (lit "WhatsApp") = lit "whatsapp".
Proof. vm_compute. reflexivity. Qed.

(** Letters outside Latin-1 and the basic Cyrillic block: the capital S
    with a caron, the Kazakh [ka] with a descender, the Kelvin sign. *)
Example toLowerCase_caron :
  toLowerCase (0x160%N :: lit "KODA") = 0x161%N :: lit "koda".
Proof. vm_compute. reflexivity. Qed.

Example toLowerCase_kazakh :
  toLowerCase [0x49A; 0x410; 0x417; 0x410; 0x49A]%N
  = [0x49B; 0x430; 0x437; 0x430; 0x49B]%N.
Proof. vm_compute. reflexivity. Qed.

Example toLowerCase_kelvin : toLowerCase [0x212A]%N = lit "k".
Proof. vm_compute. reflexivity. Qed.

(** The capital I with a dot takes two code units. *)
Example toLowerCase_dotted : toLowerCase [0x130]%N = [0x69; 0x307]%N.
Proof. vm_compute. reflexivity. Qed.

(** The capital sigma at the end of a word, and inside one. *)
Example toLowerCase_sigma :
  toLowerCase [0x39F; 0x394; 0x3A5; 0x3A3; 0x3A3; 0x395; 0x3A5; 0x3A3]%N
  = [0x3BF; 0x3B4; 0x3C5; 0x3C3; 0x3C3; 0x3B5; 0x3C5; 0x3C2]%N.
Proof. vm_compute. reflexivity. Qed.

(** A letter outside the basic plane, U+10400, as a pair of surrogates;
    a lone surrogate stays. *)
Example toLowerCase_pair :
  toLowerCase [0xD801; 0xDC00; 0xD801]%N = [0xD801; 0xDC28; 0xD801]%N.
Proof. vm_compute. reflexivity. Qed.


Lemma lowercase_pairs_checked : forallb pair_checked lowercase_pairs = true.
Proof. vm_compute. reflexivity. Qed.

Lemma simple_lowercase_cases c :
  simple_lowercase c = c \/ In (c, simple_lowercase c) lowercase_pairs.
Proof.
  unfold simple_lowercase.
  destruct (find _ lowercase_pairs) as [[a b]|] eqn:E; [|now left].
  right. apply find_some in E. destruct E as [Hin Heq].
  cbn [fst snd] in *. apply N.eqb_eq in Heq. now subst a.
Qed.

Lemma mapped_checked c d :
  In (c, d) lowercase_pairs ->
  stable d = true
  /\ is_space c = false /\ is_space d = false
  /\ punct_full c = false /\ punct_full d = false
  /\ is_lead c = false /\ is_trail c = false
  /\ is_lead d = false /\ is_trail d = false
  /\ (c <? 0x10000)%N = (d <? 0x10000)%N
  /\ (d < 0x110000)%N /\ c <> 0x130%N.
Proof.
  intros H.
  pose proof (proj1 (forallb_forall _ _) lowercase_pairs_checked _ H) as K.
  unfold pair_checked in K.
  repeat (apply andb_true_iff in K; destruct K as [K ?]).
  repeat match goal with
         | H : negb _ = true |- _ => apply negb_true_iff in H
         end.
  repeat split; try assumption.
  - unfold stable. apply andb_true_iff.
    split; [assumption | now apply negb_true_iff].
  - now apply Bool.eqb_prop.
  - now apply N.ltb_lt.
  - now apply N.eqb_neq.
Qed.

Lemma stable_simple_lowercase c :
  c <> 0x130%N -> stable (simple_lowercase c) = true.
Proof.
  intros Hc. destruct (simple_lowercase_cases c) as [E | M].
  - rewrite E. unfold stable. rewrite E, N.eqb_refl.
    now apply negb_true_iff, N.eqb_neq.
  - now apply mapped_checked in M.
Qed.

Lemma stable_fixed c : stable c = true -> simple_lowercase c = c.
Proof.
  unfold stable. intros H. apply andb_true_iff in H.
  now apply N.eqb_eq.
Qed.

(** A code point that the mapping moves is a letter of neither class. *)
Lemma not_stable c :
  stable c = false ->
  is_space c = false /\ punct_full c = false
  /\ is_lead c = false /\ is_trail c = false.
Proof.
  unfold stable. intros H. apply andb_false_iff in H.
  destruct H as [H | H].
  - apply N.eqb_neq in H.
    destruct (simple_lowercase_cases c) as [E | M]; [contradiction|].
    apply mapped_checked in M. tauto.
  - apply negb_false_iff, N.eqb_eq in H. subst c. now vm_compute.
Qed.

Lemma space_stable c : is_space c = true -> stable c = true.
Proof.
  intros H. destruct (stable c) eqn:E; [reflexivity|].
  apply not_stable in E. destruct E as [E _]. congruence.
Qed.

Lemma lead_stable c : is_lead c = true -> stable c = true.
Proof.
  intros H. destruct (stable c) eqn:E; [reflexivity|].
  apply not_stable in E. destruct E as (_ & _ & E & _). congruence.
Qed.

Lemma trail_stable c : is_trail c = true -> stable c = true.
Proof.
  intros H. destruct (stable c) eqn:E; [reflexivity|].
  apply not_stable in E. destruct E as (_ & _ & _ & E). congruence.
Qed.

Lemma simple_lowercase_class (cls : codeunit -> bool) c :
  (forall a b, In (a, b) lowercase_pairs -> cls a = false /\ cls b = false) ->
  cls (simple_lowercase c) = cls c.
Proof.
  intros H. destruct (simple_lowercase_cases c) as [E | M];
    [now rewrite E|].
  destruct (H _ _ M) as [-> ->]. reflexivity.
Qed.

Lemma is_space_simple_lowercase c :
  is_space (simple_lowercase c) = is_space c.
Proof.
  apply simple_lowercase_class. intros a b M.
  apply mapped_checked in M. tauto.
Qed.

Lemma punct_full_simple_lowercase c :
  punct_full (simple_lowercase c) = punct_full c.
Proof.
  apply simple_lowercase_class. intros a b M.
  apply mapped_checked in M. tauto.
Qed.

Lemma is_lead_simple_lowercase c :
  is_lead (simple_lowercase c) = is_lead c.
Proof.
  apply simple_lowercase_class. intros a b M.
  apply mapped_checked in M. tauto.
Qed.

Lemma is_trail_simple_lowercase c :
  is_trail (simple_lowercase c) = is_trail c.
Proof.
  apply simple_lowercase_class. intros a b M.
  apply mapped_checked in M. tauto.
Qed.

(** *** Surrogates *)

Lemma lead_not_trail c : is_lead c = true -> is_trail c = false.
Proof.
  unfold is_lead, is_trail. intros H. apply between_iff in H.
  destruct (between 0xDC00 0xDFFF c) eqn:E; [|reflexivity].
  apply between_iff in E. lia.
Qed.

Lemma surrogate_not_space c :
  is_lead c || is_trail c = true -> is_space c = false.
Proof.
  unfold is_lead, is_trail. intros H.
  destruct (is_space c) eqn:E; [|reflexivity].
  apply is_space_iff in E. apply orb_true_iff in H.
  rewrite !between_iff in H. lia.
Qed.

Lemma surrogate_not_punct c :
  is_lead c || is_trail c = true -> punct_full c = false.
Proof.
  unfold is_lead, is_trail. intros H.
  destruct (punct_full c) eqn:E; [|reflexivity].
  apply punct_full_iff in E. apply orb_true_iff in H.
  rewrite !between_iff in H. cbn [In] in E. lia.
Qed.

Lemma code_point_range c d :
  is_lead c = true -> is_trail d = true ->
  (0x10000 <= code_point c d < 0x110000)%N.
Proof.
  unfold is_lead, is_trail, code_point. rewrite !between_iff. lia.
Qed.

Lemma surrogates_code_point c d :
  is_lead c = true -> is_trail d = true ->
  surrogates (code_point c d) = [c; d].
Proof.
  unfold is_lead, is_trail, code_point, surrogates. rewrite !between_iff.
  intros Hc Hd.
  replace (0x10000 + (c - 0xD800) * 0x400 + (d - 0xDC00) - 0x10000)%N
    with ((d - 0xDC00) + (c - 0xD800) * 0x400)%N by lia.
  rewrite N.div_add by discriminate.
  rewrite N.Div0.mod_add.
  rewrite N.div_small, N.mod_small by lia.
  f_equal; [|f_equal]; lia.
Qed.

Lemma surrogates_spec cp :
  (0x10000 <= cp < 0x110000)%N ->
  exists l t, surrogates cp = [l; t]
              /\ is_lead l = true /\ is_trail t = true
              /\ code_point l t = cp.
Proof.
  intros H. unfold surrogates. eexists. eexists. split; [reflexivity|].
  assert (0x400 <> 0)%N as Z by discriminate.
  pose proof (N.mod_upper_bound (cp - 0x10000) 0x400 Z) as M.
  assert ((cp - 0x10000) / 0x400 < 0x400)%N as D
    by (apply N.Div0.div_lt_upper_bound; lia).
  pose proof (N.div_mod (cp - 0x10000) 0x400 Z) as E.
  unfold is_lead, is_trail, code_point. rewrite !between_iff.
  set (q := ((cp - 0x10000) / 0x400)%N) in *.
  set (r := ((cp - 0x10000) mod 0x400)%N) in *.
  repeat split; lia.
Qed.

Lemma simple_lowercase_astral cp :
  (0x10000 <= cp < 0x110000)%N ->
  (0x10000 <= simple_lowercase cp < 0x110000)%N.
Proof.
  intros H. destruct (simple_lowercase_cases cp) as [E | M];
    [now rewrite E|].
  apply mapped_checked in M.
  destruct M as (_ & _ & _ & _ & _ & _ & _ & _ & _ & P & B & _).
  split; [|assumption].
  assert ((cp <? 0x10000)%N = false) as F by (apply N.ltb_ge; lia).
  rewrite F in P. symmetry in P. now apply N.ltb_ge in P.
Qed.

(** *** One code point *)

Lemma lower_unit_spec before c rest :
  lower_unit before c rest <> []
  /\ Forall (fun u => stable u = true
                      /\ is_space u = is_space c
                      /\ punct_full u = punct_full c
                      /\ is_lead u = is_lead c
                      /\ is_trail u = is_trail c)
       (lower_unit before c rest).
Proof.
  unfold lower_unit.
  destruct (c =? 0x3A3)%N eqn:S; [apply N.eqb_eq in S; subst c|].
  { split; [discriminate|].
    destruct (before && negb (followed_by_cased rest));
      repeat constructor; now vm_compute. }
  destruct (c =? 0x130)%N eqn:I; [apply N.eqb_eq in I; subst c|].
  { split; [discriminate|]. repeat constructor; now vm_compute. }
  apply N.eqb_neq in I. split; [discriminate|].
  repeat constructor.
  - now apply stable_simple_lowercase.
  - apply is_space_simple_lowercase.
  - apply punct_full_simple_lowercase.
  - apply is_lead_simple_lowercase.
  - apply is_trail_simple_lowercase.
Qed.

Lemma lower_unit_stable before c rest :
  stable c = true -> lower_unit before c rest = [c].
Proof.
  intros H. unfold lower_unit.
  destruct (c =? 0x3A3)%N eqn:S;
    [apply N.eqb_eq in S; subst c; vm_compute in H; discriminate|].
  destruct (c =? 0x130)%N eqn:I;
    [apply N.eqb_eq in I; subst c; vm_compute in H; discriminate|].
  now rewrite (stable_fixed _ H).
Qed.

(** *** Strings that lower-casing leaves alone *)

Lemma adjacent_cons Q a s :
  adjacent Q (a :: s)
  = match s with b :: _ => Q a b | [] => true end && adjacent Q s.
Proof. destruct s; reflexivity. Qed.

Lemma locally_lower_tail c r : locally_lower (c :: r) -> locally_lower r.
Proof.
  intros [F A]. split; [now inversion F|].
  rewrite adjacent_cons in A. now apply andb_true_iff in A.
Qed.

Lemma lower_go_fixed s : forall before, locally_lower s -> lower_go before s = s.
Proof.
  induction s as [| c | c d r IHr IHd] using string_pair_ind;
    intros before H.
  - reflexivity.
  - destruct H as [F _]. inversion F; subst.
    cbn [lower_go]. now apply lower_unit_stable.
  - cbn [lower_go]. destruct (is_lead c && is_trail d) eqn:E.
    + pose proof (locally_lower_tail (locally_lower_tail H)) as Hr.
      destruct H as [F A]. cbn [adjacent] in A.
      apply andb_true_iff in A. destruct A as [A _].
      unfold pair_ok in A. rewrite E in A. cbn [negb orb] in A.
      rewrite (stable_fixed _ A).
      apply andb_true_iff in E. destruct E as [Ec Ed].
      rewrite (surrogates_code_point _ _ Ec Ed). cbn [app].
      do 2 f_equal. now apply IHr.
    + pose proof (locally_lower_tail H) as Ht.
      destruct H as [F _]. inversion F; subst.
      rewrite lower_unit_stable by assumption. cbn [app]. f_equal.
      now apply IHd.
Qed.

Lemma lower_go_pair before c d r :
  lower_go before (c :: d :: r)
  = if is_lead c && is_trail d
    then surrogates (simple_lowercase (code_point c d))
         ++ lower_go (passed before (code_point c d)) r
    else lower_unit before c (d :: r) ++ lower_go (passed before c) (d :: r).
Proof. reflexivity. Qed.

Lemma lower_go_nil before s : lower_go before s = [] -> s = [].
Proof.
  destruct s as [|c [|d r]]; [reflexivity| |]; cbn [lower_go]; intros H.
  - now destruct (lower_unit_spec before c []).
  - destruct (is_lead c && is_trail d).
    + discriminate H.
    + apply app_eq_nil in H. destruct H as [H _].
      now destruct (lower_unit_spec before c (d :: r)).
Qed.

(** The first code unit of the lower case is of the kind of the first
    code unit of the string. *)
Lemma lower_go_head (cls : codeunit -> bool) before s :
  (forall b c rest,
      Forall (fun u => cls u = cls c) (lower_unit b c rest)) ->
  (forall c, is_lead c = true -> cls c = false) ->
  match hd_error (lower_go before s), hd_error s with
  | Some u, Some c => cls u = cls c
  | None, None => True
  | _, _ => False
  end.
Proof.
  intros Hu Hl. destruct s as [|c [|d r]]; [exact I| |]; cbn [lower_go].
  - destruct (lower_unit_spec before c []) as [N _].
    specialize (Hu before c []).
    destruct (lower_unit before c []) as [|u us]; [contradiction|].
    now inversion Hu.
  - destruct (is_lead c && is_trail d) eqn:E.
    + apply andb_true_iff in E. destruct E as [Ec Ed].
      destruct (surrogates_spec
                  (simple_lowercase_astral (code_point_range _ _ Ec Ed)))
        as (l & t & -> & Hl' & _).
      cbn [app hd_error]. now rewrite (Hl _ Hl'), (Hl _ Ec).
    + destruct (lower_unit_spec before c (d :: r)) as [N _].
      specialize (Hu before c (d :: r)).
      destruct (lower_unit before c (d :: r)) as [|u us]; [contradiction|].
      cbn [app hd_error]. now inversion Hu.
Qed.

Lemma lower_unit_class (cls : codeunit -> bool) :
  (forall c, cls (simple_lowercase c) = cls c) ->
  cls 0x3A3%N = cls 0x3C2%N -> cls 0x3A3%N = cls 0x3C3%N ->
  cls 0x130%N = cls 0x69%N -> cls 0x130%N = cls 0x307%N ->
  forall b c rest, Forall (fun u => cls u = cls c) (lower_unit b c rest).
Proof.
  intros H S1 S2 I1 I2 b c rest. unfold lower_unit.
  destruct (c =? 0x3A3)%N eqn:S; [apply N.eqb_eq in S; subst c|].
  { destruct (b && negb (followed_by_cased rest)); repeat constructor;
      congruence. }
  destruct (c =? 0x130)%N eqn:I; [apply N.eqb_eq in I; subst c|].
  { repeat constructor; congruence. }
  repeat constructor. apply H.
Qed.

Lemma lower_unit_trail b c rest :
  Forall (fun u => is_trail u = is_trail c) (lower_unit b c rest).
Proof.
  apply lower_unit_class; [apply is_trail_simple_lowercase | | | |];
    reflexivity.
Qed.

Lemma lower_unit_space b c rest :
  Forall (fun u => is_space u = is_space c) (lower_unit b c rest).
Proof.
  apply lower_unit_class; [apply is_space_simple_lowercase | | | |];
    reflexivity.
Qed.

Lemma lower_unit_punct b c rest :
  Forall (fun u => punct_full u = punct_full c) (lower_unit b c rest).
Proof.
  apply lower_unit_class; [apply punct_full_simple_lowercase | | | |];
    reflexivity.
Qed.

Lemma lower_unit_lead b c rest :
  Forall (fun u => is_lead u = is_lead c) (lower_unit b c rest).
Proof.
  apply lower_unit_class; [apply is_lead_simple_lowercase | | | |];
    reflexivity.
Qed.

Lemma Forall_lower_go (P : codeunit -> Prop) :
  (forall b c rest, P c -> Forall P (lower_unit b c rest)) ->
  (forall c, is_lead c || is_trail c = true -> P c) ->
  forall (s : jsstring) before,
    Forall P s -> Forall P (lower_go before s).
Proof.
  intros Hu Hs s.
  induction s as [| c | c d r IHr IHd] using string_pair_ind;
    intros before H; cbn [lower_go].
  - constructor.
  - inversion H; subst. now apply Hu.
  - destruct (is_lead c && is_trail d) eqn:E.
    + apply andb_true_iff in E. destruct E as [Ec Ed].
      destruct (surrogates_spec
                  (simple_lowercase_astral (code_point_range _ _ Ec Ed)))
        as (l & t & -> & Hl & Ht & _).
      cbn [app]. constructor; [|constructor].
      * apply Hs. now rewrite Hl.
      * apply Hs. now rewrite Ht, orb_true_r.
      * apply IHr. inversion H; subst.
        match goal with K : Forall P (d :: r) |- _ => now inversion K end.
    + inversion H; subst. apply Forall_app. split; [now apply Hu|].
      now apply IHd.
Qed.

Lemma stable_lower_go s before :
  Forall (fun c => stable c = true) (lower_go before s).
Proof.
  revert before.
  induction s as [| c | c d r IHr IHd] using string_pair_ind;
    intros before; cbn [lower_go].
  - constructor.
  - destruct (lower_unit_spec before c []) as [_ F].
    eapply Forall_impl; [|exact F]. cbn. tauto.
  - destruct (is_lead c && is_trail d) eqn:E.
    + apply andb_true_iff in E. destruct E as [Ec Ed].
      destruct (surrogates_spec
                  (simple_lowercase_astral (code_point_range _ _ Ec Ed)))
        as (l & t & -> & Hl & Ht & _).
      cbn [app]. constructor; [now apply lead_stable|].
      constructor; [now apply trail_stable | apply IHr].
    + apply Forall_app. split; [|apply IHd].
      destruct (lower_unit_spec before c (d :: r)) as [_ F].
      eapply Forall_impl; [|exact F]. cbn. tauto.
Qed.

(** The code units of one code point, put before a string that they may
    precede. *)
Lemma adjacent_unit_app Q (out rest : jsstring) (c : codeunit) :
  out <> [] ->
  Forall (fun u => forall v, Q u v = true) out
  \/ (Forall (fun u => is_lead u = is_lead c /\ is_trail u = is_trail c) out
      /\ Q = pair_ok
      /\ match rest with v :: _ => is_lead c && is_trail v = false
         | [] => True end) ->
  adjacent Q rest = true ->
  adjacent Q (out ++ rest) = true.
Proof.
  intros N H A. induction out as [|u out IH]; [contradiction|].
  cbn [app]. rewrite adjacent_cons. apply andb_true_iff. split.
  - destruct out as [|u' out]; cbn [app].
    + destruct rest as [|v rest]; [reflexivity|].
      destruct H as [H | (H & -> & K)].
      * inversion H; subst. auto.
      * inversion H as [|? ? [Hl _] _]; subst. unfold pair_ok.
        rewrite Hl, K. reflexivity.
    + destruct H as [H | (H & -> & K)].
      * inversion H; subst. auto.
      * inversion H as [|? ? [Hl _] H']; subst.
        inversion H' as [|? ? [_ Ht] _]; subst. unfold pair_ok.
        rewrite Hl, Ht.
        destruct (is_lead c) eqn:E; [|reflexivity].
        now rewrite (lead_not_trail _ E).
  - destruct out as [|u' out]; [exact A|].
    apply IH; [discriminate|].
    destruct H as [H | (H & E & K)]; [left | right].
    + now inversion H.
    + split; [now inversion H | now split].
Qed.

Lemma adjacent_lower_go s :
  forall before, adjacent pair_ok (lower_go before s) = true.
Proof.
  induction s as [| c | c d r IHr IHd] using string_pair_ind;
    intros before; [| cbn [lower_go] | rewrite lower_go_pair].
  - reflexivity.
  - destruct (lower_unit_spec before c []) as [N F].
    rewrite <- (app_nil_r (lower_unit before c [])).
    apply adjacent_unit_app with (c := c); [assumption | | reflexivity].
    right. split; [|now split].
    eapply Forall_impl; [|exact F]. cbn. tauto.
  - destruct (is_lead c && is_trail d) eqn:E.
    + apply andb_true_iff in E. destruct E as [Ec Ed].
      pose proof (simple_lowercase_astral (code_point_range _ _ Ec Ed))
        as R.
      destruct (surrogates_spec R) as (l & t & -> & Hl & Ht & Hcp).
      cbn [app]. rewrite adjacent_cons. apply andb_true_iff. split.
      * unfold pair_ok. rewrite Hl, Ht, Hcp. cbn [andb negb orb].
        apply stable_simple_lowercase.
        pose proof (code_point_range _ _ Ec Ed). lia.
      * rewrite adjacent_cons. apply andb_true_iff. split; [|apply IHr].
        destruct (lower_go _ r) as [|v vs]; [reflexivity|].
        unfold pair_ok.
        assert (is_lead t = false) as ->; [|reflexivity].
        destruct (is_lead t) eqn:K; [|reflexivity].
        apply lead_not_trail in K. congruence.
    + destruct (lower_unit_spec before c (d :: r)) as [N F].
      apply adjacent_unit_app with (c := c); [assumption | | apply IHd].
      right. split; [|split; [reflexivity|]].
      * eapply Forall_impl; [|exact F]. cbn. tauto.
      * pose proof (lower_go_head is_trail (passed before c) (d :: r)
                      lower_unit_trail lead_not_trail) as Hh.
        cbn [hd_error] in Hh.
        destruct (lower_go (passed before c) (d :: r)) as [|v vs];
          [exact I|].
        cbn [hd_error] in Hh. now rewrite Hh.
Qed.

Lemma locally_lower_toLowerCase s : locally_lower (toLowerCase s).
Proof.
  split; [apply stable_lower_go | apply adjacent_lower_go].
Qed.

Lemma locally_lower_lower_cased s : locally_lower s -> lower_cased s.
Proof. intros H. now apply lower_go_fixed. Qed.

Lemma lower_cased_toLowerCase s : lower_cased (toLowerCase s).
Proof. apply locally_lower_lower_cased, locally_lower_toLowerCase. Qed.

(** *** What the cleanup keeps of such a string *)

Section Adjacent.
Variable Q : codeunit -> codeunit -> bool.
Hypothesis Q_SP_l : forall b, Q SP b = true.
Hypothesis Q_SP_r : forall a, Q a SP = true.

Lemma adjacent_app_r a b :
  adjacent Q (a ++ b) = true -> adjacent Q b = true.
Proof.
  induction a as [|x a IH]; [auto|]. cbn [app]. rewrite adjacent_cons.
  intros H. apply andb_true_iff in H. now apply IH.
Qed.

Lemma adjacent_app_l a b :
  adjacent Q (a ++ b) = true -> adjacent Q a = true.
Proof.
  induction a as [|x a IH]; [reflexivity|]. cbn [app].
  rewrite !adjacent_cons, !andb_true_iff. intros [H1 H2].
  split; [|now apply IH]. destruct a; [reflexivity | exact H1].
Qed.

Lemma adjacent_trim s : adjacent Q s = true -> adjacent Q (trim s) = true.
Proof.
  intros H. unfold trim.
  destruct (trimStart_split s) as [sp [E _]].
  destruct (trimEnd_split (trimStart s)) as [sp' [E' _]].
  rewrite E in H. apply adjacent_app_r in H.
  rewrite E' in H. now apply adjacent_app_l in H.
Qed.

Lemma adjacent_collapse_go s :
  forall b,
    adjacent Q s = true ->
    adjacent Q (collapse_go b s) = true
    /\ forall a, precedes Q a s -> precedes Q a (collapse_go false s).
Proof.
  induction s as [|c r IH]; intros b H; [now split|].
  rewrite adjacent_cons in H. apply andb_true_iff in H.
  destruct H as [Hc Hr].
  cbn [collapse_go]. destruct (is_space c) eqn:E.
  - destruct (IH true Hr) as [A _]. split.
    + destruct b; [exact A|].
      rewrite adjacent_cons, A, andb_true_r.
      destruct (collapse_go true r); [reflexivity | apply Q_SP_l].
    + intros a _. apply Q_SP_r.
  - destruct (IH false Hr) as [A P]. split.
    + rewrite adjacent_cons, A, andb_true_r.
      specialize (P c).
      destruct (collapse_go false r) as [|v vs]; [reflexivity|].
      apply P. destruct r; [exact I | exact Hc].
    + intros a Ha. exact Ha.
Qed.

Lemma adjacent_blank cls s :
  adjacent Q s = true -> adjacent Q (blank cls s) = true.
Proof.
  unfold blank. induction s as [|c r IH]; [reflexivity|].
  rewrite adjacent_cons. intros H. apply andb_true_iff in H.
  destruct H as [Hc Hr]. cbn [map]. rewrite adjacent_cons, (IH Hr).
  rewrite andb_true_r. destruct r as [|d r]; [reflexivity|]. cbn [map].
  destruct (cls c); [apply Q_SP_l|]. destruct (cls d); [apply Q_SP_r|].
  exact Hc.
Qed.

Lemma adjacent_replace_word_go pat s :
  forall k prev,
    adjacent Q s = true ->
    adjacent Q (replace_word_go pat k prev s) = true
    /\ forall a, precedes Q a s ->
                 precedes Q a (replace_word_go pat 0 prev s).
Proof.
  induction s as [|c r IH]; intros k prev H; [now split|].
  rewrite adjacent_cons in H. apply andb_true_iff in H.
  destruct H as [Hc Hr].
  assert (precedes Q c r) as Pc by (destruct r; [exact I | exact Hc]).
  split.
  - cbn [replace_word_go]. destruct k as [|k]; [|now apply IH].
    destruct (word_at pat prev (c :: r)).
    + rewrite adjacent_cons. apply andb_true_iff.
      split; [|now apply IH].
      destruct (replace_word_go _ _ _ r); [reflexivity | apply Q_SP_l].
    + rewrite adjacent_cons. apply andb_true_iff.
      split; [|now apply IH].
      destruct (IH 0 (Some c) Hr) as [_ P]. specialize (P c Pc).
      destruct (replace_word_go pat 0 (Some c) r); [reflexivity | exact P].
  - intros a Ha. cbn [replace_word_go].
    destruct (word_at pat prev (c :: r)); [apply Q_SP_r | exact Ha].
Qed.

Lemma adjacent_drop_universal prot phrases s :
  adjacent Q s = true ->
  adjacent Q (fold_left (drop_universal prot) phrases s) = true.
Proof.
  revert s. induction phrases as [|p ps IH]; intros s H; simpl; auto.
  apply IH. unfold drop_universal.
  destruct (_ && _); [assumption|].
  now apply adjacent_replace_word_go.
Qed.

Lemma adjacent_drop_category prot ws s :
  adjacent Q s = true ->
  adjacent Q (fold_left (drop_category prot) ws s) = true.
Proof.
  revert s. induction ws as [|p ps IH]; intros s H; simpl; auto.
  apply IH. unfold drop_category.
  destruct (set_has p prot); [assumption|].
  now apply adjacent_replace_word_go.
Qed.

End Adjacent.

Lemma stable_SP : stable SP = true.
Proof. now vm_compute. Qed.

Lemma pair_ok_SP_l b : pair_ok SP b = true.
Proof. reflexivity. Qed.

Lemma pair_ok_SP_r a : pair_ok a SP = true.
Proof. unfold pair_ok. cbn. now rewrite andb_false_r. Qed.

Lemma locally_lower_drop_universal prot phrases s :
  locally_lower s ->
  locally_lower (fold_left (drop_universal prot) phrases s).
Proof.
  intros [F A]. split.
  - now apply Forall_drop_universal; [apply stable_SP|].
  - now apply adjacent_drop_universal;
      [apply pair_ok_SP_l | apply pair_ok_SP_r|].
Qed.

Lemma locally_lower_drop_category prot ws s :
  locally_lower s ->
  locally_lower (fold_left (drop_category prot) ws s).
Proof.
  intros [F A]. split.
  - now apply Forall_drop_category; [apply stable_SP|].
  - now apply adjacent_drop_category;
      [apply pair_ok_SP_l | apply pair_ok_SP_r|].
Qed.

Lemma locally_lower_clean cls s :
  locally_lower s -> locally_lower (trim (collapse_ws (blank cls s))).
Proof.
  intros [F A]. split.
  - apply Forall_trim, Forall_collapse_go; [apply stable_SP|].
    now apply Forall_blank; [apply stable_SP|].
  - apply adjacent_trim. unfold collapse_ws.
    apply (adjacent_collapse_go pair_ok pair_ok_SP_l pair_ok_SP_r).
    now apply adjacent_blank; [apply pair_ok_SP_l | apply pair_ok_SP_r|].
Qed.

(** *** White space and punctuation under lower-casing *)

Lemma punctuation_free_lower s :
  punctuation_free s -> punctuation_free (toLowerCase s).
Proof.
  unfold punctuation_free, toLowerCase.
  apply (@Forall_lower_go (fun c => punct_full c = false)).
  - intros b c rest Hc.
    eapply Forall_impl; [|apply (lower_unit_punct b c rest)].
    cbn. congruence.
  - apply surrogate_not_punct.
Qed.

Lemma no_space_run_skip u s :
  is_space u = false -> no_space_run (u :: s) = no_space_run s.
Proof. intros H. now rewrite no_space_run_cons, H. Qed.

Lemma lower_go_space_head before s :
  is_space_at (hd_error (lower_go before s)) = is_space_at (hd_error s).
Proof.
  pose proof (lower_go_head is_space before s lower_unit_space) as H.
  assert (forall c, is_lead c = true -> is_space c = false) as L.
  { intros c Hc. apply surrogate_not_space. now rewrite Hc. }
  specialize (H L).
  destruct (hd_error (lower_go before s)), (hd_error s);
    try contradiction; [exact H | reflexivity].
Qed.

Lemma no_space_run_unit_app (out rest : jsstring) (c : codeunit) :
  out <> [] ->
  Forall (fun u => is_space u = is_space c) out ->
  (is_space c = true -> out = [c]) ->
  no_space_run (out ++ rest)
  = negb (is_space c && is_space_at (hd_error rest)) && no_space_run rest.
Proof.
  intros N F S. destruct (is_space c) eqn:E.
  - rewrite (S eq_refl). cbn [app]. now rewrite no_space_run_cons, E.
  - clear S N. cbn [andb negb]. induction F as [|u us Hu F IH];
      [reflexivity|].
    cbn [app]. now rewrite no_space_run_skip.
Qed.

Lemma lower_unit_of_space before c rest :
  is_space c = true -> lower_unit before c rest = [c].
Proof. intros H. now apply lower_unit_stable, space_stable. Qed.

Lemma no_space_run_lower_go s :
  forall before, no_space_run (lower_go before s) = no_space_run s.
Proof.
  induction s as [| c | c d r IHr IHd] using string_pair_ind;
    intros before; [| cbn [lower_go] | rewrite lower_go_pair].
  - reflexivity.
  - rewrite <- (app_nil_r (lower_unit before c [])).
    rewrite (@no_space_run_unit_app _ [] c).
    + cbn. now rewrite andb_false_r.
    + apply lower_unit_spec.
    + apply lower_unit_space.
    + apply lower_unit_of_space.
  - destruct (is_lead c && is_trail d) eqn:E.
    + apply andb_true_iff in E. destruct E as [Ec Ed].
      destruct (surrogates_spec
                  (simple_lowercase_astral (code_point_range _ _ Ec Ed)))
        as (l & t & -> & Hl & Ht & _).
      cbn [app].
      rewrite !no_space_run_skip, IHr; try reflexivity;
        apply surrogate_not_space;
        rewrite ?Hl, ?Ht, ?Ec, ?Ed, ?orb_true_r; reflexivity.
    + rewrite (@no_space_run_unit_app _ _ c).
      * rewrite lower_go_space_head, IHd. symmetry.
        apply no_space_run_cons.
      * apply lower_unit_spec.
      * apply lower_unit_space.
      * apply lower_unit_of_space.
Qed.

Lemma rev_head_app {A : Type} (x y : list A) :
  y <> [] -> hd_error (rev (x ++ y)) = hd_error (rev y).
Proof.
  intros N. rewrite rev_app_distr.
  destruct (rev y) as [|a l] eqn:E; [|reflexivity].
  apply (f_equal (@rev A)) in E. rewrite rev_involutive in E.
  contradiction.
Qed.

Lemma rev_head_Forall (cls : codeunit -> bool) (b : bool) (out : jsstring) :
  out <> [] -> Forall (fun u => cls u = b) out ->
  match hd_error (rev out) with Some u => cls u = b | None => False end.
Proof.
  intros N F. apply Forall_rev in F.
  destruct (rev out) as [|u l] eqn:E.
  - apply (f_equal (@rev codeunit)) in E. rewrite rev_involutive in E.
    contradiction.
  - now inversion F.
Qed.

Lemma lower_go_space_last s :
  forall before,
    is_space_at (hd_error (rev (lower_go before s)))
    = is_space_at (hd_error (rev s)).
Proof.
  induction s as [| c | c d r IHr IHd] using string_pair_ind;
    intros before; [| cbn [lower_go] | rewrite lower_go_pair].
  - reflexivity.
  - destruct (lower_unit_spec before c []) as [N _].
    pose proof (rev_head_Forall is_space N (lower_unit_space before c []))
      as H.
    destruct (hd_error (rev (lower_unit before c []))); [|contradiction].
    exact H.
  - destruct (is_lead c && is_trail d) eqn:E.
    + apply andb_true_iff in E. destruct E as [Ec Ed].
      destruct (surrogates_spec
                  (simple_lowercase_astral (code_point_range _ _ Ec Ed)))
        as (l & t & -> & Hl & Ht & _).
      destruct r as [|e r].
      * cbn. rewrite !surrogate_not_space; try reflexivity;
          rewrite ?Ht, ?Ed, ?orb_true_r; reflexivity.
      * change (c :: d :: e :: r) with ([c; d] ++ e :: r).
        rewrite (@rev_head_app _ [c; d] (e :: r)) by discriminate.
        rewrite (@rev_head_app _ [l; t]); [apply IHr|].
        intros K. apply lower_go_nil in K. discriminate.
    + change (c :: d :: r) with ([c] ++ d :: r).
      rewrite (@rev_head_app _ [c] (d :: r)) by discriminate.
      rewrite (@rev_head_app _ (lower_unit before c (d :: r)));
        [apply IHd|].
      intros K. apply lower_go_nil in K. discriminate.
Qed.

Lemma whitespace_collapsed_lower s :
  whitespace_collapsed s -> whitespace_collapsed (toLowerCase s).
Proof.
  unfold whitespace_collapsed, toLowerCase. intros (H1 & H2 & H3).
  split; [|split].
  - now rewrite lower_go_space_head.
  - now rewrite lower_go_space_last.
  - now rewrite no_space_run_lower_go.
Qed.

(* ===================================================================== *)
(** ** classifyTitle                                                       *)
(* ===================================================================== *)

(** C6. [classifyTitle] is a function of the title alone and returns, for
    every title, one of the three types with the two word lists; the type
    is [brand] exactly when there are brand words and no meaningful other
    word, [mixed] exactly when there are both, and [descriptive] exactly
    when there is no brand word. *)
Theorem classifyTitle_kind_invariant (title : jsstring) :
  let r := classifyTitle title in
  (type r = brand <-> brandWords r <> [] /\ otherWords r = [])
  /\ (type r = mixed <-> brandWords r <> [] /\ otherWords r <> [])
  /\ (type r = descriptive <-> brandWords r = []).
Proof.
  unfold classifyTitle.
  destruct (classify_words (split_ws (trim title)) [] []) as [bw ow].
  set (mo := filter _ ow).
  destruct bw as [|b bw], mo as [|m mo]; cbn;
    repeat split; intros; try discriminate; try tauto;
    intuition discriminate.
Qed.

(** The two lists split the words as the type says: brand words are brand
    tokens, other words are not, and no filler and no word whose lower
    case has fewer than two code units is left among them. *)
Lemma classify_words_sound words :
  forall bw ow,
    Forall (fun w => isBrandToken w = true) bw ->
    Forall (fun w => isBrandToken w = false) ow ->
    Forall (fun w => isBrandToken w = true) (fst (classify_words words bw ow))
    /\ Forall (fun w => isBrandToken w = false)
         (snd (classify_words words bw ow)).
Proof.
  induction words as [|w rest IH]; intros bw ow Hb Ho; [now split|].
  cbn [classify_words].
  destruct (strip punct_full w) as [|c cl] eqn:E; [now apply IH|].
  destruct (isBrandToken (c :: cl)) eqn:B; apply IH; auto;
    apply Forall_app; split; auto.
Qed.

Lemma classifyTitle_partition (title : jsstring) :
  let r := classifyTitle title in
  Forall (fun w => isBrandToken w = true) (brandWords r)
  /\ Forall (fun w => isBrandToken w = false
                      /\ set_has (toLowerCase w) UNIVERSAL_FILLER = false
                      /\ 2 <= length (toLowerCase w)) (otherWords r).
Proof.
  unfold classifyTitle.
  pose proof (classify_words_sound (split_ws (trim title))
                (Forall_nil _) (Forall_nil _)) as [Hb Ho].
  destruct (classify_words (split_ws (trim title)) [] []) as [bw ow].
  simpl in Hb, Ho.
  set (keep := fun w : jsstring => (negb _ && _)%bool).
  assert (Forall (fun w => isBrandToken w = false
                      /\ set_has (toLowerCase w) UNIVERSAL_FILLER = false
                      /\ 2 <= length (toLowerCase w)) (filter keep ow)) as Hm.
  { apply Forall_forall. intros w Hw. apply filter_In in Hw.
    destruct Hw as [Hin Hk]. unfold keep in Hk.
    apply andb_true_iff in Hk. destruct Hk as [Hk1 Hk2].
    apply negb_true_iff in Hk1. apply Nat.leb_le in Hk2.
    repeat split; auto. rewrite Forall_forall in Ho. now apply Ho. }
  destruct (_ && _); [|destruct (_ && _)]; now split.
Qed.

(** C5 as stated fails: the title is [mixed], and the query keeps both
    words and their case. *)
Lemma whatsapp_messenger_not_brand :
  ~ (type (classifyTitle (lit "WhatsApp Messenger")) = brand
     /\ cleanSearchQuery (lit "WhatsApp Messenger") (lit "Communication")
        = Return (lit "whatsapp")).
Proof. intros [H _]. vm_compute in H. discriminate H. Qed.

(** C5 (amended). For the title "WhatsApp Messenger" in the category
    "Communication", [classifyTitle] returns the type [mixed] with the
    brand word "WhatsApp" and the other word "Messenger" (no category is
    consulted), and [cleanSearchQuery] returns the two-word title as it
    is, "WhatsApp Messenger". *)
Theorem whatsapp_messenger_scenario :
  classifyTitle (lit "WhatsApp Messenger")
  = {| type := mixed; brandWords := [lit "WhatsApp"];
       otherWords := [lit "Messenger"] |}
  /\ cleanSearchQuery (lit "WhatsApp Messenger") (lit "Communication")
     = Return (lit "WhatsApp Messenger").
Proof. split; reflexivity. Qed.

(* ===================================================================== *)
(** ** cleanSearchQuery                                                    *)
(* ===================================================================== *)

Lemma at_least_2_or_spec cleaned title :
  (title <> [] -> at_least_2_or cleaned title <> [])
  /\ (2 <= length title -> 2 <= length (at_least_2_or cleaned title)).
Proof.
  unfold at_least_2_or. destruct (2 <=? length cleaned) eqn:E.
  - apply Nat.leb_le in E. split; intros _; [|assumption].
    destruct cleaned; [simpl in E; lia | discriminate].
  - split; auto.
Qed.

(** C3 as stated fails on a title of one character, which comes back as
    it is. *)
Lemma cleanSearchQuery_one_char_title :
  lit "a" <> []
  /\ cleanSearchQuery (lit "a") (lit "Tools") = Return (lit "a")
  /\ length (lit "a") < 2.
Proof. repeat split; [discriminate | simpl; lia]. Qed.

(** C3 (amended). For every title and every category whose name is not
    inherited from [Object.prototype], [cleanSearchQuery] returns a
    query; the query is non-empty when the title is, and has length at
    least 2 when the title has. *)
Theorem cleanSearchQuery_length (title category : jsstring) :
  CATEGORY_FILLER_get category <> Inherited ->
  exists q,
    cleanSearchQuery title category = Return q
    /\ (title <> [] -> q <> [])
    /\ (2 <= length title -> 2 <= length q).
Proof.
  intros Hcat. unfold cleanSearchQuery.
  destruct (length (split_ws (trim title)) <=? 2).
  - eexists. split; [reflexivity | apply at_least_2_or_spec].
  - destruct (CATEGORY_FILLER_get category); [|contradiction|];
      (eexists; split; [reflexivity | apply at_least_2_or_spec]).
Qed.

Lemma cleanSearchQuery_length_witness :
  CATEGORY_FILLER_get (lit "Tools") <> Inherited
  /\ exists q,
       cleanSearchQuery (lit "Free VPN Proxy App") (lit "Tools") = Return q
       /\ (lit "Free VPN Proxy App" <> [] -> q <> [])
       /\ (2 <= length (lit "Free VPN Proxy App") -> 2 <= length q).
Proof.
  split; [vm_compute; discriminate|].
  apply (cleanSearchQuery_length (lit "Free VPN Proxy App") (lit "Tools")).
  vm_compute; discriminate.
Defined.

Lemma soft_clean_normalised title :
  whitespace_collapsed (soft_clean title)
  /\ Forall (fun c => punct_short c = false) (soft_clean title).
Proof.
  split; [apply whitespace_collapsed_trim_collapse|].
  unfold soft_clean. apply Forall_trim.
  apply Forall_collapse_go; [reflexivity|].
  unfold blank. apply Forall_forall. intros c Hc. apply in_map_iff in Hc.
  destruct Hc as [d [<- _]]. destruct (punct_short d) eqn:E; auto.
Qed.

Lemma fallback_clean_normalised title :
  lower_cased (fallback_clean title)
  /\ punctuation_free (fallback_clean title)
  /\ whitespace_collapsed (fallback_clean title).
Proof.
  unfold fallback_clean. split; [|split].
  - apply lower_cased_toLowerCase.
  - apply punctuation_free_lower. apply Forall_trim.
    apply Forall_collapse_go; [reflexivity | apply Forall_blank_punct].
  - apply whitespace_collapsed_lower, whitespace_collapsed_trim_collapse.
Qed.

Lemma finish_clean_normalised title cleaned :
  locally_lower cleaned ->
  (length (fallback_clean title) < 2 /\ finish_clean title cleaned = title)
  \/ normalised (finish_clean title cleaned).
Proof.
  intros Hl. unfold finish_clean.
  set (y := trim (collapse_ws (blank punct_full cleaned))).
  assert (normalised y) as Hy.
  { unfold y. split; [|split].
    - now apply locally_lower_lower_cased, locally_lower_clean.
    - apply Forall_trim.
      apply Forall_collapse_go; [reflexivity | apply Forall_blank_punct].
    - apply whitespace_collapsed_trim_collapse. }
  destruct (_ || _) eqn:G.
  - unfold at_least_2_or. destruct (2 <=? _) eqn:E.
    + right. apply fallback_clean_normalised.
    + left. apply Nat.leb_gt in E. now split.
  - apply orb_false_iff in G. destruct G as [_ G]. apply Nat.ltb_ge in G.
    unfold at_least_2_or. destruct (2 <=? length y) eqn:E;
      [now right | apply Nat.leb_gt in E; lia].
Qed.

(** C4 as stated fails on a title of two words, which keeps its capital
    letters. *)
Lemma cleanSearchQuery_keeps_case_of_short_title :
  cleanSearchQuery (lit "WhatsApp Messenger") (lit "Communication")
  = Return (lit "WhatsApp Messenger")
  /\ toLowerCase (lit "WhatsApp Messenger") <> lit "WhatsApp Messenger".
Proof. split; [reflexivity | discriminate]. Qed.

(* ===================================================================== *)
(** ** parseInstalls                                                       *)
(* ===================================================================== *)

Example installs_match_1234K :
  installs_match (lit "1234K") = Some (lit "1234", lit "K").
Proof. reflexivity. Qed.

Example installs_match_spaced :
  installs_match (lit "1.5  M") = Some (lit "1.5", lit "M").
Proof. reflexivity. Qed.

Example installs_match_none :
  installs_match (lit "N/A") = None.
Proof. reflexivity. Qed.

Example decimal_prefix_two_dots :
  decimal_prefix (lit "1.25.3") = Some (125%Z, 2).
Proof. reflexivity. Qed.

Example decimal_prefix_dot : decimal_prefix (lit ".") = None.
Proof. reflexivity. Qed.

Lemma span_split cls s :
  s = fst (span cls s) ++ snd (span cls s)
  /\ Forall (fun c => cls c = true) (fst (span cls s)).
Proof.
  induction s as [|c r [E F]]; simpl; [split; [reflexivity | constructor]|].
  destruct (cls c) eqn:Hc; [|split; [reflexivity | constructor]].
  destruct (span cls r) as [a b]. simpl in *.
  split; [congruence | now constructor].
Qed.

Lemma span_app cls d r :
  Forall (fun c => cls c = true) d ->
  match r with c :: _ => cls c = false | [] => True end ->
  span cls (d ++ r) = (d, r).
Proof.
  intros Hd Hr. induction Hd as [|c d Hc Hd IH]; simpl.
  - destruct r as [|c r]; simpl; [reflexivity | now rewrite Hr].
  - now rewrite Hc, IH.
Qed.

Lemma trimStart_app ws r :
  Forall (fun c => is_space c = true) ws ->
  match r with c :: _ => is_space c = false | [] => True end ->
  trimStart (ws ++ r) = r.
Proof.
  intros Hw Hr. induction Hw as [|c w Hc Hw IH]; simpl.
  - destruct r as [|c r]; simpl; [reflexivity | now rewrite Hr].
  - now rewrite Hc.
Qed.

Lemma space_not_digit_or_dot c :
  is_space c = true -> is_digit_or_dot c = false.
Proof.
  rewrite is_space_iff. intros H.
  destruct (is_digit_or_dot c) eqn:E; [|reflexivity].
  unfold is_digit_or_dot, is_digit in E. revert E. class_to_prop. lia.
Qed.

Lemma suffix_not_digit_or_dot c :
  is_suffix c = true -> is_digit_or_dot c = false.
Proof.
  unfold is_suffix. class_to_prop. intros H.
  destruct (is_digit_or_dot c) eqn:E; [|reflexivity].
  unfold is_digit_or_dot, is_digit in E. revert E. class_to_prop. lia.
Qed.

Lemma suffix_not_space c : is_suffix c = true -> is_space c = false.
Proof.
  unfold is_suffix. class_to_prop. intros H.
  destruct (is_space c) eqn:E; [|reflexivity].
  apply is_space_iff in E. lia.
Qed.

(** The scanner [installs_match] accepts exactly the strings of the
    pattern, with the groups of the pattern. *)
Lemma installs_match_complete str digits ws suffix :
  matches_pattern str digits ws suffix ->
  installs_match str = Some (digits, suffix).
Proof.
  intros (E & Hne & Hd & Hw & Hs). subst str. unfold installs_match.
  rewrite span_app; [|assumption|].
  - destruct digits as [|d ds]; [congruence|].
    rewrite trimStart_app; [|assumption|].
    + destruct Hs as [-> | [c [-> Hc]]]; [reflexivity | now rewrite Hc].
    + destruct Hs as [-> | [c [-> Hc]]]; [exact I | now apply suffix_not_space].
  - destruct Hw as [|w ws Hw Hws]; simpl.
    + destruct Hs as [-> | [c [-> Hc]]];
        [exact I | now apply suffix_not_digit_or_dot].
    + now apply space_not_digit_or_dot.
Qed.

Lemma installs_match_sound str digits suffix :
  installs_match str = Some (digits, suffix) ->
  exists ws, matches_pattern str digits ws suffix.
Proof.
  unfold installs_match. intros H.
  destruct (span_split is_digit_or_dot str) as [E F].
  destruct (span is_digit_or_dot str) as [g1 r]. simpl in E, F.
  destruct g1 as [|d ds]; [discriminate|].
  destruct (trimStart_split r) as [sp [Er Fsp]].
  destruct (trimStart r) as [|c [|c' t]] eqn:Et; try discriminate.
  - injection H as <- <-. exists sp. unfold matches_pattern.
    rewrite <- Er. repeat split; auto. discriminate.
  - destruct (is_suffix c) eqn:Hc; [|discriminate].
    injection H as <- <-. exists sp. unfold matches_pattern.
    rewrite <- Er. repeat split; auto; [discriminate|].
    right. now exists c.
Qed.

Lemma parseInstalls_1234K : parseInstalls (lit "1,234K+") = Num 1234000.
Proof.
  change (parseInstalls (lit "1,234K+"))
    with (times (parseFloat (lit "1234")) (multiplier (lit "K"))).
  unfold parseFloat.
  change (decimal_prefix (lit "1234")) with (Some (1234%Z, 0)).
  change (multiplier (lit "K")) with 1e3%R.
  simpl. f_equal. lra.
Qed.

Example parseInstalls_dot : parseInstalls (lit ".") = NaN.
Proof. reflexivity. Qed.

(* ===================================================================== *)
(** ** calculateOpportunityScore                                           *)
(* ===================================================================== *)

Section Score.
Local Open Scope R_scope.

Lemma ln_monotone x y : 0 < x -> x <= y -> ln x <= ln y.
Proof.
  intros Hx [H | ->]; [left; now apply ln_increasing | right; reflexivity].
Qed.

Lemma ln_10_pos : 0 < ln 10.
Proof. rewrite <- ln_1. apply ln_increasing; lra. Qed.

Lemma Math_log10_monotone x y :
  0 < x -> x <= y -> Math_log10 x <= Math_log10 y.
Proof.
  intros Hx Hxy. unfold Math_log10, Rdiv.
  apply Rmult_le_compat_r; [|now apply ln_monotone].
  left. apply Rinv_0_lt_compat, ln_10_pos.
Qed.

Lemma Math_log10_1 : Math_log10 1 = 0.
Proof. unfold Math_log10. rewrite ln_1. lra. Qed.

Lemma Math_log10_pow10 n : Math_log10 (10 ^ n) = INR n.
Proof.
  unfold Math_log10. rewrite ln_pow by lra. field.
  apply Rgt_not_eq, ln_10_pos.
Qed.


Lemma Math_round_nearest x z :
  IZR z - / 2 <= x < IZR z + / 2 -> Math_round x = z.
Proof.
  intros H. unfold Math_round. symmetry. apply Int_part_spec. lra.
Qed.

(** The decimal logarithm of ten million and one lies between 7 and
    7.02: the upper bound is [10000001 ^ 50 < 10 ^ 351], decided on the
    integers. *)
Lemma Math_log10_10000001 : 7 <= Math_log10 10000001 < 7.02.
Proof.
  split.
  - replace 7 with (Math_log10 (10 ^ 7)).
    + apply Math_log10_monotone; lra.
    + rewrite Math_log10_pow10. simpl. lra.
  - assert (ln (10000001 ^ 50) < ln (10 ^ 351)) as H.
    { apply ln_increasing; [apply pow_lt; lra|].
      rewrite !pow_IZR. apply IZR_lt. reflexivity. }
    rewrite !ln_pow in H by lra.
    rewrite !INR_IZR_INZ in H. simpl Z.of_nat in H.
    pose proof ln_10_pos as Hp.
    unfold Math_log10.
    apply (Rmult_lt_reg_r (ln 10)); [exact Hp|].
    unfold Rdiv. rewrite Rmult_assoc, Rinv_l by lra. lra.
Qed.

Lemma parseInstalls_10M : parseInstalls (lit "10M+") = Num 10000000.
Proof.
  change (parseInstalls (lit "10M+"))
    with (times (parseFloat (lit "10")) (multiplier (lit "M"))).
  unfold parseFloat.
  change (decimal_prefix (lit "10")) with (Some (10%Z, 0%nat)).
  change (multiplier (lit "M")) with 1e6.
  simpl. f_equal. lra.
Qed.

Lemma calculateOpportunityScore_scenario3 :
  calculateOpportunityScore scenario3 = 85%Z.
Proof.
  unfold calculateOpportunityScore, scenario3. cbv zeta.
  cbn [competitorsCount avgRating maxRating gpRating installs
       installsNum_of].
  rewrite parseInstalls_10M.
  destruct (Rlt_dec 0 10000000) as [_ | C]; [|lra].
  replace (10000000 + 1) with 10000001 by lra.
  pose proof Math_log10_10000001 as [L U].
  set (l := Math_log10 10000001) in *.
  replace (Rmax 0 (1 - 0 / 20)) with 1
    by (unfold Rmax; destruct (Rle_dec 0 (1 - 0 / 20)); lra).
  replace (Rmin 1 (l / 9)) with (l / 9)
    by (unfold Rmin; destruct (Rle_dec 1 (l / 9)); lra).
  replace (Rmax 0 (Rmin 1 ((4.2 - 2.5) / 2))) with 0.85
    by (unfold Rmax, Rmin; destruct (Rle_dec 1 ((4.2 - 2.5) / 2));
        [lra | destruct (Rle_dec 0 ((4.2 - 2.5) / 2)); lra]).
  rewrite (@Math_round_nearest _ 85); [reflexivity | lra].
Qed.







End Score.

(* ===================================================================== *)
(** ** Relevance                                                           *)
(* ===================================================================== *)

Lemma set_has_In x s : set_has x s = true <-> In x s.
Proof.
  unfold set_has. rewrite existsb_exists. split.
  - intros [y [Hin Hy]]. apply str_eqb_eq in Hy. now subst.
  - intros H. exists x. split; [assumption | now apply str_eqb_eq].
Qed.

Lemma set_add_In x y s : In y (set_add x s) <-> In y s \/ y = x.
Proof.
  unfold set_add. destruct (set_has x s) eqn:E.
  - apply set_has_In in E. split; [tauto|]. intros [H | ->]; assumption.
  - rewrite in_app_iff. simpl. intuition congruence.
Qed.

Lemma set_add_NoDup x s : NoDup s -> NoDup (set_add x s).
Proof.
  intros H. unfold set_add. destruct (set_has x s) eqn:E; [assumption|].
  apply NoDup_app; [assumption | repeat constructor; intros [] |].
  intros y Hy [<- | []]. apply set_has_In in Hy. congruence.
Qed.

Lemma fold_set_add l :
  forall acc,
    (forall y, In y (fold_left (fun s x => set_add x s) l acc)
               <-> In y acc \/ In y l)
    /\ (NoDup acc -> NoDup (fold_left (fun s x => set_add x s) l acc)).
Proof.
  induction l as [|x l IH]; intros acc; simpl.
  - split; [intros y; tauto | auto].
  - destruct (IH (set_add x acc)) as [I N]. split.
    + intros y. rewrite I, set_add_In. intuition congruence.
    + intros H. now apply N, set_add_NoDup.
Qed.

Lemma set_of_In l y : In y (set_of l) <-> In y l.
Proof.
  unfold set_of. destruct (fold_set_add l []) as [I _].
  rewrite I. simpl. tauto.
Qed.

Lemma set_of_NoDup l : NoDup (set_of l).
Proof.
  unfold set_of. destruct (fold_set_add l []) as [_ N].
  apply N. constructor.
Qed.

(** Two duplicate-free lists with the same members have the same number
    of members that pass a test. *)
Lemma filter_length_same_members (p : jsstring -> bool) (l1 l2 : list jsstring) :
  NoDup l1 -> NoDup l2 -> (forall y, In y l1 <-> In y l2) ->
  length (filter p l1) = length (filter p l2).
Proof.
  intros N1 N2 H. apply Permutation_length.
  apply NoDup_Permutation; try now apply NoDup_filter.
  intros y. rewrite !filter_In, H. tauto.
Qed.

Lemma length_same_members (l1 l2 : list jsstring) :
  NoDup l1 -> NoDup l2 -> (forall y, In y l1 <-> In y l2) ->
  length l1 = length l2.
Proof.
  intros N1 N2 H. apply Permutation_length.
  now apply NoDup_Permutation.
Qed.

Lemma count_as_filter (p : jsstring -> bool) (l : list jsstring) :
  forall n,
    fold_left (fun n w => if p w then S n else n) l n
    = (n + length (filter p l))%nat.
Proof.
  induction l as [|w l IH]; intros n; simpl; [lia|].
  rewrite IH. destruct (p w); simpl; lia.
Qed.

Lemma word_set_set_of a :
  NoDup (Relevance.word_set a)
  /\ forall y, In y (set_of (tokens a)) <-> In y (Relevance.word_set a).
Proof.
  unfold Relevance.word_set. split; [apply NoDup_nodup|].
  intros y. now rewrite set_of_In, nodup_In.
Qed.

Lemma member_set_has w b :
  set_has w (set_of (tokens b)) = Relevance.member w (Relevance.word_set b).
Proof.
  apply bool_eq_iff. rewrite set_has_In, set_of_In.
  unfold Relevance.member, Relevance.word_set.
  destruct (in_dec (list_eq_dec N.eq_dec) w
              (nodup (list_eq_dec N.eq_dec) (tokens b))) as [H | H];
    rewrite nodup_In in H; intuition congruence.
Qed.

(** The loop of [wordJaccard] computes |A ∩ B| / |A ∪ B|. *)
Lemma wordJaccard_formula a b : wordJaccard a b = Relevance.jaccard a b.
Proof.
  unfold wordJaccard, Relevance.jaccard.
  destruct (word_set_set_of a) as [NA HA], (word_set_set_of b) as [NB HB].
  pose proof (length_same_members (set_of_NoDup (tokens a)) NA HA) as LA.
  pose proof (length_same_members (set_of_NoDup (tokens b)) NB HB) as LB.
  rewrite LA, LB.
  destruct (Relevance.word_set a) as [|x A] eqn:EA; [reflexivity|].
  destruct (Relevance.word_set b) as [|y B] eqn:EB; [reflexivity|].
  cbn [length Nat.eqb orb]. rewrite <- EA, <- EB in *.
  rewrite count_as_filter. cbn [Nat.add]. f_equal; f_equal.
  - rewrite (filter_ext _ (fun w => Relevance.member w (Relevance.word_set b)))
      by (intros w; apply member_set_has).
    now apply filter_length_same_members; [apply set_of_NoDup| |].
  - apply length_same_members;
      [apply set_of_NoDup | apply NoDup_nodup |].
    intros w. rewrite set_of_In, nodup_In, !in_app_iff, HA, HB. tauto.
Qed.

Section RelevanceBounds.
Local Open Scope R_scope.

Lemma wordJaccard_range a b : 0 <= wordJaccard a b <= 1.
Proof.
  unfold wordJaccard.
  set (setA := set_of (tokens a)). set (setB := set_of (tokens b)).
  destruct ((length setA =? 0)%nat || (length setB =? 0)%nat)%bool eqn:E;
    [lra|].
  apply orb_false_iff in E. destruct E as [EA _]. apply Nat.eqb_neq in EA.
  rewrite count_as_filter. cbn [Nat.add].
  set (i := length (filter _ setA)).
  set (u := length (set_of (setA ++ setB))).
  assert (i <= length setA)%nat as H1 by apply filter_length_le.
  assert (length setA <= u)%nat as H2.
  { apply NoDup_incl_length; [apply set_of_NoDup|].
    intros w Hw. apply set_of_In, in_app_iff. now left. }
  assert (0 < INR u) as Hu by (apply lt_0_INR; lia).
  assert (INR i <= INR u) as Hi by (apply le_INR; lia).
  pose proof (pos_INR i) as Hp.
  pose proof (Rinv_0_lt_compat _ Hu) as Hinv.
  unfold Rdiv. split; [nra|].
  apply (Rmult_le_reg_r (INR u)); [exact Hu|].
  rewrite Rmult_assoc, Rinv_l by lra. lra.
Qed.

End RelevanceBounds.

Lemma is_prefix_iff p s :
  is_prefix p s = true <-> exists after, s = p ++ after.
Proof.
  revert s. induction p as [|x p IH]; intros s; simpl.
  - split; [intros _; now exists s | reflexivity].
  - destruct s as [|y s].
    + split; [discriminate | intros [after H]; discriminate].
    + rewrite andb_true_iff, N.eqb_eq, IH. split.
      * intros [-> [after ->]]. now exists after.
      * intros [after H]. injection H as -> ->. split; [reflexivity|].
        now exists after.
Qed.

Lemma includes_iff a b :
  includes a b = true <-> Relevance.substring_of b a.
Proof.
  unfold Relevance.substring_of. induction a as [|x a IH].
  - cbn [includes]. rewrite orb_false_r, is_prefix_iff. split.
    + intros [after H]. now exists [], after.
    + intros [before [after H]].
      destruct before; [now exists after | discriminate].
  - cbn [includes]. rewrite orb_true_iff, is_prefix_iff, IH. split.
    + intros [[after H] | [before [after H]]].
      * now exists [], after.
      * exists (x :: before), after. simpl. congruence.
    + intros [[|y before] [after H]].
      * left. now exists after.
      * right. injection H as -> ->. now exists before, after.
Qed.

Lemma substringMatch_iff a b :
  substringMatch a b = true <-> Relevance.overlap a b.
Proof.
  unfold substringMatch, Relevance.overlap. cbv zeta.
  set (al := trim (toLowerCase a)). set (bl := trim (toLowerCase b)).
  destruct (Nat.ltb_spec (length al) 2); cbn [orb].
  - split; [discriminate | intros [H1 _]; lia].
  - destruct (Nat.ltb_spec (length bl) 2).
    + split; [discriminate | intros [_ [H1 _]]; lia].
    + rewrite orb_true_iff, !includes_iff. tauto.
Qed.

(* ===================================================================== *)
(** ** checkRuStore                                                        *)
(* ===================================================================== *)

Example encodeURIComponent_ascii :
  encodeURIComponent (lit "photo editor & co")
  = Return (lit "photo%20editor%20%26%20co").
Proof. reflexivity. Qed.

Example encodeURIComponent_cyrillic :
  encodeURIComponent [0x444; 0x43E; 0x442; 0x43E]%N
  = Return (lit "%D1%84%D0%BE%D1%82%D0%BE").
Proof. reflexivity. Qed.

Example encodeURIComponent_lone_surrogate :
  encodeURIComponent [0xD83D]%N = Throw URIError.
Proof. reflexivity. Qed.

Example encodeURIComponent_pair :
  encodeURIComponent [0xD83D; 0xDE00]%N = Return (lit "%F0%9F%98%80").
Proof. reflexivity. Qed.

Section Pipeline.
Local Open Scope R_scope.



(** When [page.close()] rejects, the call rejects, whatever the fetch
    gave: the exception of the [finally] block replaces the report. *)
Lemma checkRuStore_page_not_closed
  (w : World) (cache cache' : cache_t) (title category : jsstring)
  (gpRating : option R) (installs : option installs_t)
  (cleaned searchQuery encoded : jsstring) :
  cleanSearchQuery title category = Return cleaned ->
  search_query w cache (classifyTitle title) cleaned = (cache', searchQuery) ->
  encodeURIComponent searchQuery = Return encoded ->
  context_opens w = true ->
  page_closes w = false ->
  checkRuStore w cache title category gpRating installs
  = (cache', Throw BrowserError).
Proof.
  intros Hclean Hquery Henc Hctx Hclose.
  unfold checkRuStore. now rewrite Hclean, Hquery, Henc, Hctx, Hclose.
Qed.

(** Scenario 3 of the specification, through the whole pipeline. *)
Lemma checkRuStore_scenario3 :
  exists report,
    snd (checkRuStore empty_store [] (lit "WhatsApp") (lit "Communication")
           (Some 4.2) (Some (InstallsStr (lit "10M+"))))
    = Return (report, [])
    /\ Report.competitorsCount report = 0%nat
    /\ Report.opportunityScore report = 85%Z.
Proof.
  eexists. split; [reflexivity|]. split; [reflexivity|].
  apply calculateOpportunityScore_scenario3.
Qed.

Lemma checkRuStore_with_cards
  (w : World) (cache cache' : cache_t) (title category : jsstring)
  (gpRating : option R) (installs : option installs_t)
  (cleaned searchQuery encoded : jsstring) (cards : list Card.t) :
  cleanSearchQuery title category = Return cleaned ->
  search_query w cache (classifyTitle title) cleaned = (cache', searchQuery) ->
  encodeURIComponent searchQuery = Return encoded ->
  context_opens w = true ->
  fetch w = Fetched cards ->
  page_closes w = true ->
  checkRuStore w cache title category gpRating installs
  = (cache',
     Return (assess searchQuery (RUSTORE_SEARCH_URL ++ encoded) cleaned
               gpRating installs cards)).
Proof.
  intros Hclean Hquery Henc Hctx Hfetch Hclose.
  unfold checkRuStore.
  now rewrite Hclean, Hquery, Henc, Hctx, Hfetch, Hclose.
Qed.

(** Every run that returns went through the same steps. *)
Lemma checkRuStore_returns
  (w : World) (cache cache' : cache_t) (title category : jsstring)
  (gpRating : option R) (installs : option installs_t)
  (report : Report.t) (h : heap) :
  checkRuStore w cache title category gpRating installs
  = (cache', Return (report, h)) ->
  exists cleaned searchQuery encoded,
    cleanSearchQuery title category = Return cleaned
    /\ search_query w cache (classifyTitle title) cleaned
       = (cache', searchQuery)
    /\ encodeURIComponent searchQuery = Return encoded
    /\ ((fetch w = NoCards
         /\ (report, h)
            = (no_cards_report searchQuery (RUSTORE_SEARCH_URL ++ encoded)
                 gpRating installs, []))
        \/ exists cards,
             fetch w = Fetched cards
             /\ (report, h)
                = assess searchQuery (RUSTORE_SEARCH_URL ++ encoded) cleaned
                    gpRating installs cards).
Proof.
  unfold checkRuStore. intros H.
  destruct (cleanSearchQuery title category) as [cleaned | e];
    [|discriminate].
  destruct (search_query w cache (classifyTitle title) cleaned)
    as [c q] eqn:Q.
  destruct (encodeURIComponent q) as [encoded | e] eqn:E; [|discriminate].
  destruct (context_opens w); [|discriminate].
  destruct (page_closes w); [|discriminate].
  exists cleaned, q, encoded.
  assert (c = cache') as -> by (destruct (fetch w); congruence).
  split; [reflexivity|]. split; [exact Q|]. split; [exact E|].
  destruct (fetch w) as [|cards].
  - left. split; [reflexivity | congruence].
  - right. exists cards. split; [reflexivity | congruence].
Qed.

(** *** The store after the scoring loop *)

Lemma nth_error_middle (pre : heap) (x : Competitor) (post : heap) :
  nth_error (pre ++ x :: post) (length pre) = Some x.
Proof. induction pre as [|p pre IH]; simpl; auto. Qed.

Lemma update_middle (pre : heap) (x o : Competitor) (post : heap) :
  update (pre ++ x :: post) (length pre) o = pre ++ o :: post.
Proof. induction pre as [|p pre IH]; simpl; [reflexivity | now rewrite IH]. Qed.

Lemma score_all_seq (q cleaned : jsstring) (h : heap) :
  forall pre : heap,
    score_all (seq (length pre) (length h)) q cleaned (pre ++ h)
    = pre ++ map (score_one q cleaned) h.
Proof.
  induction h as [|x h IH]; intros pre; [reflexivity|].
  cbn [length seq score_all map].
  rewrite nth_error_middle, update_middle.
  specialize (IH (pre ++ [score_one q cleaned x])).
  rewrite length_app, Nat.add_1_r, <- !app_assoc in IH. exact IH.
Qed.

Lemma assess_store (q u cleaned : jsstring) (gp : option R)
  (inst : option installs_t) (cards : list Card.t) :
  snd (assess q u cleaned gp inst cards)
  = map (score_one q cleaned) (map new_competitor cards).
Proof.
  unfold assess. cbn [snd].
  rewrite <- (length_map new_competitor cards).
  apply (score_all_seq q cleaned (map new_competitor cards) []).
Qed.

Lemma assess_query (q u cleaned : jsstring) (gp : option R)
  (inst : option installs_t) (cards : list Card.t) :
  Report.searchQuery (fst (assess q u cleaned gp inst cards)) = q.
Proof. reflexivity. Qed.

Lemma insert_by_rating_In (h : heap) (a x : loc) (l : list loc) :
  In x (insert_by_rating h a l) -> x = a \/ In x l.
Proof.
  induction l as [|b l IH]; simpl; [intuition congruence|].
  destruct (Rle_dec _ _); simpl; intuition congruence.
Qed.

Lemma sort_by_rating_In (h : heap) (x : loc) (l : list loc) :
  In x (sort_by_rating h l) -> In x l.
Proof.
  induction l as [|a l IH]; simpl; [tauto|].
  intros H. apply insert_by_rating_In in H. intuition congruence.
Qed.

Lemma firstn_In (n : nat) (x : loc) (l : list loc) :
  In x (firstn n l) -> In x l.
Proof.
  revert l. induction n as [|n IH]; intros [|a l]; simpl; try tauto.
  intros [H | H]; auto.
Qed.

Lemma assess_top (q u cleaned : jsstring) (gp : option R)
  (inst : option installs_t) (cards : list Card.t) :
  let '(report, h) := assess q u cleaned gp inst cards in
  Forall (fun c => (c < length cards)%nat /\ is_relevant h c = true)
    (Report.topCompetitors report).
Proof.
  unfold assess. cbn [Report.topCompetitors].
  apply Forall_forall. intros c Hc.
  apply firstn_In, sort_by_rating_In, filter_In in Hc.
  destruct Hc as [Hseq Hrel]. apply in_seq in Hseq. split; [lia | exact Hrel].
Qed.

Lemma score_one_fields (q cleaned : jsstring) (o : Competitor) :
  name (score_one q cleaned o) = name o
  /\ category (score_one q cleaned o) = category o
  /\ rating (score_one q cleaned o) = rating o
  /\ url (score_one q cleaned o) = url o
  /\ relevance (score_one q cleaned o)
     = Some (calculateRelevance o q cleaned)
  /\ relevant (score_one q cleaned o)
     = Some (accept (calculateRelevance o q cleaned)).
Proof. repeat split; reflexivity. Qed.

Lemma sample_run :
  checkRuStore two_cards [] sample_title sample_category (Some 4.2)
    sample_installs
  = ([], Return (assess sample_title sample_url sample_title (Some 4.2)
                   sample_installs sample_cards)).
Proof.
  apply (@checkRuStore_with_cards two_cards [] [] sample_title
           sample_category (Some 4.2) sample_installs sample_title
           sample_title (lit "WhatsApp%20Messenger") sample_cards);
    reflexivity.
Qed.

(** C10 as stated fails: the loop writes [relevance] and [relevant] into
    the objects that the extraction returned; after the run the store
    holds the two input objects and nothing else, and the first one
    carries both properties. *)
Lemma checkRuStore_writes_into_the_cards :
  exists (report : Report.t) (h : heap) (card : Card.t) (o : Competitor),
    checkRuStore two_cards [] sample_title sample_category (Some 4.2)
      sample_installs = ([], Return (report, h))
    /\ nth_error sample_cards 0 = Some card
    /\ length h = length sample_cards
    /\ nth_error h 0 = Some o
    /\ name o = Card.name card
    /\ relevance (new_competitor card) = None
    /\ relevant (new_competitor card) = None
    /\ relevance o <> None
    /\ relevant o <> None.
Proof.
  pose proof sample_run as Run.
  pose proof (assess_store sample_title sample_url sample_title (Some 4.2)
                sample_installs sample_cards) as St.
  destruct (assess sample_title sample_url sample_title (Some 4.2)
              sample_installs sample_cards) as [report h].
  cbn [snd] in St. subst h.
  eexists report, _, _, _. split; [exact Run|].
  split; [reflexivity|]. split; [reflexivity|]. split; [reflexivity|].
  split; [reflexivity|]. split; [reflexivity|]. split; [reflexivity|].
  split; discriminate.
Qed.

(** C10 (amended). In every run of [checkRuStore] that returns, the store
    holds one object for each card that was fetched and no other; the
    object of a card keeps the name, category, rating and url of the card,
    and the loop has written into that same object the relevance of the
    card and whether it reaches the threshold; the top competitors of the
    report are references to these objects, all of them flagged as
    relevant. *)
Theorem checkRuStore_scores_in_place
  (w : World) (cache cache' : cache_t) (title appCategory : jsstring)
  (gpRating : option R) (installs : option installs_t)
  (report : Report.t) (h : heap) :
  checkRuStore w cache title appCategory gpRating installs
  = (cache', Return (report, h)) ->
  exists (cleaned : jsstring) (cards : list Card.t),
    cleanSearchQuery title appCategory = Return cleaned
    /\ (fetch w = Fetched cards \/ (fetch w = NoCards /\ cards = []))
    /\ length h = length cards
    /\ (forall (i : nat) (card : Card.t),
          nth_error cards i = Some card ->
          exists o : Competitor,
            nth_error h i = Some o
            /\ name o = Card.name card
            /\ category o = Card.category card
            /\ rating o = Card.rating card
            /\ url o = Card.url card
            /\ relevance o
               = Some (calculateRelevance (new_competitor card)
                         (Report.searchQuery report) cleaned)
            /\ relevant o
               = Some (accept (calculateRelevance (new_competitor card)
                                 (Report.searchQuery report) cleaned)))
    /\ Forall (fun c => (c < length cards)%nat /\ is_relevant h c = true)
         (Report.topCompetitors report).
Proof.
  intros H. apply checkRuStore_returns in H.
  destruct H as (cleaned & q & encoded & Hc & _ & _ & H).
  exists cleaned.
  destruct H as [[Hf E] | [cards [Hf E]]].
  - exists []. injection E as -> ->.
    split; [exact Hc|]. split; [now right|]. split; [reflexivity|].
    split; [|constructor].
    intros i card Hi. destruct i; discriminate.
  - exists cards.
    pose proof (assess_store q (RUSTORE_SEARCH_URL ++ encoded) cleaned
                  gpRating installs cards) as St.
    pose proof (assess_top q (RUSTORE_SEARCH_URL ++ encoded) cleaned
                  gpRating installs cards) as Top.
    pose proof (assess_query q (RUSTORE_SEARCH_URL ++ encoded) cleaned
                  gpRating installs cards) as Q.
    rewrite <- E in St, Top, Q. cbn [fst snd] in St, Q.
    split; [exact Hc|]. split; [now left|].
    split; [rewrite St; now rewrite !length_map|].
    split; [|exact Top].
    intros i card Hi. exists (score_one q cleaned (new_competitor card)).
    split; [rewrite St; now do 2 apply map_nth_error|].
    rewrite Q. apply score_one_fields.
Qed.

Lemma checkRuStore_scores_in_place_witness :
  let run := assess sample_title sample_url sample_title (Some 4.2)
               sample_installs sample_cards in
  checkRuStore two_cards [] sample_title sample_category (Some 4.2)
    sample_installs = ([], Return (fst run, snd run))
  /\ exists (cleaned : jsstring) (cards : list Card.t),
       cleanSearchQuery sample_title sample_category = Return cleaned
       /\ (fetch two_cards = Fetched cards
           \/ (fetch two_cards = NoCards /\ cards = []))
       /\ length (snd run) = length cards
       /\ (forall (i : nat) (card : Card.t),
             nth_error cards i = Some card ->
             exists o : Competitor,
               nth_error (snd run) i = Some o
               /\ name o = Card.name card
               /\ category o = Card.category card
               /\ rating o = Card.rating card
               /\ url o = Card.url card
               /\ relevance o
                  = Some (calculateRelevance (new_competitor card)
                            (Report.searchQuery (fst run)) cleaned)
               /\ relevant o
                  = Some (accept (calculateRelevance (new_competitor card)
                                    (Report.searchQuery (fst run)) cleaned)))
       /\ Forall
            (fun c => (c < length cards)%nat
                      /\ is_relevant (snd run) c = true)
            (Report.topCompetitors (fst run)).
Proof.
  intros run.
  assert (checkRuStore two_cards [] sample_title sample_category (Some 4.2)
            sample_installs = ([], Return (fst run, snd run))) as Run
    by (rewrite <- surjective_pairing; apply sample_run).
  split; [exact Run|].
  apply (@checkRuStore_scores_in_place two_cards [] [] sample_title
           sample_category (Some 4.2) sample_installs (fst run) (snd run)).
  exact Run.
Defined.

End Pipeline.

(* ===================================================================== *)
(** * Further properties                                                   *)
(* ===================================================================== *)

(** ** withRetry *)

Lemma first_success_from {A : Type} (fn : nat -> option A) (n : nat) :
  forall start,
    match first_success fn start n with
    | Some a =>
        exists k, k < n /\ fn (start + k) = Some a
                  /\ forall j, j < k -> fn (start + j) = None
    | None => forall k, k < n -> fn (start + k) = None
    end.
Proof.
  induction n as [|n IH]; intros start; cbn [first_success].
  - intros k Hk. lia.
  - destruct (fn start) as [a|] eqn:E.
    + exists 0. rewrite Nat.add_0_r. repeat split; [lia | assumption|].
      intros j Hj. lia.
    + specialize (IH (S start)).
      destruct (first_success fn (S start) n) as [a|].
      * destruct IH as (k & Hk & Hs & Hf). exists (S k).
        rewrite Nat.add_succ_r. repeat split; [lia | assumption|].
        intros [|j] Hj; [now rewrite Nat.add_0_r|].
        rewrite Nat.add_succ_r. apply Hf. lia.
      * intros [|k] Hk; [now rewrite Nat.add_0_r|].
        rewrite Nat.add_succ_r. apply IH. lia.
Qed.

Lemma first_success_Some {A : Type} (fn : nat -> option A)
  (maxRetries : nat) (a : A) :
  first_success fn 1 maxRetries = Some a
  <-> exists k, 1 <= k <= maxRetries /\ fn k = Some a
                /\ forall j, 1 <= j < k -> fn j = None.
Proof.
  pose proof (first_success_from fn maxRetries 1) as H.
  split.
  - intros E. rewrite E in H. destruct H as (k & Hk & Hs & Hf).
    exists (S k). repeat split; try lia; [exact Hs|].
    intros j Hj. replace j with (1 + (j - 1)) by lia. apply Hf. lia.
  - intros (k & Hk & Hs & Hf).
    destruct (first_success fn 1 maxRetries) as [b|].
    + destruct H as (k' & Hk' & Hs' & Hf'). f_equal.
      destruct (Nat.lt_trichotomy k (1 + k')) as [L | [L | L]].
      * specialize (Hf' (k - 1)). replace (1 + (k - 1)) with k in Hf' by lia.
        rewrite Hf' in Hs by lia. discriminate.
      * subst k. congruence.
      * rewrite (Hf (1 + k')) in Hs' by lia. discriminate.
    + specialize (H (k - 1)). replace (1 + (k - 1)) with k in H by lia.
      rewrite H in Hs by lia. discriminate.
Qed.

Lemma first_success_None {A : Type} (fn : nat -> option A)
  (maxRetries : nat) :
  first_success fn 1 maxRetries = None
  <-> forall k, 1 <= k <= maxRetries -> fn k = None.
Proof.
  pose proof (first_success_from fn maxRetries 1) as H.
  split.
  - intros E. rewrite E in H. intros k Hk.
    replace k with (1 + (k - 1)) by lia. apply H. lia.
  - intros Hall. destruct (first_success fn 1 maxRetries) as [b|];
      [|reflexivity].
    destruct H as (k & Hk & Hs & _). rewrite Hall in Hs by lia.
    discriminate.
Qed.

Lemma withRetry_unfold {A : Type} (fn : nat -> option A) (n : nat) :
  forall start,
    withRetry fn start n
    = match n with
      | O => NoAttempt
      | S _ =>
          match first_success fn start n with
          | Some a => Resolved a
          | None => Rejected
          end
      end.
Proof.
  induction n as [|n IH]; intros start; [reflexivity|].
  cbn [withRetry first_success]. destruct (fn start); [reflexivity|].
  destruct n as [|n]; [reflexivity|]. apply IH.
Qed.

Lemma withRetry_attempts {A : Type} (fn : nat -> option A)
  (maxRetries : nat) :
  (forall a,
      withRetry fn 1 maxRetries = Resolved a
      <-> exists k, 1 <= k <= maxRetries /\ fn k = Some a
                    /\ forall j, 1 <= j < k -> fn j = None)
  /\ (withRetry fn 1 maxRetries = Rejected
      <-> 1 <= maxRetries /\ forall k, 1 <= k <= maxRetries -> fn k = None)
  /\ (withRetry fn 1 maxRetries = NoAttempt <-> maxRetries = 0).
Proof.
  rewrite withRetry_unfold.
  destruct maxRetries as [|n].
  - split; [|split].
    + intros a. split; [discriminate|]. intros (k & Hk & _). lia.
    + split; [discriminate|]. intros [H _]. lia.
    + tauto.
  - set (m := S n).
    pose proof (fun a => first_success_Some fn m a) as HS.
    pose proof (first_success_None fn m) as HN.
    destruct (first_success fn 1 m) as [b|] eqn:E.
    + split; [|split].
      * intros a. rewrite <- HS. split; congruence.
      * split; [discriminate|]. intros [_ H]. apply HN in H. discriminate.
      * split; [discriminate | unfold m; discriminate].
    + split; [|split].
      * intros a. rewrite <- HS. split; discriminate.
      * split; [intros _; split; [unfold m; lia | now apply HN]
               | reflexivity].
      * split; [discriminate | unfold m; discriminate].
Qed.

(** X1. [withRetry] resolves with the result of the first attempt that
    succeeds among the attempts 1 to [maxRetries]; it rejects exactly
    when there is an attempt to make and all of them fail; and with
    [maxRetries] 0 it makes no attempt and resolves with [undefined]. *)
Theorem withRetry_first_success {A : Type} (fn : nat -> option A)
  (maxRetries : nat) :
  (forall a,
      withRetry fn 1 maxRetries = Resolved a
      <-> exists k, 1 <= k <= maxRetries /\ fn k = Some a
                    /\ forall j, 1 <= j < k -> fn j = None)
  /\ (withRetry fn 1 maxRetries = Rejected
      <-> 1 <= maxRetries /\ forall k, 1 <= k <= maxRetries -> fn k = None)
  /\ (withRetry fn 1 maxRetries = NoAttempt <-> maxRetries = 0).
Proof. exact (withRetry_attempts fn maxRetries). Qed.

(** ** translateToRussian *)

Lemma cache_get_miss_app (text : jsstring) (cache : cache_t) (v : jsstring) :
  cache_get text cache = None ->
  cache_get text (cache ++ [(text, v)]) = Some v.
Proof.
  induction cache as [|[k w] cache IH]; simpl; intros H.
  - unfold str_eqb. destruct (list_eq_dec N.eq_dec text text); congruence.
  - destruct (str_eqb text k); [discriminate | now apply IH].
Qed.

Lemma cache_get_In (text v : jsstring) (cache : cache_t) :
  cache_get text cache = Some v -> In (text, v) cache.
Proof.
  induction cache as [|[k w] cache IH]; simpl; [discriminate|].
  destruct (str_eqb text k) eqn:E.
  - apply str_eqb_eq in E. intros H. injection H as ->. left. congruence.
  - intros H. right. now apply IH.
Qed.

Lemma cache_get_None (text : jsstring) (cache : cache_t) :
  cache_get text cache = None -> ~ In text (map fst cache).
Proof.
  induction cache as [|[k w] cache IH]; simpl; [tauto|].
  destruct (str_eqb text k) eqn:E; [discriminate|].
  intros H [K | K]; [|now apply IH].
  subst k. unfold str_eqb in E.
  destruct (list_eq_dec N.eq_dec text text); congruence.
Qed.

Lemma translateToRussian_cases
  (srv : nat -> jsstring -> option jsstring) (cache : cache_t)
  (text : jsstring) :
  let '(cache', r) := translateToRussian srv cache text in
  (cache' = cache /\ r = text)
  \/ (cache' = cache /\ existsb is_cyrillic text = false
      /\ cache_get text cache = Some r)
  \/ (cache' = cache ++ [(text, r)]
      /\ existsb is_cyrillic text = false
      /\ cache_get text cache = None
      /\ r <> [] /\ toLowerCase r <> toLowerCase text
      /\ exists k, 1 <= k <= 3 /\ srv k text = Some r
                   /\ forall j, 1 <= j < k -> srv j text = None).
Proof.
  unfold translateToRussian.
  destruct (existsb is_cyrillic text) eqn:Cy; [now left|].
  destruct (cache_get text cache) as [cached|] eqn:G;
    [right; left; auto|].
  destruct (withRetry (fun k => srv k text) 1 3) as [[|c tr]| |] eqn:W;
    try now left.
  destruct (negb (str_eqb (toLowerCase (c :: tr)) (toLowerCase text)))
    eqn:D; [|now left].
  right; right. apply negb_true_iff in D.
  split; [reflexivity|]. split; [reflexivity|]. split; [reflexivity|].
  split; [discriminate|]. split.
  - intros E. apply str_eqb_eq in E. congruence.
  - now apply (proj1 (withRetry_attempts (fun k => srv k text) 3)).
Qed.

(** X2. What [translateToRussian] can do: give the text back with the
    cache as it was; serve a cached translation with the cache as it was;
    or, after a miss on a text without Cyrillic letters, return the
    answer of the first attempt that succeeds among three, provided it is
    not empty and differs from the text beyond case, and append it to the
    cache. *)
Theorem translateToRussian_outcome
  (srv : nat -> jsstring -> option jsstring) (cache : cache_t)
  (text : jsstring) :
  let '(cache', r) := translateToRussian srv cache text in
  (cache' = cache /\ r = text)
  \/ (cache' = cache /\ existsb is_cyrillic text = false
      /\ cache_get text cache = Some r)
  \/ (cache' = cache ++ [(text, r)]
      /\ existsb is_cyrillic text = false
      /\ cache_get text cache = None
      /\ r <> [] /\ toLowerCase r <> toLowerCase text
      /\ exists k, 1 <= k <= 3 /\ srv k text = Some r
                   /\ forall j, 1 <= j < k -> srv j text = None).
Proof. exact (translateToRussian_cases srv cache text). Qed.

(** X3. A text with a Cyrillic letter comes back as it is, and so does a
    text that is not in the cache when each of the three attempts fails,
    answers with the empty string, or answers with the text itself up to
    case; the cache is not touched. *)
Theorem translateToRussian_fallback
  (srv : nat -> jsstring -> option jsstring) (cache : cache_t)
  (text : jsstring) :
  existsb is_cyrillic text = true
  \/ (cache_get text cache = None
      /\ forall k, 1 <= k <= 3 ->
           srv k text = None \/ srv k text = Some []
           \/ exists t, srv k text = Some t
                        /\ toLowerCase t = toLowerCase text) ->
  translateToRussian srv cache text = (cache, text).
Proof.
  intros [Cy | [G F]]; unfold translateToRussian; [now rewrite Cy|].
  destruct (existsb is_cyrillic text); [reflexivity|]. rewrite G.
  destruct (withRetry (fun k => srv k text) 1 3) as [[|c tr]| |] eqn:W;
    try reflexivity.
  apply (proj1 (withRetry_attempts (fun k => srv k text) 3)) in W.
  destruct W as (k & Hk & Hs & _).
  destruct (F k Hk) as [N | [N | [t [N E]]]]; try congruence.
  assert (t = c :: tr) by congruence. subst t.
  apply str_eqb_eq in E. now rewrite E.
Qed.

Lemma translateToRussian_fallback_witness :
  (existsb is_cyrillic (lit "photo editor") = true
   \/ (cache_get (lit "photo editor") [] = None
       /\ forall k, 1 <= k <= 3 ->
            @None jsstring = None \/ @None jsstring = Some []
            \/ exists t, @None jsstring = Some t
                         /\ toLowerCase t = toLowerCase (lit "photo editor")))
  /\ translateToRussian (fun _ _ => None) [] (lit "photo editor")
     = ([], lit "photo editor").
Proof.
  assert (existsb is_cyrillic (lit "photo editor") = true
          \/ (cache_get (lit "photo editor") [] = None
              /\ forall k, 1 <= k <= 3 ->
                   @None jsstring = None \/ @None jsstring = Some []
                   \/ exists t, @None jsstring = Some t
                        /\ toLowerCase t = toLowerCase (lit "photo editor")))
    as H by (right; split; [reflexivity | intros k _; now left]).
  split; [exact H|].
  apply (translateToRussian_fallback (fun _ _ => None) []
           (lit "photo editor")).
  exact H.
Defined.

(** X4. Once a call has returned something else than the text, every
    later call on that text returns the same string from the cache,
    whatever the service answers then, and leaves the cache alone. *)
Theorem translateToRussian_cached
  (srv srv' : nat -> jsstring -> option jsstring) (cache cache' : cache_t)
  (text r : jsstring) :
  translateToRussian srv cache text = (cache', r) ->
  r <> text ->
  translateToRussian srv' cache' text = (cache', r).
Proof.
  intros H Hr.
  pose proof (translateToRussian_cases srv cache text) as O.
  rewrite H in O.
  destruct O as [[_ E] | [(-> & Cy & G) | (-> & Cy & G & _)]];
    [contradiction| |]; unfold translateToRussian; rewrite Cy.
  - now rewrite G.
  - now rewrite (cache_get_miss_app text cache r G).
Qed.

Lemma translateToRussian_cached_witness :
  translateToRussian (fun _ _ => Some (lit "editor")) [] (lit "redaktor")
  = ([(lit "redaktor", lit "editor")], lit "editor")
  /\ lit "editor" <> lit "redaktor"
  /\ translateToRussian (fun _ _ => None)
       [(lit "redaktor", lit "editor")] (lit "redaktor")
     = ([(lit "redaktor", lit "editor")], lit "editor").
Proof.
  split; [reflexivity|]. split; [discriminate|].
  apply (@translateToRussian_cached (fun _ _ => Some (lit "editor"))
           (fun _ _ => None) [] [(lit "redaktor", lit "editor")]
           (lit "redaktor") (lit "editor")); [reflexivity | discriminate].
Defined.

(** X5. The cache is only appended to and stays well formed: one entry
    per text, none for a text with Cyrillic letters, no empty or
    unchanged translation; and with such a cache a non-empty text never
    gets an empty answer. *)
Theorem translateToRussian_keeps_cache
  (srv : nat -> jsstring -> option jsstring) (cache : cache_t)
  (text : jsstring) :
  cache_ok cache ->
  let '(cache', r) := translateToRussian srv cache text in
  cache_ok cache'
  /\ (exists added, cache' = cache ++ added)
  /\ (text <> [] -> r <> []).
Proof.
  intros [ND F].
  pose proof (translateToRussian_cases srv cache text) as O.
  destruct (translateToRussian srv cache text) as [cache' r].
  destruct O as [[-> ->] | [(-> & Cy & G) | (-> & Cy & G & Hne & Hd & _)]].
  - split; [now split|]. split; [exists []; now rewrite app_nil_r | auto].
  - split; [now split|]. split; [exists []; now rewrite app_nil_r|].
    intros _. apply cache_get_In in G.
    rewrite Forall_forall in F. now destruct (F _ G) as (_ & H & _).
  - split; [|split; [now exists [(text, r)] | auto]].
    split.
    + rewrite map_app. simpl. apply NoDup_app; [assumption | | ].
      * repeat constructor. intros [].
      * intros k Hk [<- | []]. now apply cache_get_None in G.
    + apply Forall_app. split; [assumption|]. now repeat constructor.
Qed.

Lemma translateToRussian_keeps_cache_witness :
  cache_ok []
  /\ cache_ok [(lit "redaktor", lit "editor")]
  /\ (exists added, [(lit "redaktor", lit "editor")] = [] ++ added)
  /\ (lit "redaktor" <> [] -> lit "editor" <> []).
Proof.
  assert (cache_ok []) as H by (split; constructor).
  split; [exact H|].
  apply (@translateToRussian_keeps_cache (fun _ _ => Some (lit "editor"))
           [] (lit "redaktor") H).
Defined.

(** ** isBrandToken and classifyTitle *)

Lemma classify_words_filter (words : list jsstring) :
  forall bw ow,
    classify_words words bw ow
    = (bw ++ filter isBrandToken
              (filter (fun w => match w with [] => false | _ => true end)
                 (map (strip punct_full) words)),
       ow ++ filter (fun w => negb (isBrandToken w))
              (filter (fun w => match w with [] => false | _ => true end)
                 (map (strip punct_full) words))).
Proof.
  induction words as [|w rest IH]; intros bw ow; cbn [classify_words map].
  - cbn. now rewrite !app_nil_r.
  - destruct (strip punct_full w) as [|c cl] eqn:E; cbn [filter].
    + apply IH.
    + destruct (isBrandToken (c :: cl)) eqn:B; rewrite IH; cbn [negb];
        now rewrite <- app_assoc.
Qed.

Lemma classifyTitle_lists (title : jsstring) :
  brandWords (classifyTitle title)
  = filter isBrandToken (clean_words title)
  /\ otherWords (classifyTitle title)
     = filter (fun w => negb (isBrandToken w) && meaningful w)
         (clean_words title).
Proof.
  unfold classifyTitle, clean_words.
  rewrite classify_words_filter. cbn [app].
  set (ws := filter _ (map _ _)).
  assert (filter (fun w => negb (set_has (toLowerCase w) UNIVERSAL_FILLER)
                           && (2 <=? length (toLowerCase w)))
            (filter (fun w => negb (isBrandToken w)) ws)
          = filter (fun w => negb (isBrandToken w) && meaningful w) ws) as E.
  { induction ws as [|w ws IH]; [reflexivity|]. cbn [filter].
    destruct (isBrandToken w); cbn [negb andb filter]; [exact IH|].
    unfold meaningful at 1. destruct (_ && _); now rewrite IH. }
  destruct (_ && _); [|destruct (_ && _)]; cbn [brandWords otherWords];
    now rewrite E.
Qed.

(** X6. [classifyTitle] lists, in the order of the title and with their
    case, the non-empty punctuation-stripped words that are brand tokens,
    and those that are not, less the universal fillers and the words
    whose lower case has a single code unit. *)
Theorem classifyTitle_words (title : jsstring) :
  brandWords (classifyTitle title)
  = filter isBrandToken (clean_words title)
  /\ otherWords (classifyTitle title)
     = filter (fun w => negb (isBrandToken w) && meaningful w)
         (clean_words title).
Proof. exact (classifyTitle_lists title). Qed.

(** The length that counts is the one of the lower case: a capital I
    with a dot is a word of two code units there, and the title is
    [mixed]. *)
Example classifyTitle_dotted :
  classifyTitle (lit "WhatsApp " ++ [0x130%N])
  = {| type := mixed; brandWords := [lit "WhatsApp"];
       otherWords := [[0x130%N]] |}.
Proof. vm_compute. reflexivity. Qed.

Lemma lower_not_other c :
  is_lower c = true ->
  is_upper c = false /\ is_digit c = false /\ is_trademark c = false.
Proof.
  unfold is_lower, is_upper, is_digit, is_trademark.
  rewrite between_iff. intros H. repeat split.
  - destruct (between 65 90 c) eqn:E; [apply between_iff in E; lia | auto].
  - destruct (between 48 57 c) eqn:E; [apply between_iff in E; lia | auto].
  - apply orb_false_iff; split; [apply orb_false_iff; split|];
      apply N.eqb_neq; lia.
Qed.

Lemma alpha_not_other c :
  is_alpha c = true -> is_digit c = false /\ is_trademark c = false.
Proof.
  unfold is_alpha, is_lower, is_upper, is_digit, is_trademark.
  rewrite orb_true_iff, !between_iff. intros H. split.
  - destruct (between 48 57 c) eqn:E; [apply between_iff in E; lia | auto].
  - apply orb_false_iff; split; [apply orb_false_iff; split|];
      apply N.eqb_neq; lia.
Qed.

Lemma has_camel_lower_tail c r :
  forallb is_lower r = true -> has_camel (c :: r) = false.
Proof.
  revert c. induction r as [|d r IH]; intros c H; [reflexivity|].
  cbn [forallb] in H. apply andb_true_iff in H. destruct H as [Hd Hr].
  change (has_camel (c :: d :: r))
    with ((is_lower c && is_upper d) || has_camel (d :: r)).
  rewrite (IH d Hr).
  destruct (lower_not_other d Hd) as (U & _). now rewrite U, andb_false_r.
Qed.

Lemma existsb_false_forallb (p q : codeunit -> bool) (s : jsstring) :
  (forall c, q c = true -> p c = false) ->
  forallb q s = true -> existsb p s = false.
Proof.
  intros H. induction s as [|c s IH]; [reflexivity|].
  cbn. rewrite andb_true_iff. intros [Hc Hs]. now rewrite (H c Hc), IH.
Qed.

Lemma plain_word_not_brand (w : jsstring) :
  plain_word w = true -> isBrandToken w = false.
Proof.
  destruct w as [|c r]; [reflexivity|]. cbn [plain_word].
  rewrite andb_true_iff. intros [Hc Hr].
  unfold isBrandToken. rewrite (has_camel_lower_tail c r Hr).
  assert (all_caps (c :: r) = false) as ->.
  { unfold all_caps. destruct r as [|d r]; [reflexivity|].
    cbn [forallb] in *. apply andb_true_iff in Hr. destruct Hr as [Hd _].
    destruct (lower_not_other d Hd) as (U & _).
    now rewrite U, andb_false_r, andb_false_r. }
  assert (existsb is_digit (c :: r) = false) as ->.
  { cbn [existsb]. destruct (alpha_not_other c Hc) as [-> _].
    apply (existsb_false_forallb is_digit is_lower); [|assumption].
    intros d Hd. now destruct (lower_not_other d Hd) as (_ & D & _). }
  rewrite andb_false_r.
  assert (existsb is_trademark (c :: r) = false) as ->; [|reflexivity].
  cbn [existsb]. destruct (alpha_not_other c Hc) as [_ ->].
  apply (existsb_false_forallb is_trademark is_lower); [|assumption].
  intros d Hd. now destruct (lower_not_other d Hd) as (_ & _ & D).
Qed.

(** X7. A title whose words are all written with letters only, with no
    capital after the first letter of a word, has no brand word and is
    [descriptive], however the words look like names. *)
Theorem classifyTitle_plain_words (title : jsstring) :
  Forall (fun w => plain_word w = true) (clean_words title) ->
  type (classifyTitle title) = descriptive
  /\ brandWords (classifyTitle title) = [].
Proof.
  intros H.
  destruct (classifyTitle_lists title) as [B _].
  assert (brandWords (classifyTitle title) = []) as E.
  { rewrite B. clear B.
    induction H as [|w ws Hw Hws IH]; [reflexivity|].
    cbn [filter]. rewrite (plain_word_not_brand w Hw). exact IH. }
  split; [|exact E].
  revert E. unfold classifyTitle.
  destruct (classify_words _ [] []) as [bw ow].
  destruct bw; [|destruct (_ && _); [|destruct (_ && _)]; discriminate].
  intros _. reflexivity.
Qed.

Lemma classifyTitle_plain_words_witness :
  Forall (fun w => plain_word w = true) (clean_words (lit "Spotify Music"))
  /\ type (classifyTitle (lit "Spotify Music")) = descriptive
  /\ brandWords (classifyTitle (lit "Spotify Music")) = [].
Proof.
  assert (Forall (fun w => plain_word w = true)
            (clean_words (lit "Spotify Music"))) as H
    by (repeat constructor).
  split; [exact H|].
  apply (classifyTitle_plain_words (lit "Spotify Music") H).
Defined.

(** ** cleanSearchQuery *)

Lemma length_trimStart s : length (trimStart s) <= length s.
Proof.
  induction s as [|c r IH]; simpl; [lia|].
  destruct (is_space c); simpl; lia.
Qed.

Lemma length_trim s : length (trim s) <= length s.
Proof.
  unfold trim, trimEnd. rewrite length_rev.
  pose proof (length_trimStart (rev (trimStart s))) as H.
  rewrite length_rev in H. pose proof (length_trimStart s). lia.
Qed.

Lemma length_collapse_go b s : length (collapse_go b s) <= length s.
Proof.
  revert b. induction s as [|c r IH]; intros b; simpl; [lia|].
  pose proof (IH true). pose proof (IH false).
  destruct (is_space c); [destruct b|]; simpl; lia.
Qed.

Lemma length_blank cls s : length (blank cls s) = length s.
Proof. apply length_map. Qed.

Lemma length_replace_word_go pat s :
  forall k prev, length (replace_word_go pat k prev s) <= length s.
Proof.
  induction s as [|c r IH]; intros k prev; [simpl; lia|].
  cbn [replace_word_go]. destruct k as [|k].
  - destruct (word_at pat prev (c :: r)); cbn [length];
      specialize (IH (length pat - 1) (Some c)) as H1;
      specialize (IH 0 (Some c)) as H2; lia.
  - specialize (IH k (Some c)). cbn [length]. lia.
Qed.

Lemma length_drop_universal prot phrases :
  forall s, length (fold_left (drop_universal prot) phrases s) <= length s.
Proof.
  induction phrases as [|p ps IH]; intros s; simpl; [lia|].
  specialize (IH (drop_universal prot s p)).
  assert (length (drop_universal prot s p) <= length s); [|lia].
  unfold drop_universal. destruct (_ && _); [lia|].
  apply length_replace_word_go.
Qed.

Lemma length_drop_category prot ws :
  forall s, length (fold_left (drop_category prot) ws s) <= length s.
Proof.
  induction ws as [|p ps IH]; intros s; simpl; [lia|].
  specialize (IH (drop_category prot s p)).
  assert (length (drop_category prot s p) <= length s); [|lia].
  unfold drop_category. destruct (set_has p prot); [lia|].
  apply length_replace_word_go.
Qed.

Lemma length_clean cls s :
  length (trim (collapse_ws (blank cls s))) <= length s.
Proof.
  pose proof (length_trim (collapse_ws (blank cls s))) as H1.
  pose proof (length_collapse_go false (blank cls s)) as H2.
  pose proof (length_blank cls s) as H3.
  unfold collapse_ws in *. lia.
Qed.

Lemma length_at_least_2_or cleaned title :
  length cleaned <= length title ->
  length (at_least_2_or cleaned title) <= length title.
Proof. unfold at_least_2_or. destruct (2 <=? length cleaned); lia. Qed.

(** The lower case of a string is longer than the string by the number
    of its code units U+0130. *)
Lemma length_lower_unit before c rest :
  length (lower_unit before c rest)
  = if N.eq_dec c 0x130 then 2 else 1.
Proof.
  unfold lower_unit. destruct (N.eq_dec c 0x130) as [->|n]; [reflexivity|].
  destruct (c =? 0x3A3)%N; [reflexivity|].
  destruct (N.eqb_spec c 0x130); [contradiction | reflexivity].
Qed.

Lemma surrogate_not_dotted c :
  is_lead c || is_trail c = true -> c <> 0x130%N.
Proof. intros H ->. discriminate H. Qed.

Lemma length_lower_go (s : jsstring) :
  forall before, length (lower_go before s) = length s + dotted s.
Proof.
  unfold dotted.
  induction s as [| c | c d r IHr IHd] using string_pair_ind;
    intros before; [reflexivity | cbn [lower_go] | rewrite lower_go_pair].
  - rewrite length_lower_unit. cbn [count_occ length].
    destruct (N.eq_dec c 0x130); reflexivity.
  - destruct (is_lead c && is_trail d) eqn:E.
    + apply andb_true_iff in E. destruct E as [Ec Ed].
      rewrite length_app, IHr.
      assert (c <> 0x130%N) as Nc
        by (apply surrogate_not_dotted; now rewrite Ec).
      assert (d <> 0x130%N) as Nd
        by (apply surrogate_not_dotted; rewrite Ed; apply orb_true_r).
      cbn [count_occ surrogates length].
      destruct (N.eq_dec c 0x130); [contradiction|].
      destruct (N.eq_dec d 0x130); [contradiction|]. lia.
    + rewrite length_app, IHd, length_lower_unit.
      cbn [count_occ length].
      destruct (N.eq_dec c 0x130); destruct (N.eq_dec d 0x130); lia.
Qed.

Lemma length_toLowerCase (s : jsstring) : length (toLowerCase s) = length s + dotted s.
Proof. apply length_lower_go. Qed.

Lemma dotted_trimStart (s : jsstring) : dotted (trimStart s) <= dotted s.
Proof.
  unfold dotted.
  induction s as [|c r IH]; cbn [trimStart count_occ]; [lia|].
  destruct (is_space c); cbn [count_occ]; destruct (N.eq_dec c 0x130); lia.
Qed.

Lemma dotted_trim (s : jsstring) : dotted (trim s) <= dotted s.
Proof.
  unfold trim, trimEnd, dotted. rewrite count_occ_rev.
  eapply Nat.le_trans; [apply dotted_trimStart|].
  unfold dotted. rewrite count_occ_rev. apply dotted_trimStart.
Qed.

Lemma dotted_collapse_go b (s : jsstring) : dotted (collapse_go b s) <= dotted s.
Proof.
  unfold dotted. revert b. induction s as [|c r IH]; intros b;
    cbn [collapse_go count_occ]; [lia|].
  pose proof (IH true). pose proof (IH false).
  destruct (is_space c) eqn:E; [destruct b|]; cbn [count_occ];
    destruct (N.eq_dec c 0x130) as [->|n]; try discriminate E; try lia.
  all: change (N.eq_dec SP 0x130) with (N.eq_dec 32 0x130);
    destruct (N.eq_dec 32 0x130) as [e|_]; [discriminate e | lia].
Qed.

Lemma dotted_blank cls (s : jsstring) : dotted (blank cls s) <= dotted s.
Proof.
  unfold blank, dotted.
  induction s as [|c r IH]; cbn [map count_occ]; [lia|].
  destruct (cls c).
  - change (N.eq_dec SP 0x130) with (N.eq_dec 32 0x130).
    destruct (N.eq_dec 32 0x130) as [e|_]; [discriminate e|].
    destruct (N.eq_dec c 0x130); lia.
  - destruct (N.eq_dec c 0x130); lia.
Qed.

Lemma dotted_clean cls (s : jsstring) :
  dotted (trim (collapse_ws (blank cls s))) <= dotted s.
Proof.
  pose proof (dotted_trim (collapse_ws (blank cls s))) as H1.
  pose proof (dotted_collapse_go false (blank cls s)) as H2.
  pose proof (dotted_blank cls s) as H3.
  unfold collapse_ws in *. lia.
Qed.

Lemma length_fallback_clean (title : jsstring) :
  length (fallback_clean title) <= length title + dotted title.
Proof.
  unfold fallback_clean. rewrite length_toLowerCase.
  pose proof (length_clean punct_full title).
  pose proof (dotted_clean punct_full title). lia.
Qed.

Lemma length_finish_clean (title cleaned : jsstring) :
  length cleaned <= length title + dotted title ->
  length (finish_clean title cleaned) <= length title + dotted title.
Proof.
  intros H. unfold finish_clean, at_least_2_or.
  pose proof (length_fallback_clean title).
  pose proof (length_clean punct_full cleaned).
  destruct (_ || _); destruct (2 <=? _); lia.
Qed.

Lemma Return_inj {A : Type} (a b : A) : Return a = Return b -> a = b.
Proof. congruence. Qed.

(** X8. The query is never longer than the lower case of the title,
    which is the title and one more code unit for each U+0130 in it;
    and the query of a title of one or two words is no longer than the
    title and made of its code units and of spaces: there the cleanup
    only removes and blanks. *)
Theorem cleanSearchQuery_from_title (title appCategory q : jsstring) :
  cleanSearchQuery title appCategory = Return q ->
  length q <= length title + dotted title
  /\ (length (split_ws (trim title)) <= 2 ->
      length q <= length title
      /\ Forall (fun c => c = SP \/ In c title) q).
Proof.
  unfold cleanSearchQuery.
  destruct (length (split_ws (trim title)) <=? 2) eqn:E.
  - intros H. injection H as <-.
    assert (length (at_least_2_or (soft_clean title) title) <= length title)
      as L by apply length_at_least_2_or, length_clean.
    split; [lia|]. intros _. split; [exact L|].
    assert (Forall (fun c => c = SP \/ In c title) title) as T
      by (apply Forall_forall; intros c Hc; now right).
    unfold at_least_2_or. destruct (2 <=? _); [|exact T].
    unfold soft_clean. apply Forall_trim.
    apply Forall_collapse_go; [now left|].
    apply Forall_blank; [now left | exact T].
  - apply Nat.leb_gt in E. set (prot := protect_words _ 0 []).
    assert (length (fold_left (drop_universal prot) UNIVERSAL_FILLER
                      (toLowerCase title))
            <= length title + dotted title) as L1.
    { pose proof (length_drop_universal prot UNIVERSAL_FILLER
                    (toLowerCase title)) as L.
      now rewrite length_toLowerCase in L. }
    destruct (CATEGORY_FILLER_get appCategory) as [ws| |];
      intros H; [|discriminate|]; apply Return_inj in H; subst q.
    + split; [|lia].
      apply length_finish_clean.
      pose proof (length_drop_category prot ws
                    (fold_left (drop_universal prot) UNIVERSAL_FILLER
                       (toLowerCase title))). lia.
    + split; [now apply length_finish_clean | lia].
Qed.

Lemma cleanSearchQuery_from_title_witness :
  cleanSearchQuery (0x130%N :: lit ", Go") (lit "Tools")
  = Return (0x130%N :: lit " Go")
  /\ length (0x130%N :: lit " Go")
     <= length (0x130%N :: lit ", Go")
        + dotted (0x130%N :: lit ", Go")
  /\ length (0x130%N :: lit " Go") <= length (0x130%N :: lit ", Go")
  /\ Forall (fun c => c = SP \/ In c (0x130%N :: lit ", Go"))
       (0x130%N :: lit " Go").
Proof.
  split; [vm_compute; reflexivity|].
  destruct (@cleanSearchQuery_from_title (0x130%N :: lit ", Go")
              (lit "Tools") (0x130%N :: lit " Go")) as [L S];
    [vm_compute; reflexivity|].
  split; [exact L|]. apply S. vm_compute. lia.
Defined.

(** The bound is reached: a title of eleven code units, nine of them
    U+0130, has a query of twenty. *)
Example cleanSearchQuery_dotted :
  cleanSearchQuery
    [0x130; 0x130; 0x130; 32; 0x130; 0x130; 0x130; 32;
     0x130; 0x130; 0x130]%N (lit "Tools")
  = Return [0x69; 0x307; 0x69; 0x307; 0x69; 0x307; 32;
            0x69; 0x307; 0x69; 0x307; 0x69; 0x307; 32;
            0x69; 0x307; 0x69; 0x307; 0x69; 0x307]%N.
Proof. vm_compute. reflexivity. Qed.

Lemma inherited_iff (appCategory : jsstring) :
  CATEGORY_FILLER_get appCategory = Inherited
  <-> In appCategory OBJECT_PROTOTYPE.
Proof.
  split.
  - unfold CATEGORY_FILLER_get.
    destruct (assoc appCategory CATEGORY_FILLER); [discriminate|].
    destruct (set_has appCategory OBJECT_PROTOTYPE) eqn:E; [|discriminate].
    intros _. now apply set_has_In.
  - intros H. simpl in H.
    repeat (destruct H as [<- | H]; [reflexivity|]). destruct H.
Qed.

(** X9. [cleanSearchQuery] throws in one situation only, and then a
    [TypeError]: the title has more than two words and the category is
    the name of a property that every object inherits, such as
    "constructor" or "toString". *)
Theorem cleanSearchQuery_throws (title appCategory : jsstring) (e : exn) :
  cleanSearchQuery title appCategory = Throw e
  <-> e = TypeError
      /\ 2 < length (split_ws (trim title))
      /\ In appCategory OBJECT_PROTOTYPE.
Proof.
  rewrite <- inherited_iff. unfold cleanSearchQuery.
  destruct (Nat.leb_spec (length (split_ws (trim title))) 2) as [L | L].
  - split; [discriminate | intros (_ & H & _); lia].
  - destruct (CATEGORY_FILLER_get appCategory) as [ws| |]; split;
      try discriminate; try (intros (_ & _ & H); discriminate).
    + intros H. injection H as <-. now repeat split.
    + intros (-> & _). reflexivity.
Qed.

Lemma blank_fixed cls s :
  Forall (fun c => cls c = false) s -> blank cls s = s.
Proof.
  unfold blank. induction 1 as [|c r Hc Hr IH]; simpl; [reflexivity|].
  now rewrite Hc, IH.
Qed.

Lemma trimStart_fixed s :
  is_space_at (hd_error s) = false -> trimStart s = s.
Proof. destruct s as [|c r]; simpl; [reflexivity | now intros ->]. Qed.

Lemma trim_fixed s :
  is_space_at (hd_error s) = false ->
  is_space_at (hd_error (rev s)) = false ->
  trim s = s.
Proof.
  intros H1 H2. unfold trim, trimEnd.
  rewrite (trimStart_fixed s H1), (trimStart_fixed (rev s) H2).
  apply rev_involutive.
Qed.

Lemma collapse_go_only_SP b s :
  Forall (fun c => is_space c = true -> c = SP) (collapse_go b s).
Proof.
  revert b. induction s as [|c r IH]; intros b; simpl; [constructor|].
  destruct (is_space c) eqn:E; [destruct b|]; auto.
  constructor; [congruence | apply IH].
Qed.

Lemma collapse_go_fixed s :
  forall b,
    (b = true -> is_space_at (hd_error s) = false) ->
    Forall (fun c => is_space c = true -> c = SP) s ->
    no_space_run s = true ->
    collapse_go b s = s.
Proof.
  induction s as [|c r IH]; intros b Hb HP Hrun; [reflexivity|].
  inversion HP as [|? ? Hc Hr]; subst.
  rewrite no_space_run_cons in Hrun. apply andb_true_iff in Hrun.
  destruct Hrun as [Hadj Hrun]. apply negb_true_iff in Hadj.
  cbn [collapse_go]. destruct (is_space c) eqn:E.
  - destruct b; [specialize (Hb eq_refl); simpl in Hb; congruence|].
    rewrite (Hc eq_refl). f_equal.
    apply IH; auto.
  - f_equal. apply IH; auto. discriminate.
Qed.

Lemma soft_clean_idempotent title :
  soft_clean (soft_clean title) = soft_clean title.
Proof.
  destruct (soft_clean_normalised title) as [(H1 & H2 & H3) HP].
  assert (Forall (fun c => is_space c = true -> c = SP) (soft_clean title))
    as HS by (unfold soft_clean; apply Forall_trim, collapse_go_only_SP).
  unfold soft_clean at 1.
  rewrite (blank_fixed punct_short HP). unfold collapse_ws.
  rewrite collapse_go_fixed; auto; try discriminate.
  now apply trim_fixed.
Qed.

(** X10. Cleaning again a query that came from a title of at most two
    words, and still has at most two words, changes nothing, whatever
    the category. *)
Theorem cleanSearchQuery_short_idempotent
  (title appCategory appCategory' q : jsstring) :
  length (split_ws (trim title)) <= 2 ->
  cleanSearchQuery title appCategory = Return q ->
  length (split_ws (trim q)) <= 2 ->
  cleanSearchQuery q appCategory' = Return q.
Proof.
  intros Ht H Hq. unfold cleanSearchQuery in *.
  apply Nat.leb_le in Ht, Hq. rewrite Ht in H. rewrite Hq.
  apply Return_inj in H. f_equal. unfold at_least_2_or in *.
  destruct (2 <=? length (soft_clean title)) eqn:E.
  - subst q. now rewrite soft_clean_idempotent, E.
  - subst q. now rewrite E.
Qed.

Lemma cleanSearchQuery_short_idempotent_witness :
  length (split_ws (trim (lit " Zoom:  Meetings "))) <= 2
  /\ cleanSearchQuery (lit " Zoom:  Meetings ") (lit "Business")
     = Return (lit "Zoom Meetings")
  /\ length (split_ws (trim (lit "Zoom Meetings"))) <= 2
  /\ cleanSearchQuery (lit "Zoom Meetings") (lit "toString")
     = Return (lit "Zoom Meetings").
Proof.
  split; [simpl; lia|]. split; [reflexivity|]. split; [simpl; lia|].
  apply (@cleanSearchQuery_short_idempotent (lit " Zoom:  Meetings ")
           (lit "Business") (lit "toString") (lit "Zoom Meetings"));
    [simpl; lia | reflexivity | simpl; lia].
Defined.

(** ** wordJaccard and calculateRelevance *)

Section JaccardSets.
Local Open Scope R_scope.

Lemma member_iff w s : Relevance.member w s = true <-> In w s.
Proof.
  unfold Relevance.member.
  destruct (in_dec (list_eq_dec N.eq_dec) w s); intuition congruence.
Qed.

Lemma word_set_In a w : In w (Relevance.word_set a) <-> In w (tokens a).
Proof. unfold Relevance.word_set. apply nodup_In. Qed.

Lemma word_set_nil a : Relevance.word_set a = [] <-> tokens a = [].
Proof.
  split; intros H.
  - destruct (tokens a) as [|w ws] eqn:E; [reflexivity|].
    assert (In w (Relevance.word_set a))
      by (apply word_set_In; rewrite E; now left).
    rewrite H in *. contradiction.
  - unfold Relevance.word_set. now rewrite H.
Qed.

Lemma jaccard_value a b :
  Relevance.word_set a <> [] -> Relevance.word_set b <> [] ->
  Relevance.jaccard a b
  = INR (length (filter (fun w => Relevance.member w (Relevance.word_set b))
                   (Relevance.word_set a)))
    / INR (length (nodup (list_eq_dec N.eq_dec)
                     (Relevance.word_set a ++ Relevance.word_set b))).
Proof.
  intros HA HB. unfold Relevance.jaccard.
  destruct (Relevance.word_set a); [contradiction|].
  destruct (Relevance.word_set b); [contradiction | reflexivity].
Qed.

Lemma jaccard_nil a b :
  Relevance.word_set a = [] \/ Relevance.word_set b = [] ->
  Relevance.jaccard a b = 0.
Proof.
  unfold Relevance.jaccard. intros [-> | ->]; [reflexivity|].
  now destruct (Relevance.word_set a).
Qed.

Lemma wordJaccard_on_sets (a b : jsstring) :
  wordJaccard a b = wordJaccard b a
  /\ (tokens a <> [] ->
      (forall w, In w (tokens a) <-> In w (tokens b)) ->
      wordJaccard a b = 1)
  /\ ((forall w, In w (tokens a) -> ~ In w (tokens b)) ->
      wordJaccard a b = 0).
Proof.
  rewrite !wordJaccard_formula.
  pose proof (NoDup_nodup (list_eq_dec N.eq_dec) (tokens a)) as NA.
  pose proof (NoDup_nodup (list_eq_dec N.eq_dec) (tokens b)) as NB.
  fold (Relevance.word_set a) in NA. fold (Relevance.word_set b) in NB.
  split; [|split].
  - destruct (list_eq_dec (list_eq_dec N.eq_dec) (Relevance.word_set a) [])
      as [EA | EA];
      [rewrite !jaccard_nil; auto|].
    destruct (list_eq_dec (list_eq_dec N.eq_dec) (Relevance.word_set b) [])
      as [EB | EB];
      [rewrite !jaccard_nil; auto|].
    rewrite !jaccard_value by assumption. f_equal; f_equal.
    + apply length_same_members; try now apply NoDup_filter.
      intros w. rewrite !filter_In, !member_iff. tauto.
    + apply length_same_members; try apply NoDup_nodup.
      intros w. rewrite !nodup_In, !in_app_iff. tauto.
  - intros Hne Hsame.
    assert (Relevance.word_set a <> []) as EA by now rewrite word_set_nil.
    assert (Relevance.word_set b <> []) as EB.
    { rewrite word_set_nil. destruct (tokens a) as [|w ws] eqn:E;
        [congruence|].
      intros Hb. specialize (Hsame w). rewrite Hb in Hsame.
      apply Hsame. now left. }
    rewrite jaccard_value by assumption.
    assert (length (filter (fun w => Relevance.member w (Relevance.word_set b))
                      (Relevance.word_set a))
            = length (Relevance.word_set a)) as ->.
    { apply length_same_members; [now apply NoDup_filter | assumption|].
      intros w. rewrite filter_In, member_iff, !word_set_In, <- Hsame.
      tauto. }
    assert (length (nodup (list_eq_dec N.eq_dec)
                      (Relevance.word_set a ++ Relevance.word_set b))
            = length (Relevance.word_set a)) as ->.
    { apply length_same_members; [apply NoDup_nodup | assumption|].
      intros w. rewrite nodup_In, in_app_iff, !word_set_In, <- Hsame.
      tauto. }
    apply Rinv_r. apply not_0_INR.
    destruct (Relevance.word_set a); [contradiction | discriminate].
  - intros Hdis.
    destruct (list_eq_dec (list_eq_dec N.eq_dec) (Relevance.word_set a) [])
      as [EA | EA]; [rewrite jaccard_nil; auto|].
    destruct (list_eq_dec (list_eq_dec N.eq_dec) (Relevance.word_set b) [])
      as [EB | EB]; [rewrite jaccard_nil; auto|].
    rewrite jaccard_value by assumption.
    assert (filter (fun w => Relevance.member w (Relevance.word_set b))
              (Relevance.word_set a) = []) as ->.
    { destruct (filter _ _) as [|w ws] eqn:E; [reflexivity|].
      assert (In w (w :: ws)) as Hw by now left. rewrite <- E in Hw.
      apply filter_In in Hw. destruct Hw as [H1 H2].
      apply member_iff in H2. apply word_set_In in H1, H2.
      now apply Hdis in H1. }
    simpl. unfold Rdiv. apply Rmult_0_l.
Qed.

(** X11. The similarity does not depend on the order of its arguments;
    it is 1 when the two strings have the same words, whatever their
    order, case and repetitions, and 0 when they share none. *)
Theorem wordJaccard_sets (a b : jsstring) :
  wordJaccard a b = wordJaccard b a
  /\ (tokens a <> [] ->
      (forall w, In w (tokens a) <-> In w (tokens b)) ->
      wordJaccard a b = 1)
  /\ ((forall w, In w (tokens a) -> ~ In w (tokens b)) ->
      wordJaccard a b = 0).
Proof. exact (wordJaccard_on_sets a b). Qed.

Lemma wordJaccard_sets_witness :
  tokens (lit "Photo Editor") <> []
  /\ (forall w, In w (tokens (lit "Photo Editor"))
                <-> In w (tokens (lit "editor PHOTO  photo")))
  /\ wordJaccard (lit "Photo Editor") (lit "editor PHOTO  photo") = 1.
Proof.
  assert (tokens (lit "Photo Editor") <> []) as H1
    by (vm_compute; discriminate).
  assert (forall w, In w (tokens (lit "Photo Editor"))
                    <-> In w (tokens (lit "editor PHOTO  photo"))) as H2
    by (intros w; vm_compute; tauto).
  split; [exact H1|]. split; [exact H2|].
  apply (proj1 (proj2 (wordJaccard_sets (lit "Photo Editor")
                         (lit "editor PHOTO  photo"))) H1 H2).
Defined.

(** X12. Which competitors pass the filter: those whose name lies
    inside, or contains, the query or the cleaned title; and, of the
    others, those with a rating whose best similarity is 1/12 at least,
    and those without a rating whose best similarity is 1/4 at least. *)
Theorem calculateRelevance_accepted
  (competitor : Competitor) (searchQuery cleanedTitle : jsstring) :
  let best := Rmax (wordJaccard (name competitor) searchQuery)
                   (wordJaccard (name competitor) cleanedTitle) in
  accept (calculateRelevance competitor searchQuery cleanedTitle) = true
  <-> (substringMatch (name competitor) searchQuery
       || substringMatch (name competitor) cleanedTitle = true
       \/ (rating competitor <> None /\ 1 / 12 <= best)
       \/ 1 / 4 <= best).
Proof.
  cbv zeta. unfold accept, calculateRelevance, RELEVANCE_THRESHOLD.
  pose proof (wordJaccard_range (name competitor) searchQuery) as [Q _].
  pose proof (wordJaccard_range (name competitor) cleanedTitle) as [T _].
  set (best := Rmax _ _).
  assert (0 <= best) by (unfold best, Rmax; destruct (Rle_dec _ _); lra).
  destruct (_ || _)%bool, (rating competitor) as [r|];
    match goal with
    | |- context [Rmin 1 ?s] =>
        unfold Rmin; destruct (Rle_dec 1 s);
        match goal with
        | |- context [Rle_dec 0.15 ?x] => destruct (Rle_dec 0.15 x)
        end
    end;
    split; intros; try reflexivity; try discriminate; try lra;
    try (left; reflexivity);
    try (right; left; split; [discriminate | lra]);
    try (right; right; lra);
    repeat match goal with
           | H : _ \/ _ |- _ => destruct H
           | H : _ /\ _ |- _ => destruct H
           end; try discriminate; try congruence; try lra.
Qed.

End JaccardSets.

(** *** A competitor named like the query *)

Lemma concat_split_go s :
  forall inrun acc,
    (inrun = true -> acc = []) ->
    concat (split_go inrun acc s) = rev acc ++ filter not_space s.
Proof.
  induction s as [|c r IH]; intros inrun acc H; cbn [split_go filter].
  - cbn. now rewrite !app_nil_r.
  - destruct (is_space c) eqn:E.
    + assert (not_space c = false) as ->
        by (unfold not_space; now rewrite E).
      destruct inrun.
      * rewrite (H eq_refl). now rewrite IH.
      * cbn [concat]. now rewrite IH.
    + assert (not_space c = true) as ->
        by (unfold not_space; now rewrite E).
      rewrite IH by discriminate. cbn [rev]. now rewrite <- app_assoc.
Qed.

Lemma filter_trimStart s : filter not_space (trimStart s) = filter not_space s.
Proof.
  induction s as [|c r IH]; [reflexivity|]. cbn [trimStart filter].
  destruct (is_space c) eqn:E; [|reflexivity].
  assert (not_space c = false) as -> by (unfold not_space; now rewrite E).
  exact IH.
Qed.

Lemma filter_rev' (p : codeunit -> bool) (s : jsstring) :
  filter p (rev s) = rev (filter p s).
Proof.
  induction s as [|c r IH]; [reflexivity|]. cbn [rev filter].
  rewrite filter_app, IH. cbn [filter].
  destruct (p c); [reflexivity | now rewrite app_nil_r].
Qed.

Lemma filter_trim s : filter not_space (trim s) = filter not_space s.
Proof.
  unfold trim, trimEnd.
  now rewrite filter_rev', filter_trimStart, filter_rev', rev_involutive,
    filter_trimStart.
Qed.

Lemma length_in_concat (w : jsstring) (l : list jsstring) :
  In w l -> length w <= length (concat l).
Proof.
  induction l as [|x l IH]; [intros []|].
  cbn [concat]. rewrite length_app. intros [-> | H]; [lia|].
  specialize (IH H). lia.
Qed.

Lemma tokens_trimmed_length a :
  tokens a <> [] -> 2 <= length (trim (toLowerCase a)).
Proof.
  unfold tokens.
  destruct (filter _ _) as [|w ws] eqn:E;
    [intros H; now destruct H|]. intros _.
  assert (In w (w :: ws)) as Hw by now left.
  rewrite <- E in Hw. apply filter_In in Hw. destruct Hw as [Hin Hlen].
  apply Nat.leb_le in Hlen. apply length_in_concat in Hin.
  unfold split_ws in Hin. rewrite concat_split_go in Hin by discriminate.
  cbn [rev app] in Hin. rewrite <- filter_trim in Hin.
  pose proof (filter_length_le not_space (trim (toLowerCase a))). lia.
Qed.

Lemma is_prefix_refl s : is_prefix s s = true.
Proof. induction s as [|c r IH]; simpl; [reflexivity|]. now rewrite N.eqb_refl. Qed.

Lemma substringMatch_refl a :
  tokens a <> [] -> substringMatch a a = true.
Proof.
  intros H. apply tokens_trimmed_length in H. unfold substringMatch.
  destruct (Nat.ltb_spec (length (trim (toLowerCase a))) 2); [lia|].
  cbn [orb]. destruct (trim (toLowerCase a)) as [|c r]; [simpl in H; lia|].
  cbn [includes]. now rewrite is_prefix_refl.
Qed.

(** ** parseInstalls *)

Lemma parseInstalls_general (s : jsstring) :
  parseInstalls s
  = match installs_match (toUpperCase (trim (strip is_plus_or_comma s))) with
    | None => Num 0
    | Some (digits, suffix) => times (parseFloat digits) (multiplier suffix)
    end.
Proof.
  unfold parseInstalls. destruct s as [|c r]; [reflexivity|].
  destruct (str_eqb (c :: r) (lit "N/A")) eqn:E; [|reflexivity].
  apply str_eqb_eq in E. now rewrite E.
Qed.

Lemma strip_idempotent cls s : strip cls (strip cls s) = strip cls s.
Proof.
  unfold strip. induction s as [|c r IH]; [reflexivity|]. cbn [filter].
  destruct (negb (cls c)) eqn:E; [|exact IH].
  cbn [filter]. now rewrite E, IH.
Qed.

(** X14. Plus signs and commas are ignored wherever they stand: a string
    and the same string without them parse to the same number. *)
Theorem parseInstalls_ignores_separators (s : jsstring) :
  parseInstalls (strip is_plus_or_comma s) = parseInstalls s.
Proof. now rewrite !parseInstalls_general, strip_idempotent. Qed.

Section InstallsSign.
Local Open Scope R_scope.

Lemma digits_value_nonneg ds :
  forall acc, (0 <= acc)%Z ->
    (0 <= fold_left (fun a c => (10 * a + digit_value c)%Z) ds acc)%Z.
Proof.
  induction ds as [|c ds IH]; intros acc H; [exact H|].
  cbn [fold_left]. apply IH. unfold digit_value. lia.
Qed.

Lemma parseFloat_nonneg digits x : parseFloat digits = Num x -> 0 <= x.
Proof.
  unfold parseFloat, decimal_prefix.
  destruct (span is_digit digits) as [ip r].
  set (fp := match r with 46%N :: r' => fst (span is_digit r') | _ => [] end).
  destruct (ip ++ fp) as [|d ds] eqn:E; [discriminate|].
  intros H. injection H as <-.
  assert (0 <= digits_value (d :: ds))%Z as Hm
    by (apply digits_value_nonneg; lia).
  apply IZR_le in Hm.
  assert (0 < 10 ^ length fp) by (apply pow_lt; lra).
  unfold Rdiv. apply Rmult_le_pos; [exact Hm|].
  left. now apply Rinv_0_lt_compat.
Qed.

Lemma multiplier_pos suffix : 0 < multiplier suffix.
Proof.
  unfold multiplier.
  repeat match goal with
         | |- context [match ?x with _ => _ end] => destruct x
         end; lra.
Qed.

(** X15. [parseInstalls] never gives a negative number. *)
Theorem parseInstalls_not_negative (s : jsstring) (x : R) :
  parseInstalls s = Num x -> 0 <= x.
Proof.
  rewrite parseInstalls_general.
  destruct (installs_match _) as [[digits suffix]|].
  - destruct (parseFloat digits) as [|y] eqn:E; [discriminate|].
    cbn [times]. intros H. injection H as <-.
    apply parseFloat_nonneg in E. pose proof (multiplier_pos suffix). nra.
  - intros H. injection H as <-. lra.
Qed.

Lemma parseInstalls_not_negative_witness :
  parseInstalls (lit "1,234K+") = Num 1234000 /\ 0 <= 1234000.
Proof.
  split; [apply parseInstalls_1234K|].
  apply (@parseInstalls_not_negative (lit "1,234K+") 1234000).
  apply parseInstalls_1234K.
Defined.

End InstallsSign.

(** ** calculateOpportunityScore *)

Section ScoreRange.
Local Open Scope R_scope.

Lemma factor3_range (n : jsnum) :
  0 <= match n with
       | Num n => if Rlt_dec 0 n then Rmin 1 (Math_log10 (n + 1) / 9) else 0
       | NaN => 0
       end <= 1.
Proof.
  destruct n as [|n]; [lra|].
  destruct (Rlt_dec 0 n); [|lra].
  assert (0 <= Math_log10 (n + 1))
    by (rewrite <- Math_log10_1; apply Math_log10_monotone; lra).
  unfold Rmin. destruct (Rle_dec 1 _); lra.
Qed.

Lemma factor4_range x : 0 <= Rmax 0 (Rmin 1 x) <= 1.
Proof.
  unfold Rmax, Rmin. destruct (Rle_dec 1 x);
    match goal with |- context [Rle_dec 0 ?y] => destruct (Rle_dec 0 y) end;
    lra.
Qed.



End ScoreRange.

(** ** The statistics of checkRuStore *)

Section Statistics.
Local Open Scope R_scope.

Lemma nth_error_seq_from (pre h : heap) :
  map (nth_error (pre ++ h)) (seq (length pre) (length h)) = map Some h.
Proof.
  revert pre. induction h as [|x h IH]; intros pre; [reflexivity|].
  cbn [length seq map]. rewrite nth_error_middle. f_equal.
  specialize (IH (pre ++ [x])).
  rewrite length_app, Nat.add_1_r, <- app_assoc in IH. exact IH.
Qed.

Lemma nth_error_seq (h : heap) :
  map (nth_error h) (seq 0 (length h)) = map Some h.
Proof. apply (nth_error_seq_from [] h). Qed.

Lemma filter_map_swap {A B : Type} (f : A -> B) (p : B -> bool) (l : list A) :
  filter p (map f l) = map f (filter (fun x => p (f x)) l).
Proof.
  induction l as [|x l IH]; [reflexivity|]. cbn [map filter].
  destruct (p (f x)); cbn [map]; now rewrite IH.
Qed.

(** The flag and the rating that a reference leads to. *)
Let flagged (o : option Competitor) : bool :=
  match o with
  | Some c => match relevant c with Some true => true | _ => false end
  | None => false
  end.

Let rated (o : option Competitor) : list R :=
  match o with
  | Some c => match rating c with Some r => [r] | None => [] end
  | None => []
  end.

Lemma ratings_flat_map (h : heap) (cs : list loc) :
  ratings h cs = flat_map rated (map (nth_error h) cs).
Proof.
  induction cs as [|c cs IH]; [reflexivity|].
  cbn [ratings map flat_map]. unfold rating_of at 1, rated at 1.
  destruct (nth_error h c) as [o|]; [|exact IH].
  destruct (rating o); cbn [app]; now rewrite IH.
Qed.

Lemma relevant_objects (h : heap) :
  map (nth_error h) (filter (is_relevant h) (seq 0 (length h)))
  = map Some (filter (fun c => flagged (Some c)) h).
Proof.
  rewrite <- (filter_map_swap Some flagged h), <- nth_error_seq.
  now rewrite (filter_map_swap (nth_error h) flagged).
Qed.

Variables searchQuery searchUrl cleaned : jsstring.
Variable gpRating : option R.
Variable appInstalls : option installs_t.
Variable cards : list Card.t.

Let accepted : list Card.t :=
  filter (card_accepted searchQuery cleaned) cards.

Let run := assess searchQuery searchUrl cleaned gpRating appInstalls cards.

Lemma assess_relevant_objects :
  map (nth_error (snd run))
    (filter (is_relevant (snd run)) (seq 0 (length cards)))
  = map (fun card => Some (score_one searchQuery cleaned (new_competitor card)))
      accepted.
Proof.
  unfold run. rewrite assess_store.
  set (h := map (score_one searchQuery cleaned) (map new_competitor cards)).
  replace (length cards) with (length h)
    by (unfold h; now rewrite !length_map).
  rewrite relevant_objects. unfold h, accepted.
  rewrite map_map, filter_map_swap, map_map. f_equal.
  apply filter_ext. intros card.
  unfold card_accepted, card_relevance.
  destruct (score_one_fields searchQuery cleaned (new_competitor card))
    as (_ & _ & _ & _ & _ & F).
  cbv beta. unfold flagged. rewrite F.
  now destruct (accept _).
Qed.

Lemma assess_count :
  Report.competitorsCount (fst run) = length accepted.
Proof.
  pose proof assess_relevant_objects as H.
  apply (f_equal (@length _)) in H. rewrite !length_map in H.
  exact H.
Qed.

Lemma assess_ratings :
  ratings (snd run) (filter (is_relevant (snd run)) (seq 0 (length cards)))
  = card_ratings accepted.
Proof.
  rewrite ratings_flat_map, assess_relevant_objects.
  unfold card_ratings. induction accepted as [|card l IH]; [reflexivity|].
  cbn [map flat_map]. now rewrite IH.
Qed.

End Statistics.

Section Aggregates.
Local Open Scope R_scope.


Lemma sum_Permutation (l l' : list R) : Permutation l l' -> sum l = sum l'.
Proof.
  unfold sum. induction 1; cbn; try lra.
Qed.

Lemma fold_left_Rmax (rs : list R) :
  forall r,
    In (fold_left Rmax rs r) (r :: rs)
    /\ forall x, In x (r :: rs) -> x <= fold_left Rmax rs r.
Proof.
  induction rs as [|y rs IH]; intros r; cbn [fold_left].
  - split; [now left|]. intros x [<- | []]. lra.
  - destruct (IH (Rmax r y)) as [Hin Hmax]. split.
    + destruct Hin as [E | Hin]; [|right; now right].
      rewrite <- E. unfold Rmax. destruct (Rle_dec r y);
        [right; now left | now left].
    + intros x Hx.
      assert (r <= Rmax r y /\ y <= Rmax r y) as [Hr Hy]
        by (unfold Rmax; destruct (Rle_dec r y); lra).
      specialize (Hmax (Rmax r y) (or_introl eq_refl)) as Hm.
      destruct Hx as [<- | [<- | Hx]]; try lra.
      apply Hmax. now right.
Qed.


Lemma Permutation_filter' {A : Type} (p : A -> bool) (l l' : list A) :
  Permutation l l' -> Permutation (filter p l) (filter p l').
Proof.
  induction 1 as [|x l l' H IH|x y l|l l' l'' H1 IH1 H2 IH2]; cbn.
  - constructor.
  - destruct (p x); [now constructor | assumption].
  - destruct (p x), (p y); try apply Permutation_refl.
    apply perm_swap.
  - now apply Permutation_trans with (filter p l').
Qed.

End Aggregates.

Lemma no_cards_is_assess (q u cleaned : jsstring) (gp : option R)
  (inst : option installs_t) :
  assess q u cleaned gp inst [] = (no_cards_report q u gp inst, []).
Proof. reflexivity. Qed.

Lemma checkRuStore_as_assess
  (w : World) (cache cache' : cache_t) (title appCategory : jsstring)
  (gpRating : option R) (appInstalls : option installs_t)
  (report : Report.t) (h : heap) :
  checkRuStore w cache title appCategory gpRating appInstalls
  = (cache', Return (report, h)) ->
  exists cleaned encoded,
    cleanSearchQuery title appCategory = Return cleaned
    /\ search_query w cache (classifyTitle title) cleaned
       = (cache', Report.searchQuery report)
    /\ encodeURIComponent (Report.searchQuery report) = Return encoded
    /\ context_opens w = true
    /\ (report, h)
       = assess (Report.searchQuery report) (RUSTORE_SEARCH_URL ++ encoded)
           cleaned gpRating appInstalls (candidates w).
Proof.
  intros H.
  assert (context_opens w = true) as Hctx.
  { revert H. unfold checkRuStore.
    destruct (cleanSearchQuery title appCategory); [|discriminate].
    destruct (search_query _ _ _ _) as [c q].
    destruct (encodeURIComponent q); [|discriminate].
    destruct (context_opens w); [reflexivity | discriminate]. }
  apply checkRuStore_returns in H.
  destruct H as (cleaned & q & encoded & Hc & Hq & He & H).
  exists cleaned, encoded. unfold candidates.
  destruct H as [[Hf E] | [cards [Hf E]]]; rewrite Hf.
  - rewrite no_cards_is_assess.
    assert (Report.searchQuery report = q) as -> by (now inversion E).
    auto.
  - assert (Report.searchQuery report = q) as ->.
    { apply (f_equal fst) in E. cbn [fst] in E. rewrite E.
      apply assess_query. }
    auto.
Qed.

Section Report.
Local Open Scope R_scope.

Lemma assess_fields (q u cl : jsstring) (gp : option R)
  (inst : option installs_t) (cards : list Card.t) :
  let accepted := filter (card_accepted q cl) cards in
  let rs := card_ratings accepted in
  let avg := match rs with
             | [] => None
             | _ => Some (IZR (Math_round
                                 (fold_left Rplus rs 0 / INR (length rs) * 10))
                          / 10)
             end in
  let max := match rs with
             | [] => None
             | r :: rs' => Some (fold_left Rmax rs' r)
             end in
  fst (assess q u cl gp inst cards)
  = {| Report.searchQuery := q;
       Report.searchUrl := u;
       Report.competitorsCount := length accepted;
       Report.topCompetitors :=
         Report.topCompetitors (fst (assess q u cl gp inst cards));
       Report.avgRating := avg;
       Report.maxRating := max;
       Report.opportunityScore :=
         calculateOpportunityScore
           {| competitorsCount := INR (length accepted);
              avgRating := avg;
              maxRating := max;
              gpRating := or_0 gp;
              installs := or_NA inst |} |}.
Proof.
  cbv zeta.
  pose proof (assess_ratings q u cl gp inst cards) as HR.
  pose proof (assess_count q u cl gp inst cards) as HC.
  unfold assess in *. cbn [fst snd Report.competitorsCount
                           Report.topCompetitors] in *.
  rewrite HR, HC. reflexivity.
Qed.



End Report.

Section OrderAndTop.
Local Open Scope R_scope.

Lemma Permutation_flat_map' {A B : Type} (f : A -> list B) (l l' : list A) :
  Permutation l l' -> Permutation (flat_map f l) (flat_map f l').
Proof.
  induction 1 as [|x l l' H IH|x y l|l l' l'' H1 IH1 H2 IH2]; cbn.
  - constructor.
  - now apply Permutation_app_head.
  - rewrite !app_assoc. apply Permutation_app_tail, Permutation_app_comm.
  - now apply Permutation_trans with (flat_map f l').
Qed.

Lemma maximum_unique (rs rs' : list R) (m m' : R) :
  Permutation rs rs' ->
  In m rs -> (forall x, In x rs -> x <= m) ->
  In m' rs' -> (forall x, In x rs' -> x <= m') ->
  m = m'.
Proof.
  intros P Hm Hmax Hm' Hmax'.
  apply Rle_antisym.
  - apply Hmax'. now apply (Permutation_in _ P).
  - apply Hmax. apply (Permutation_in _ (Permutation_sym P)). exact Hm'.
Qed.

(** X19. The order in which the page lists the cards does not matter to
    the number of competitors nor to the maximal rating: they are the
    same for any rearrangement of the cards.  (The average, a sum of
    doubles taken in the order of the page, is left out: it can differ
    in the last place, and the score with it.) *)
Theorem checkRuStore_order_independent
  (q u cl : jsstring) (gp : option R) (inst : option installs_t)
  (cards cards' : list Card.t) :
  Permutation cards cards' ->
  let r := fst (assess q u cl gp inst cards) in
  let r' := fst (assess q u cl gp inst cards') in
  Report.competitorsCount r = Report.competitorsCount r'
  /\ Report.maxRating r = Report.maxRating r'.
Proof.
  intros P. cbv zeta.
  rewrite (assess_fields q u cl gp inst cards),
    (assess_fields q u cl gp inst cards').
  cbn [Report.competitorsCount Report.maxRating].
  pose proof (Permutation_filter' (card_accepted q cl) P) as PA.
  pose proof (Permutation_flat_map'
                (fun card => match Card.rating card with
                             | Some r => [r]
                             | None => []
                             end) PA) as PR.
  fold (card_ratings (filter (card_accepted q cl) cards)) in PR.
  fold (card_ratings (filter (card_accepted q cl) cards')) in PR.
  pose proof (Permutation_length PA) as LA.
  set (rs := card_ratings (filter (card_accepted q cl) cards)) in *.
  set (rs' := card_ratings (filter (card_accepted q cl) cards')) in *.
  assert (match rs with [] => None | r :: l => Some (fold_left Rmax l r) end
          = match rs' with
            | [] => None
            | r :: l => Some (fold_left Rmax l r)
            end) as EM.
  { pose proof (Permutation_length PR) as LR.
    destruct rs as [|a l], rs' as [|a' l']; try discriminate;
      [reflexivity|].
    f_equal.
    destruct (fold_left_Rmax l a) as [I1 M1].
    destruct (fold_left_Rmax l' a') as [I2 M2].
    exact (maximum_unique PR I1 M1 I2 M2). }
  rewrite EM, LA. split; reflexivity.
Qed.

Lemma checkRuStore_order_independent_witness :
  let r := fst (assess sample_title sample_url sample_title (Some 4.2)
                  sample_installs rated_cards) in
  let r' := fst (assess sample_title sample_url sample_title (Some 4.2)
                   sample_installs (rev rated_cards)) in
  Permutation rated_cards (rev rated_cards)
  /\ Report.competitorsCount r = Report.competitorsCount r'
  /\ Report.maxRating r = Report.maxRating r'.
Proof.
  intros r r'. split; [apply Permutation_rev|].
  apply (@checkRuStore_order_independent sample_title sample_url
           sample_title (Some 4.2) sample_installs rated_cards
           (rev rated_cards)).
  apply Permutation_rev.
Defined.

(** *** The ranking *)

Lemma insert_by_rating_length (h : heap) (a : loc) (l : list loc) :
  length (insert_by_rating h a l) = S (length l).
Proof.
  induction l as [|b l IH]; [reflexivity|]. cbn [insert_by_rating].
  destruct (Rle_dec _ _); cbn [length]; [reflexivity | now rewrite IH].
Qed.

Lemma sort_by_rating_length (h : heap) (l : list loc) :
  length (sort_by_rating h l) = length l.
Proof.
  induction l as [|a l IH]; [reflexivity|]. cbn [sort_by_rating fold_right].
  fold (sort_by_rating h l). now rewrite insert_by_rating_length, IH.
Qed.

Lemma insert_by_rating_In_iff (h : heap) (a x : loc) (l : list loc) :
  In x (insert_by_rating h a l) <-> x = a \/ In x l.
Proof.
  split; [apply insert_by_rating_In|].
  induction l as [|b l IH]; cbn [insert_by_rating].
  - intros [-> | []]. now left.
  - destruct (Rle_dec _ _); cbn [In]; intros [-> | [-> | H]]; auto.
Qed.

Lemma insert_by_rating_sorted (h : heap) (a : loc) (l : list loc) :
  StronglySorted (ranked_before h) l ->
  (forall y, In y l -> a < y)%nat ->
  StronglySorted (ranked_before h) (insert_by_rating h a l).
Proof.
  induction 1 as [|b l Hs IH Hb]; intros Ha; cbn [insert_by_rating].
  - repeat constructor.
  - destruct (Rle_dec (rating_or_0 h b) (rating_or_0 h a)) as [L | L].
    + constructor; [now constructor|].
      apply Forall_forall. intros y Hy.
      assert (a < y)%nat as Hlt by now apply Ha.
      assert (rating_or_0 h y <= rating_or_0 h b) as Hyb.
      { destruct Hy as [<- | Hy]; [lra|].
        rewrite Forall_forall in Hb. destruct (Hb y Hy) as [? | [? ?]]; lra. }
      unfold ranked_before.
      destruct (Rle_lt_or_eq_dec _ _ (Rle_trans _ _ _ Hyb L)); auto.
    + constructor.
      * apply IH. intros y Hy. apply Ha. now right.
      * apply Forall_forall. intros y Hy.
        apply insert_by_rating_In_iff in Hy. destruct Hy as [-> | Hy].
        -- left. lra.
        -- rewrite Forall_forall in Hb. now apply Hb.
Qed.

Lemma sort_by_rating_In_iff (h : heap) (x : loc) (l : list loc) :
  In x (sort_by_rating h l) <-> In x l.
Proof.
  induction l as [|a l IH]; [tauto|].
  cbn [sort_by_rating fold_right]. fold (sort_by_rating h l).
  rewrite insert_by_rating_In_iff, IH. cbn [In]. intuition congruence.
Qed.

Lemma sort_by_rating_sorted (h : heap) (l : list loc) :
  StronglySorted lt l ->
  StronglySorted (ranked_before h) (sort_by_rating h l).
Proof.
  induction 1 as [|a l Hs IH Ha]; [constructor|].
  cbn [sort_by_rating fold_right]. fold (sort_by_rating h l).
  apply insert_by_rating_sorted; [exact IH|].
  intros y Hy. apply sort_by_rating_In_iff in Hy.
  rewrite Forall_forall in Ha. now apply Ha.
Qed.

Lemma seq_sorted (n : nat) : forall start, StronglySorted lt (seq start n).
Proof.
  induction n as [|n IH]; intros start; cbn [seq]; constructor; [apply IH|].
  apply Forall_forall. intros y Hy. apply in_seq in Hy. lia.
Qed.

Lemma filter_sorted (p : loc -> bool) (l : list loc) :
  StronglySorted lt l -> StronglySorted lt (filter p l).
Proof.
  induction 1 as [|a l Hs IH Ha]; cbn [filter]; [constructor|].
  destruct (p a); [|exact IH]. constructor; [exact IH|].
  apply Forall_forall. intros y Hy. apply filter_In in Hy.
  rewrite Forall_forall in Ha. now apply Ha.
Qed.

Lemma sorted_app_split (h : heap) (l1 l2 : list loc) :
  StronglySorted (ranked_before h) (l1 ++ l2) ->
  StronglySorted (ranked_before h) l1
  /\ forall x y, In x l1 -> In y l2 -> ranked_before h x y.
Proof.
  induction l1 as [|a l1 IH]; cbn [app]; intros H.
  - split; [constructor | intros x y []].
  - apply StronglySorted_inv in H. destruct H as [Hs Ha].
    destruct (IH Hs) as [S1 D]. rewrite Forall_forall in Ha. split.
    + constructor; [exact S1|]. apply Forall_forall. intros y Hy.
      apply Ha, in_app_iff. now left.
    + intros x y [<- | Hx] Hy; [|now apply D].
      apply Ha, in_app_iff. now right.
Qed.

(** X20. The top competitors are the five best rated of the relevant
    ones, or all of them when there are fewer: they are listed by
    decreasing rating, a missing rating counting as 0 and equal ratings
    keeping the order of the page, and no relevant competitor left out
    rates higher than one that is listed. *)
Theorem checkRuStore_top_five
  (q u cl : jsstring) (gp : option R) (inst : option installs_t)
  (cards : list Card.t) :
  let report := fst (assess q u cl gp inst cards) in
  let h := snd (assess q u cl gp inst cards) in
  let top := Report.topCompetitors report in
  length top = Nat.min 5 (Report.competitorsCount report)
  /\ StronglySorted (ranked_before h) top
  /\ (forall c, In c top -> (c < length cards)%nat /\ is_relevant h c = true)
  /\ (forall c d,
        In c top -> (d < length cards)%nat -> is_relevant h d = true ->
        ~ In d top -> rating_or_0 h d <= rating_or_0 h c).
Proof.
  cbv zeta. unfold assess. cbn [fst snd Report.topCompetitors
                                Report.competitorsCount].
  set (h := score_all _ q cl _).
  set (rel := filter (is_relevant h) (seq 0 (length cards))).
  assert (StronglySorted (ranked_before h) (sort_by_rating h rel)) as S
    by (apply sort_by_rating_sorted, filter_sorted, seq_sorted).
  rewrite <- (firstn_skipn 5 (sort_by_rating h rel)) in S.
  apply sorted_app_split in S. destruct S as [S D].
  split; [now rewrite length_firstn, sort_by_rating_length|].
  split; [exact S|]. split.
  - intros c Hc. apply firstn_In, sort_by_rating_In_iff, filter_In in Hc.
    destruct Hc as [Hseq Hrel]. apply in_seq in Hseq. split; [lia | exact Hrel].
  - intros c d Hc Hd Hrel Hout.
    assert (In d (sort_by_rating h rel)) as Hin.
    { apply sort_by_rating_In_iff, filter_In. split; [|exact Hrel].
      apply in_seq. lia. }
    rewrite <- (firstn_skipn 5 (sort_by_rating h rel)) in Hin.
    apply in_app_iff in Hin. destruct Hin as [Hin | Hin]; [contradiction|].
    destruct (D c d Hc Hin) as [? | [? ?]]; lra.
Qed.

End OrderAndTop.

Section Outcome.
Local Open Scope R_scope.

Lemma filter_none {A : Type} (p : A -> bool) (l : list A) :
  (forall x, In x l -> p x = false) -> filter p l = [].
Proof.
  induction l as [|x l IH]; intros H; [reflexivity|]. cbn [filter].
  rewrite (H x (or_introl eq_refl)). apply IH.
  intros y Hy. apply H. now right.
Qed.

Lemma assess_top_length (q u cl : jsstring) (gp : option R)
  (inst : option installs_t) (cards : list Card.t) :
  length (Report.topCompetitors (fst (assess q u cl gp inst cards)))
  = Nat.min 5 (Report.competitorsCount (fst (assess q u cl gp inst cards))).
Proof.
  unfold assess. cbn [fst Report.topCompetitors Report.competitorsCount].
  now rewrite length_firstn, sort_by_rating_length.
Qed.

Lemma assess_nothing_accepted (q u cl : jsstring) (gp : option R)
  (inst : option installs_t) (cards : list Card.t) :
  (forall card, In card cards -> card_accepted q cl card = false) ->
  fst (assess q u cl gp inst cards) = no_cards_report q u gp inst.
Proof.
  intros H.
  assert (filter (card_accepted q cl) cards = []) as E
    by now apply filter_none.
  pose proof (assess_top_length q u cl gp inst cards) as L.
  rewrite assess_fields in *. rewrite E in *.
  cbn [card_ratings flat_map length Report.competitorsCount
       Report.topCompetitors Nat.min] in *.
  destruct (Report.topCompetitors (fst (assess q u cl gp inst cards)));
    [reflexivity | discriminate].
Qed.

Lemma wordJaccard_disjoint (a b : jsstring) :
  (forall word, In word (tokens a) -> ~ In word (tokens b)) ->
  wordJaccard a b = 0.
Proof.
  intros H. rewrite wordJaccard_formula. unfold Relevance.jaccard.
  destruct (Relevance.word_set a) as [|x A] eqn:EA; [reflexivity|].
  destruct (Relevance.word_set b) as [|y B] eqn:EB; [reflexivity|].
  rewrite <- EA, <- EB.
  assert (filter (fun word => Relevance.member word (Relevance.word_set b))
            (Relevance.word_set a) = []) as ->.
  { assert (forall word, In word (Relevance.word_set a) ->
                         Relevance.member word (Relevance.word_set b) = false)
      as D.
    { intros word Hw. unfold Relevance.member.
      destruct (in_dec _ _ _) as [I|]; [|reflexivity].
      unfold Relevance.word_set in *. apply nodup_In in Hw, I.
      now destruct (H word Hw). }
    now apply filter_none. }
  cbn [length INR]. lra.
Qed.

Lemma unrelated_card_rejected (q cl : jsstring) (card : Card.t) :
  (forall word, In word (tokens (Card.name card)) -> ~ In word (tokens q)) ->
  (forall word, In word (tokens (Card.name card)) -> ~ In word (tokens cl)) ->
  substringMatch (Card.name card) q = false ->
  substringMatch (Card.name card) cl = false ->
  card_accepted q cl card = false.
Proof.
  intros Hq Hc Sq Sc.
  unfold card_accepted, card_relevance, accept, calculateRelevance,
    RELEVANCE_THRESHOLD.
  cbn [new_competitor name rating].
  rewrite (wordJaccard_disjoint _ _ Hq), (wordJaccard_disjoint _ _ Hc), Sq, Sc.
  cbn [orb].
  assert (Rmax 0 0 = 0) as -> by (unfold Rmax; destruct (Rle_dec 0 0); lra).
  destruct (Card.rating card);
    match goal with
    | |- context [Rmin 1 ?s] => unfold Rmin; destruct (Rle_dec 1 s); [lra|]
    end;
    match goal with
    | |- context [Rle_dec ?t ?x] => destruct (Rle_dec t x); [lra | reflexivity]
    end.
Qed.

(** X21. When none of the fetched cards passes the relevance filter, the
    report is the one of a page without cards: no competitor, no rating,
    an empty top list and the score of an empty market. *)
Theorem checkRuStore_nothing_relevant
  (w : World) (cache cache' : cache_t) (title appCategory : jsstring)
  (gpRating : option R) (appInstalls : option installs_t)
  (report : Report.t) (h : heap) (cleaned : jsstring) :
  checkRuStore w cache title appCategory gpRating appInstalls
  = (cache', Return (report, h)) ->
  cleanSearchQuery title appCategory = Return cleaned ->
  (forall card, In card (candidates w) ->
     card_accepted (Report.searchQuery report) cleaned card = false) ->
  report
  = no_cards_report (Report.searchQuery report) (Report.searchUrl report)
      gpRating appInstalls.
Proof.
  intros H Hc Hrej.
  apply checkRuStore_as_assess in H.
  destruct H as (cleaned' & encoded & Hc' & _ & _ & _ & E).
  assert (cleaned' = cleaned) as -> by congruence.
  apply (f_equal fst) in E. cbn [fst] in E.
  rewrite (@assess_nothing_accepted _ (RUSTORE_SEARCH_URL ++ encoded) _
             gpRating appInstalls _ Hrej) in E.
  rewrite E at 1. rewrite E. reflexivity.
Qed.

Lemma checkRuStore_nothing_relevant_witness :
  let run := assess sample_title sample_url sample_title (Some 4.2)
               sample_installs (candidates unrelated_store) in
  checkRuStore unrelated_store [] sample_title sample_category (Some 4.2)
    sample_installs = ([], Return (fst run, snd run))
  /\ cleanSearchQuery sample_title sample_category = Return sample_title
  /\ (forall card, In card (candidates unrelated_store) ->
        card_accepted (Report.searchQuery (fst run)) sample_title card = false)
  /\ fst run
     = no_cards_report (Report.searchQuery (fst run))
         (Report.searchUrl (fst run)) (Some 4.2) sample_installs.
Proof.
  intros run.
  assert (checkRuStore unrelated_store [] sample_title sample_category
            (Some 4.2) sample_installs = ([], Return (fst run, snd run)))
    as Run.
  { rewrite <- surjective_pairing.
    apply (@checkRuStore_with_cards unrelated_store [] [] sample_title
             sample_category (Some 4.2) sample_installs sample_title
             sample_title (lit "WhatsApp%20Messenger")
             (candidates unrelated_store)); reflexivity. }
  assert (forall card, In card (candidates unrelated_store) ->
            card_accepted (Report.searchQuery (fst run)) sample_title card
            = false) as Rej.
  { intros card [<- | []].
    change (Report.searchQuery (fst run)) with sample_title.
    apply unrelated_card_rejected; try (vm_compute; reflexivity);
      intros word Hw; vm_compute in Hw; destruct Hw as [<- | []];
      vm_compute; intuition discriminate. }
  split; [exact Run|]. split; [reflexivity|]. split; [exact Rej|].
  apply (@checkRuStore_nothing_relevant unrelated_store [] [] sample_title
           sample_category (Some 4.2) sample_installs (fst run) (snd run)
           sample_title Run eq_refl Rej).
Defined.

(** X22. Only a descriptive title is translated: for a title of type
    [brand] or [mixed], that is one with a brand word, the answers of the
    translation service do not matter, the cache is left as it was, and
    the query sent to the store is the cleaned title. *)
Theorem checkRuStore_keeps_brand_titles
  (w : World) (cache : cache_t) (title appCategory : jsstring)
  (gpRating : option R) (appInstalls : option installs_t) :
  type (classifyTitle title) <> descriptive ->
  fst (checkRuStore w cache title appCategory gpRating appInstalls) = cache
  /\ (forall report h,
        snd (checkRuStore w cache title appCategory gpRating appInstalls)
        = Return (report, h) ->
        cleanSearchQuery title appCategory
        = Return (Report.searchQuery report))
  /\ (forall srv,
        checkRuStore
          {| service := srv;
             context_opens := context_opens w;
             goto_succeeds := goto_succeeds w;
             cards_appear := cards_appear w;
             extracted := extracted w;
             page_closes := page_closes w |}
          cache title appCategory gpRating appInstalls
        = checkRuStore w cache title appCategory gpRating appInstalls).
Proof.
  intros T.
  assert (forall v, search_query v cache (classifyTitle title)
                    = fun cleaned => (cache, cleaned)) as SQ.
  { intros v. unfold search_query.
    destruct (type (classifyTitle title)); [reflexivity | | reflexivity].
    now destruct T. }
  assert (forall A B C (P : A /\ B) (Q : C), A /\ B /\ C) as pack
    by (intros A B C [a b] c; auto).
  apply pack; [|intros srv; unfold checkRuStore; now rewrite !SQ].
  unfold checkRuStore. rewrite !SQ.
  destruct (cleanSearchQuery title appCategory) as [cleaned | e];
    [|split; [reflexivity | discriminate]].
  destruct (encodeURIComponent cleaned) as [encoded | e];
    [|split; [reflexivity | discriminate]].
  destruct (context_opens w); [|split; [reflexivity | discriminate]].
  destruct (page_closes w); [|split; [reflexivity | discriminate]].
  destruct (fetch w) as [|cards]; (split; [reflexivity|]);
    intros report h; cbn [snd]; intros E; apply Return_inj in E;
    apply (f_equal fst) in E; cbn [fst] in E; rewrite <- E;
    try rewrite assess_query; reflexivity.
Qed.

Lemma checkRuStore_keeps_brand_titles_witness :
  type (classifyTitle sample_title) <> descriptive
  /\ fst (checkRuStore two_cards [(lit "messenger", lit "x")] sample_title
            sample_category (Some 4.2) sample_installs)
     = [(lit "messenger", lit "x")].
Proof.
  assert (type (classifyTitle sample_title) <> descriptive) as T
    by (vm_compute; discriminate).
  split; [exact T|].
  apply (@checkRuStore_keeps_brand_titles two_cards
           [(lit "messenger", lit "x")] sample_title sample_category
           (Some 4.2) sample_installs T).
Defined.

(** X23. One check adds at most one entry to the translation cache, and
    only for a descriptive title: the entry maps the cleaned title, which
    has no Cyrillic letter and was not in the cache, to the query that is
    sent to the store, whether the check returns or throws. *)
Theorem checkRuStore_cache
  (w : World) (cache : cache_t) (title appCategory : jsstring)
  (gpRating : option R) (appInstalls : option installs_t) :
  let run := checkRuStore w cache title appCategory gpRating appInstalls in
  fst run = cache
  \/ exists cleaned translated,
       type (classifyTitle title) = descriptive
       /\ cleanSearchQuery title appCategory = Return cleaned
       /\ existsb is_cyrillic cleaned = false
       /\ cache_get cleaned cache = None
       /\ translated <> []
       /\ fst run = cache ++ [(cleaned, translated)]
       /\ forall report h,
            snd run = Return (report, h) ->
            Report.searchQuery report = translated.
Proof.
  cbv zeta. unfold checkRuStore.
  destruct (cleanSearchQuery title appCategory) as [cleaned | e];
    [|now left].
  assert (forall (cache' : cache_t) (q : jsstring)
                 (r : outcome (Report.t * heap)),
             search_query w cache (classifyTitle title) cleaned = (cache', q) ->
             (forall report h, r = Return (report, h) ->
                               Report.searchQuery report = q) ->
             fst (cache', r) = cache
             \/ exists cleaned0 translated,
                  type (classifyTitle title) = descriptive
                  /\ Return cleaned = Return cleaned0
                  /\ existsb is_cyrillic cleaned0 = false
                  /\ cache_get cleaned0 cache = None
                  /\ translated <> []
                  /\ fst (cache', r) = cache ++ [(cleaned0, translated)]
                  /\ forall report h,
                       snd (cache', r) = Return (report, h) ->
                       Report.searchQuery report = translated) as K.
  { intros cache' q r SQ Hq. unfold search_query in SQ. cbn [fst snd].
    destruct (type (classifyTitle title)) eqn:T;
      try (left; congruence).
    pose proof (translateToRussian_cases (service w) cache cleaned) as O.
    rewrite SQ in O.
    destruct O as [[-> _] | [(-> & _) | (-> & Cy & G & Hne & _)]];
      [now left | now left |].
    right. exists cleaned, q. repeat split; assumption. }
  destruct (search_query w cache (classifyTitle title) cleaned)
    as [cache' q] eqn:SQ.
  destruct (encodeURIComponent q) as [encoded | e];
    [|apply (K _ _ _ eq_refl); intros; discriminate].
  destruct (context_opens w);
    [|apply (K _ _ _ eq_refl); intros; discriminate].
  destruct (page_closes w);
    [|apply (K _ _ _ eq_refl); intros; discriminate].
  destruct (fetch w) as [|cards]; apply (K _ _ _ eq_refl);
    intros report h E; apply Return_inj in E;
    apply (f_equal fst) in E; cbn [fst] in E; rewrite <- E;
    try rewrite assess_query; reflexivity.
Qed.

End Outcome.

(* ===================================================================== *)
(** ** scrapeAppBrain                                                      *)
(* ===================================================================== *)

Section AppBrain.

Lemma trim_trim s : trim (trim s) = trim s.
Proof. destruct (trim_edges s) as [H1 H2]. now apply trim_fixed. Qed.

Lemma or_else_not_empty (s d : jsstring) : d <> [] -> or_else s d <> [].
Proof. intros H. destruct s; [exact H | discriminate]. Qed.

Lemma visit_row_header (results : list App.t) (cells : Dom.row) :
  visit_row results 0 cells = results.
Proof. reflexivity. Qed.

Lemma visit_row_body (results : list App.t) (i : nat) (cells : Dom.row) :
  i <> 0 -> visit_row results i cells = results ++ row_apps cells.
Proof.
  intros Hi. unfold row_apps, visit_row.
  destruct i as [|i]; [now destruct Hi|]. cbn [Nat.eqb].
  destruct (7 <=? length cells); [|now rewrite app_nil_r].
  destruct (match nth_error cells 3 with
            | Some c => Dom.querySelector_a c
            | None => None
            end) as [titleLink|]; [|now rewrite app_nil_r].
  destruct (_ && _); [reflexivity | now rewrite app_nil_r].
Qed.

Lemma forEach_body (rows : list Dom.row) :
  forall i results,
    i <> 0 -> forEach rows i results = results ++ flat_map row_apps rows.
Proof.
  induction rows as [|row rest IH]; intros i results Hi;
    cbn [forEach flat_map].
  - now rewrite app_nil_r.
  - rewrite IH by discriminate. rewrite (visit_row_body _ _ Hi).
    now rewrite <- app_assoc.
Qed.

Lemma evaluate_flat_map (rows : list Dom.row) :
  evaluate rows = flat_map row_apps (tl rows).
Proof.
  unfold evaluate. destruct rows as [|header rows]; [reflexivity|].
  cbn [forEach tl]. rewrite visit_row_header.
  now rewrite forEach_body by discriminate.
Qed.

Lemma row_apps_length (cells : Dom.row) : length (row_apps cells) <= 1.
Proof.
  unfold row_apps, visit_row. cbn [Nat.eqb].
  destruct (7 <=? length cells); [|cbn; lia].
  destruct (match nth_error cells 3 with
            | Some c => Dom.querySelector_a c
            | None => None
            end) as [titleLink|]; [|cbn; lia].
  destruct (_ && _); cbn; lia.
Qed.

Lemma flat_map_row_apps_length (rows : list Dom.row) :
  length (flat_map row_apps rows) <= length rows.
Proof.
  induction rows as [|row rest IH]; [reflexivity|].
  cbn [flat_map length]. rewrite length_app.
  pose proof (row_apps_length row). lia.
Qed.

Lemma row_apps_well_formed (cells : Dom.row) :
  Forall well_formed (row_apps cells).
Proof.
  unfold row_apps, visit_row. cbn [Nat.eqb].
  destruct (7 <=? length cells); [|constructor].
  destruct (match nth_error cells 3 with
            | Some c => Dom.querySelector_a c
            | None => None
            end) as [titleLink|]; [|constructor].
  destruct (negb (length (trim (Dom.linkText titleLink)) =? 0)) eqn:E1;
    [|constructor].
  destruct (negb (str_eqb (trim (Dom.linkText titleLink)) (lit "N/A")))
    eqn:E2; [|constructor].
  destruct (0 <? _)%Z eqn:E3; [|constructor].
  cbn [andb app]. constructor; [|constructor].
  unfold well_formed.
  cbn [App.rank App.title App.category App.gp_rating App.installs App.recent
       App.gp_url].
  split; [now apply Z.ltb_lt|].
  split.
  { intros E. rewrite E in E1. discriminate. }
  split.
  { intros E. apply negb_true_iff in E2.
    apply (proj2 (str_eqb_eq _ _)) in E. congruence. }
  split; [apply trim_trim|].
  split; [apply or_else_not_empty; discriminate|].
  split; [apply or_else_not_empty; discriminate|].
  split; [apply or_else_not_empty; discriminate|].
  split.
  - destruct (is_prefix (lit "http")
                (match Dom.href titleLink with Some h => h | None => [] end))
      eqn:P; [exact P | reflexivity].
  - destruct (Global.parseFloat _); discriminate.
Qed.

Lemma evaluate_well_formed (rows : list Dom.row) :
  Forall well_formed (evaluate rows).
Proof.
  rewrite evaluate_flat_map.
  induction (tl rows) as [|row rest IH]; [constructor|].
  cbn [flat_map]. apply Forall_app. split;
    [apply row_apps_well_formed | exact IH].
Qed.

Lemma Forall_firstn {A : Type} (P : A -> Prop) (n : nat) (l : list A) :
  Forall P l -> Forall P (firstn n l).
Proof.
  intros H. revert n. induction H as [|x l Hx Hl IH]; intros [|n];
    cbn [firstn]; constructor; auto.
Qed.

(** [parseInt] and [parseFloat] on a few strings. *)
Example parseInt_examples :
  Global.parseInt (lit "42px") = Some 42%Z
  /\ Global.parseInt (lit "  -0x1F") = Some (-31)%Z
  /\ Global.parseInt (lit "+7") = Some 7%Z
  /\ Global.parseInt (lit "0x") = None
  /\ Global.parseInt (lit "#1") = None
  /\ Global.parseInt [] = None.
Proof. repeat split. Qed.

Example parseFloat_examples :
  Global.parseFloat (lit "4.2") = Global.Finite 4.2%R
  /\ Global.parseFloat (lit " -1.5e2x") = Global.Finite (-150)%R
  /\ Global.parseFloat (lit "5.e-1") = Global.Finite 0.5%R
  /\ Global.parseFloat (lit "1e") = Global.Finite 1%R
  /\ Global.parseFloat (lit "-Infinity!") = Global.Infinite true
  /\ Global.parseFloat (lit ".") = Global.NotANumber
  /\ Global.parseFloat (lit "e5") = Global.NotANumber.
Proof.
  unfold Global.parseFloat.
  repeat split; cbn; f_equal;
    change (Pos.to_nat 1) with 1%nat; cbn [pow]; lra.
Qed.

(** On a string of digits and dots, as [parseInstalls] passes it,
    [parseFloat] is the function of that name above. *)
Lemma span_digits_rest (s : jsstring) :
  Forall (fun c => is_digit_or_dot c = true) s ->
  let r := snd (span is_digit s) in
  Forall (fun c => is_digit_or_dot c = true) r
  /\ match r with
     | c :: _ => c = 46%N
     | [] => True
     end.
Proof.
  induction 1 as [|c s Hc Hs IH]; cbn [span]; [now split|].
  destruct (is_digit c) eqn:D.
  - destruct (span is_digit s) as [a b]. exact IH.
  - cbn [snd]. split; [now constructor|].
    unfold is_digit_or_dot in Hc. rewrite D in Hc. cbn [orb] in Hc.
    now apply N.eqb_eq.
Qed.

Lemma exponent_of_dot (r : jsstring) :
  match r with c :: _ => c = 46%N | [] => True end ->
  Global.exponent r = 0%Z.
Proof. destruct r as [|c r]; [reflexivity|]. now intros ->. Qed.

Lemma is_digit_or_dot_iff c :
  is_digit_or_dot c = true <-> (48 <= c <= 57 \/ c = 46)%N.
Proof. unfold is_digit_or_dot, is_digit. class_to_prop. tauto. Qed.

Lemma parseFloat_on_digits_and_dots (s : jsstring) :
  Forall (fun c => is_digit_or_dot c = true) s ->
  Global.parseFloat s
  = match parseFloat s with
    | NaN => Global.NotANumber
    | Num x => Global.Finite x
    end.
Proof.
  intros H. unfold Global.parseFloat, parseFloat, decimal_prefix.
  assert (trimStart s = s) as ->.
  { destruct H as [|c s Hc _]; [reflexivity|]. cbn [trimStart].
    destruct (is_space c) eqn:E; [|reflexivity].
    apply is_digit_or_dot_iff in Hc. apply is_space_iff in E. lia. }
  assert (Global.signed s = (false, s)) as ->.
  { destruct H as [|c s Hc _]; [reflexivity|].
    apply is_digit_or_dot_iff in Hc.
    unfold Global.signed.
    destruct c as [|p]; [reflexivity|].
    do 6 (destruct p as [p|p|]; try reflexivity); lia. }
  assert (is_prefix (lit "Infinity") s = false) as ->.
  { destruct H as [|c s Hc _]; [reflexivity|].
    apply is_digit_or_dot_iff in Hc.
    change (is_prefix (lit "Infinity") (c :: s))
      with ((73 =? c)%N && is_prefix (lit "nfinity") s).
    destruct (73 =? c)%N eqn:E; [|reflexivity].
    apply N.eqb_eq in E. lia. }
  pose proof (span_digits_rest H) as [Hr Hd]. cbv zeta in *.
  destruct (span is_digit s) as [ip r]. cbn [snd] in *.
  destruct r as [|c r'].
  - destruct (ip ++ []) as [|d ds]; [reflexivity|].
    cbn [Global.exponent length Z.of_nat].
    change (powerRZ 10 (0 - 0)) with 1%R. f_equal. lra.
  - subst c. apply Forall_inv_tail in Hr.
    pose proof (span_digits_rest Hr) as [_ Hd']. cbv zeta in Hd'.
    destruct (span is_digit r') as [fp r'']. cbn [fst snd] in *.
    destruct (ip ++ fp) as [|d ds]; [reflexivity|].
    rewrite (exponent_of_dot _ Hd'). f_equal.
    unfold Rdiv. f_equal.
    change (0 - Z.of_nat (length fp))%Z with (- Z.of_nat (length fp))%Z.
    rewrite powerRZ_neg'. now rewrite <- pow_powerRZ.
Qed.

Example evaluate_sample_rows :
  evaluate sample_rows
  = [ {| App.rank := 1;
         App.title := lit "WhatsApp Messenger";
         App.category := lit "Communication";
         App.gp_rating := Global.Finite 4.2%R;
         App.installs := lit "10M+";
         App.recent := lit "N/A";
         App.gp_url := lit "https://www.appbrain.com/app/whatsapp" |} ].
Proof.
  rewrite evaluate_flat_map. unfold sample_rows, row_apps, visit_row. cbn.
  do 3 f_equal. change (Pos.to_nat 1) with 1%nat. cbn [pow]. lra.
Qed.

(** X24. The extraction skips the first row of the table, whatever it
    holds, and reads every other row on its own: a row gives one entry or
    none, independently of its position and of the rows around it, and
    the entries keep the order of the rows. *)
Theorem evaluate_rows (rows : list Dom.row) :
  evaluate rows = flat_map row_apps (tl rows)
  /\ (forall cells, length (row_apps cells) <= 1)
  /\ length (evaluate rows) <= length rows - 1.
Proof.
  split; [apply evaluate_flat_map|]. split; [apply row_apps_length|].
  rewrite evaluate_flat_map.
  pose proof (flat_map_row_apps_length (tl rows)) as H.
  destruct rows; cbn [tl length] in *; lia.
Qed.

(** X25. When [scrapeAppBrain] returns, it returns at most 100 entries,
    and each of them has a positive rank, a trimmed title that is neither
    empty nor "N/A", a category, an installs text and a recent text that
    are not empty, an address that starts with "http" and a rating that
    is a number. *)
Theorem scrapeAppBrain_entries (w : Site) (apps : list App.t) :
  scrapeAppBrain w = Return apps ->
  length apps <= 100 /\ Forall well_formed apps.
Proof.
  unfold scrapeAppBrain. intros H.
  destruct (page_opens w); [|discriminate].
  destruct (context_closes w); [|discriminate].
  apply Return_inj in H. subst apps.
  assert (length (if table_appears w
                  then match document_rows w with
                       | Some rows => firstn 100 (evaluate rows)
                       | None => []
                       end
                  else []) <= 100
          /\ Forall well_formed
               (if table_appears w
                then match document_rows w with
                     | Some rows => firstn 100 (evaluate rows)
                     | None => []
                     end
                else [])) as Page.
  { destruct (table_appears w); [|split; [cbn; lia | constructor]].
    destruct (document_rows w) as [rows|];
      [|split; [cbn; lia | constructor]].
    split; [rewrite length_firstn; lia|].
    apply Forall_firstn, evaluate_well_formed. }
  destruct (withRetry _ 1 3);
    [exact Page | split; [cbn; lia | constructor] | exact Page].
Qed.

Lemma scrapeAppBrain_entries_witness :
  scrapeAppBrain sample_site = Return (firstn 100 (evaluate sample_rows))
  /\ length (firstn 100 (evaluate sample_rows)) = 1
  /\ length (firstn 100 (evaluate sample_rows)) <= 100
  /\ Forall well_formed (firstn 100 (evaluate sample_rows)).
Proof.
  split; [reflexivity|]. split; [reflexivity|].
  apply (@scrapeAppBrain_entries sample_site
           (firstn 100 (evaluate sample_rows))).
  reflexivity.
Defined.

(** X26. [scrapeAppBrain] throws only when the page cannot be opened or
    the context cannot be closed.  A navigation that fails three times, a
    table that does not appear and an extraction that fails are absorbed:
    the result is then the empty list. *)
Theorem scrapeAppBrain_failures (w : Site) :
  (forall e, scrapeAppBrain w = Throw e
             <-> e = BrowserError
                 /\ (page_opens w = false \/ context_closes w = false))
  /\ (page_opens w = true ->
      context_closes w = true ->
      (forall k, 1 <= k <= 3 -> navigation w k = false)
      \/ table_appears w = false
      \/ document_rows w = None ->
      scrapeAppBrain w = Return []).
Proof.
  split.
  - intros e. unfold scrapeAppBrain.
    destruct (page_opens w), (context_closes w); split;
      try discriminate; try (intros [_ [H | H]]; discriminate);
      try (intros H; split; [congruence | auto]);
      intros [-> _]; reflexivity.
  - intros Ho Hc H. unfold scrapeAppBrain. rewrite Ho, Hc. f_equal.
    assert ((forall k, 1 <= k <= 3 -> navigation w k = false) ->
            withRetry (fun k => if navigation w k then Some tt else None) 1 3
            = Rejected) as Nav.
    { intros Hn. apply withRetry_attempts. split; [lia|].
      intros k Hk. now rewrite (Hn k Hk). }
    destruct H as [H | [H | H]].
    + now rewrite (Nav H).
    + rewrite H. now destruct (withRetry _ 1 3).
    + rewrite H. now destruct (withRetry _ 1 3), (table_appears w).
Qed.

Lemma scrapeAppBrain_failures_witness :
  page_opens unreachable_site = true
  /\ context_closes unreachable_site = true
  /\ ((forall k, 1 <= k <= 3 -> navigation unreachable_site k = false)
      \/ table_appears unreachable_site = false
      \/ document_rows unreachable_site = None)
  /\ scrapeAppBrain unreachable_site = Return [].
Proof.
  assert ((forall k, 1 <= k <= 3 -> navigation unreachable_site k = false)
          \/ table_appears unreachable_site = false
          \/ document_rows unreachable_site = None) as H
    by (left; intros k _; reflexivity).
  split; [reflexivity|]. split; [reflexivity|]. split; [exact H|].
  apply (proj2 (scrapeAppBrain_failures unreachable_site) eq_refl eq_refl H).
Defined.

End AppBrain.

(* ===================================================================== *)
(** ** isBrandToken as its callers use it                                  *)
(* ===================================================================== *)

Lemma strip_no_trademark (w : jsstring) :
  existsb is_trademark (strip punct_full w) = false.
Proof.
  unfold strip. induction w as [|c r IH]; [reflexivity|]. cbn [filter].
  destruct (punct_full c) eqn:P; cbn [negb]; [exact IH|].
  cbn [existsb]. rewrite IH, orb_false_r.
  destruct (is_trademark c) eqn:T; [|reflexivity].
  assert (punct_full c = true) as P'; [|congruence].
  apply punct_full_iff. unfold is_trademark in T.
  repeat rewrite orb_true_iff in T. repeat rewrite N.eqb_eq in T.
  destruct T as [[-> | ->] | ->]; cbn; tauto.
Qed.

Lemma isBrandToken_stripped (w : jsstring) :
  isBrandToken (strip punct_full w) = brand_pattern (strip punct_full w).
Proof.
  unfold isBrandToken, brand_pattern. rewrite strip_no_trademark.
  destruct (has_camel _), (all_caps _), (existsb is_alpha _ && existsb _ _);
    reflexivity.
Qed.

(** X27. The trademark pattern of [isBrandToken] never applies: both
    callers strip the signs from a word before they test it, so that a
    word counts as a brand for its capitals or its digits only, and the
    brand words of a title are those with one of the three other
    patterns. *)
Theorem isBrandToken_trademark_unused (title : jsstring) :
  (forall w, existsb is_trademark (strip punct_full w) = false
             /\ isBrandToken (strip punct_full w)
                = brand_pattern (strip punct_full w))
  /\ brandWords (classifyTitle title)
     = filter brand_pattern (clean_words title)
  /\ (forall words i protectedWords,
        protect_words words i protectedWords
        = fold_left
            (fun acc iw =>
               let clean := strip punct_full (snd iw) in
               match clean with
               | [] => acc
               | _ => if brand_pattern clean || (fst iw =? 0)
                      then set_add (toLowerCase clean) acc else acc
               end)
            (combine (seq i (length words)) words) protectedWords).
Proof.
  split; [|split].
  - intros w. split; [apply strip_no_trademark | apply isBrandToken_stripped].
  - rewrite (proj1 (classifyTitle_lists title)).
    apply filter_ext_in. intros w Hw. unfold clean_words in Hw.
    apply filter_In in Hw. destruct Hw as [Hw _].
    apply in_map_iff in Hw. destruct Hw as (w' & <- & _).
    apply isBrandToken_stripped.
  - induction words as [|w rest IH]; intros i protectedWords;
      [reflexivity|].
    cbn [protect_words length seq combine fold_left fst snd].
    rewrite isBrandToken_stripped.
    destruct (strip punct_full w) as [|c r] eqn:E; [apply IH|].
    destruct (brand_pattern (c :: r) || (i =? 0)); apply IH.
Qed.

(* ===================================================================== *)
(** ** cleanSearchQuery: when the raw title comes back                     *)
(* ===================================================================== *)

(** *** Code units that the cleanup keeps *)

Lemma long_words_length (l : list jsstring) :
  2 * length (filter (fun w => 2 <=? length w) l) <= length (concat l).
Proof.
  induction l as [|w l IH]; [reflexivity|].
  cbn [filter concat]. rewrite length_app.
  destruct (Nat.leb_spec 2 (length w)); cbn [length]; lia.
Qed.

Section Kept.
Variable keep : codeunit -> bool.
Hypothesis keep_no_space : forall c, keep c = true -> is_space c = false.

Lemma keep_space c : is_space c = true -> keep c = false.
Proof.
  intros H. destruct (keep c) eqn:E; [|reflexivity].
  apply keep_no_space in E. congruence.
Qed.

Lemma filter_keep_trimStart s : filter keep (trimStart s) = filter keep s.
Proof.
  induction s as [|c r IH]; [reflexivity|]. cbn [trimStart filter].
  destruct (is_space c) eqn:E; [|reflexivity].
  now rewrite (keep_space _ E).
Qed.

Lemma filter_keep_trim s : filter keep (trim s) = filter keep s.
Proof.
  unfold trim, trimEnd.
  now rewrite filter_rev', filter_keep_trimStart, filter_rev', rev_involutive,
    filter_keep_trimStart.
Qed.

Lemma filter_keep_collapse s :
  forall b, filter keep (collapse_go b s) = filter keep s.
Proof.
  induction s as [|c r IH]; intros b; [reflexivity|].
  cbn [collapse_go filter]. destruct (is_space c) eqn:E.
  - rewrite (keep_space _ E). destruct b; [apply IH|].
    cbn [filter]. rewrite (keep_space SP eq_refl). apply IH.
  - cbn [filter]. now rewrite IH.
Qed.

Lemma filter_keep_blank cls s :
  (forall c, keep c = true -> cls c = false) ->
  filter keep (blank cls s) = filter keep s.
Proof.
  intros H. unfold blank. induction s as [|c r IH]; [reflexivity|].
  cbn [map filter]. rewrite IH. destruct (cls c) eqn:E; [|reflexivity].
  rewrite (keep_space SP eq_refl).
  destruct (keep c) eqn:K; [|reflexivity].
  apply H in K. congruence.
Qed.

Lemma filter_keep_clean cls s :
  (forall c, keep c = true -> cls c = false) ->
  filter keep (trim (collapse_ws (blank cls s))) = filter keep s.
Proof.
  intros H. unfold collapse_ws.
  now rewrite filter_keep_trim, filter_keep_collapse, filter_keep_blank.
Qed.

Lemma keep_replace_word_go pat s :
  forall k prev,
    length (filter keep (replace_word_go pat k prev s))
    <= length (filter keep s).
Proof.
  induction s as [|c r IH]; intros k prev; [reflexivity|].
  cbn [replace_word_go filter]. destruct k as [|k].
  - destruct (word_at pat prev (c :: r)); cbn [filter].
    + rewrite (keep_space SP eq_refl).
      specialize (IH (length pat - 1) (Some c)).
      destruct (keep c); cbn [length]; lia.
    + specialize (IH 0 (Some c)). destruct (keep c); cbn [length]; lia.
  - specialize (IH k (Some c)). destruct (keep c); cbn [length]; lia.
Qed.

Lemma keep_drop_universal prot phrases :
  forall s,
    length (filter keep (fold_left (drop_universal prot) phrases s))
    <= length (filter keep s).
Proof.
  induction phrases as [|p ps IH]; intros s; cbn [fold_left]; [reflexivity|].
  eapply Nat.le_trans; [apply IH|].
  unfold drop_universal. destruct (_ && _); [reflexivity|].
  apply keep_replace_word_go.
Qed.

Lemma keep_drop_category prot ws :
  forall s,
    length (filter keep (fold_left (drop_category prot) ws s))
    <= length (filter keep s).
Proof.
  induction ws as [|p ps IH]; intros s; cbn [fold_left]; [reflexivity|].
  eapply Nat.le_trans; [apply IH|].
  unfold drop_category. destruct (set_has p prot); [reflexivity|].
  apply keep_replace_word_go.
Qed.

End Kept.

Section RawTitle.

(** A code unit that is neither white space nor punctuation. *)
Let content (c : codeunit) : bool := negb (is_space c) && negb (punct_full c).

Let is_dotted (c : codeunit) : bool := (c =? 0x130)%N.

Lemma content_no_space c : content c = true -> is_space c = false.
Proof. unfold content. now destruct (is_space c). Qed.

Lemma content_no_punct c : content c = true -> punct_full c = false.
Proof. unfold content. destruct (punct_full c); [|reflexivity].
  now rewrite andb_false_r. Qed.

Lemma is_dotted_no_space c : is_dotted c = true -> is_space c = false.
Proof. unfold is_dotted. intros H. apply N.eqb_eq in H. now subst c. Qed.

Lemma is_dotted_no_punct c : is_dotted c = true -> punct_full c = false.
Proof. unfold is_dotted. intros H. apply N.eqb_eq in H. now subst c. Qed.

Lemma dotted_filter (s : jsstring) : dotted s = length (filter is_dotted s).
Proof.
  unfold dotted, is_dotted. induction s as [|c r IH]; [reflexivity|].
  cbn [count_occ filter]. rewrite IH.
  destruct (N.eq_dec c 0x130) as [->|n]; [reflexivity|].
  now destruct (N.eqb_spec c 0x130).
Qed.

Lemma content_lower_unit before c rest :
  length (filter content (lower_unit before c rest))
  = if content c then length (lower_unit before c rest) else 0.
Proof.
  destruct (lower_unit_spec before c rest) as [_ F].
  assert (Forall (fun u => content u = content c) (lower_unit before c rest))
    as G.
  { eapply Forall_impl; [|exact F]. cbv beta. intros u (_ & S & P & _).
    unfold content. now rewrite S, P. }
  clear F. induction G as [|u l Hu Hl IH]; [now destruct (content c)|].
  cbn [filter length]. rewrite Hu.
  destruct (content c); cbn [length]; [now rewrite IH | exact IH].
Qed.

Lemma surrogate_content c : is_lead c || is_trail c = true -> content c = true.
Proof.
  intros H. unfold content.
  now rewrite (surrogate_not_space _ H), (surrogate_not_punct _ H).
Qed.

(** Lower-casing keeps what is content and what is not, and adds one
    code unit of content for each U+0130. *)
Lemma content_lower_go (s : jsstring) :
  forall before,
    length (filter content (lower_go before s))
    = length (filter content s) + dotted s.
Proof.
  unfold dotted.
  induction s as [| c | c d r IHr IHd] using string_pair_ind;
    intros before; [reflexivity | cbn [lower_go] | rewrite lower_go_pair].
  - rewrite content_lower_unit, length_lower_unit. cbn [filter count_occ].
    destruct (N.eq_dec c 0x130) as [->|n]; [reflexivity|].
    destruct (content c); reflexivity.
  - destruct (is_lead c && is_trail d) eqn:E.
    + apply andb_true_iff in E. destruct E as [Ec Ed].
      destruct (surrogates_spec
                  (simple_lowercase_astral (code_point_range _ _ Ec Ed)))
        as (l & t & -> & Hl & Ht & _).
      assert (c <> 0x130%N) as Nc
        by (apply surrogate_not_dotted; now rewrite Ec).
      assert (d <> 0x130%N) as Nd
        by (apply surrogate_not_dotted; rewrite Ed; apply orb_true_r).
      cbn [app filter count_occ].
      rewrite (surrogate_content l) by now rewrite Hl.
      rewrite (surrogate_content t) by (rewrite Ht; apply orb_true_r).
      rewrite (surrogate_content c) by now rewrite Ec.
      rewrite (surrogate_content d) by (rewrite Ed; apply orb_true_r).
      destruct (N.eq_dec c 0x130); [contradiction|].
      destruct (N.eq_dec d 0x130); [contradiction|].
      cbn [length]. rewrite IHr. lia.
    + rewrite filter_app, length_app, IHd, content_lower_unit,
        length_lower_unit.
      cbn [filter count_occ].
      destruct (N.eq_dec c 0x130) as [->|n].
      * change (content 0x130%N) with true. cbn [length]. lia.
      * destruct (content c); cbn [length]; lia.
Qed.

Lemma not_space_blank (s : jsstring) :
  filter not_space (blank punct_full s) = filter content s.
Proof.
  unfold blank. induction s as [|c r IH]; [reflexivity|].
  cbn [map filter]. rewrite IH. unfold content, not_space.
  destruct (punct_full c); [|now rewrite andb_true_r].
  change (is_space SP) with true. now rewrite andb_false_r.
Qed.

(** The content of the lower-cased title fits in the fallback. *)
Lemma content_fallback (title : jsstring) :
  length (filter content (toLowerCase title))
  <= length (fallback_clean title).
Proof.
  unfold toLowerCase at 1. rewrite content_lower_go.
  unfold fallback_clean. rewrite length_toLowerCase.
  set (X := trim (collapse_ws (blank punct_full title))).
  assert (filter content X = filter content title) as C
    by (apply filter_keep_clean;
        [apply content_no_space | apply content_no_punct]).
  assert (filter is_dotted X = filter is_dotted title) as D
    by (apply filter_keep_clean;
        [apply is_dotted_no_space | apply is_dotted_no_punct]).
  rewrite (dotted_filter title), (dotted_filter X), <- C, D.
  pose proof (filter_length_le content X). lia.
Qed.

(** The end of the long-title branch, case by case: the cleaned string
    when it has two words of two code units and three code units at
    least, the fallback when not, and the raw title when the fallback is
    too short. *)
Lemma finish_clean_exact (title cleaned : jsstring) :
  locally_lower cleaned ->
  length (filter content cleaned)
  <= length (filter content (toLowerCase title)) ->
  if 2 <=? length (fallback_clean title)
  then normalised (finish_clean title cleaned)
  else finish_clean title cleaned = title.
Proof.
  intros Hl Hc.
  destruct (Nat.leb_spec 2 (length (fallback_clean title))) as [L | L].
  - destruct (finish_clean_normalised title Hl) as [[H _] | H];
      [lia | exact H].
  - pose proof (content_fallback title) as Hf.
    unfold finish_clean.
    set (y := trim (collapse_ws (blank punct_full cleaned))).
    assert (length (filter (fun w => 2 <=? length w) (split_ws y)) = 0) as W.
    { pose proof (long_words_length (split_ws y)) as H.
      unfold split_ws in H at 2.
      rewrite concat_split_go in H by discriminate. cbn [rev app] in H.
      unfold y, collapse_ws in H |- *.
      rewrite filter_trim, (filter_keep_collapse not_space) in H.
      - rewrite not_space_blank in H. lia.
      - intros c. unfold not_space. now destruct (is_space c). }
    rewrite W. cbn [Nat.ltb Nat.leb orb].
    unfold at_least_2_or.
    destruct (Nat.leb_spec 2 (length (fallback_clean title))); [lia|].
    reflexivity.
Qed.

(** C4 (amended). For every title and every category whose name is not
    inherited from [Object.prototype], [cleanSearchQuery] returns a query.
    When the title has more than two words, the query is lower-cased, free
    of the punctuation set (and of the hyphen) and white-space collapsed,
    unless the title, without its punctuation, collapsed, trimmed and in
    lower case, is shorter than 2: then the raw title is returned.  When
    the title has at most two words, the query is the white-space
    collapsed title without the characters , ( ) [ ] : ; ! ? ' and the
    double quote, trademark, registered and copyright signs, with its
    case, ampersands and dashes kept, unless that is shorter than 2: then
    the raw title is returned. *)
Theorem cleanSearchQuery_normalised (title category : jsstring) :
  CATEGORY_FILLER_get category <> Inherited ->
  exists q,
    cleanSearchQuery title category = Return q
    /\ if length (split_ws (trim title)) <=? 2
       then if 2 <=? length (soft_clean title)
            then q = soft_clean title
                 /\ whitespace_collapsed q
                 /\ Forall (fun c => punct_short c = false) q
            else q = title
       else if 2 <=? length (fallback_clean title)
            then lower_cased q /\ punctuation_free q
                 /\ whitespace_collapsed q
            else q = title.
Proof.
  intros Hcat. unfold cleanSearchQuery.
  destruct (length (split_ws (trim title)) <=? 2).
  - eexists. split; [reflexivity|].
    unfold at_least_2_or. destruct (2 <=? _) eqn:E; [|reflexivity].
    split; [reflexivity | apply soft_clean_normalised].
  - set (prot := protect_words _ 0 []).
    set (u := fold_left (drop_universal prot) UNIVERSAL_FILLER
                (toLowerCase title)).
    assert (locally_lower u) as Lu
      by (apply locally_lower_drop_universal, locally_lower_toLowerCase).
    assert (length (filter content u)
            <= length (filter content (toLowerCase title))) as Cu
      by apply keep_drop_universal, content_no_space.
    destruct (CATEGORY_FILLER_get category) as [ws| |]; [|contradiction|].
    + eexists. split; [reflexivity|].
      apply finish_clean_exact.
      * now apply locally_lower_drop_category.
      * eapply Nat.le_trans; [|exact Cu].
        apply keep_drop_category, content_no_space.
    + eexists. split; [reflexivity|].
      now apply finish_clean_exact.
Qed.

Lemma cleanSearchQuery_normalised_witness :
  CATEGORY_FILLER_get (lit "Music & Audio") <> Inherited
  /\ exists q,
       cleanSearchQuery (lit "Spotify: Music and Podcasts")
         (lit "Music & Audio") = Return q
       /\ lower_cased q /\ punctuation_free q /\ whitespace_collapsed q.
Proof.
  split; [vm_compute; discriminate|].
  apply (cleanSearchQuery_normalised (lit "Spotify: Music and Podcasts")
           (lit "Music & Audio")).
  vm_compute; discriminate.
Defined.

(** A title of three words whose content is one letter: the raw title
    comes back, capital and punctuation included. *)
Example cleanSearchQuery_raw_title :
  cleanSearchQuery (lit "A - !") (lit "Tools") = Return (lit "A - !").
Proof. vm_compute. reflexivity. Qed.

(** A capital outside Latin-1: the capital S with a caron, U+0160, comes
    back in lower case, U+0161. *)
Example cleanSearchQuery_caron :
  cleanSearchQuery (0x160%N :: lit "koda Auto Connect") (lit "Tools")
  = Return (0x161%N :: lit "koda auto connect").
Proof. vm_compute. reflexivity. Qed.

End RawTitle.

(* ===================================================================== *)
(** ** Binary64                                                            *)
(* ===================================================================== *)

Section Binary64Facts.
Import Binary64.

Lemma compare_antisym (x y : double) :
  SFcompare y x = option_map CompOpp (SFcompare x y).
Proof.
  destruct x as [sx|sx| |sx mx ex], y as [sy|sy| |sy my ey];
    try reflexivity;
    try (destruct sx; reflexivity); try (destruct sy; reflexivity);
    try (destruct sx, sy; reflexivity).
  cbn [SFcompare option_map].
  rewrite (Z.compare_antisym ex ey).
  pose proof (Pos.compare_cont_antisym mx my Eq) as A. cbn [CompOpp] in A.
  destruct sx, sy; try reflexivity; cbn [CompOpp];
    destruct (ex ?= ey)%Z; cbn [CompOpp]; try reflexivity;
    rewrite <- A; now rewrite ?CompOpp_involutive.
Qed.

Lemma lt_le_opposite (x y : double) :
  x <> NaN -> y <> NaN -> lt x y = negb (le y x).
Proof.
  intros Hx Hy. unfold lt, le, SFltb, SFleb. rewrite (compare_antisym x y).
  destruct (SFcompare x y) as [[| |]|] eqn:E; try reflexivity.
  destruct x as [sx|sx| |sx mx ex]; [| |now contradiction Hx|];
    (destruct y as [sy|sy| |sy my ey]; [| |now contradiction Hy|]);
    discriminate E.
Qed.

(** [Math.max(lo, Math.min(hi, x))] is the clamp, for every [x]. *)
Lemma max_min_clamp (x : double) (m : positive) (e : Z) :
  Math_max zero (Math_min (S754_finite false m e) x)
  = Double.clamp x zero (S754_finite false m e).
Proof.
  unfold Double.clamp, le, SFleb.
  rewrite (compare_antisym x (S754_finite false m e)).
  destruct x as [s|s| |s mx ex].
  - destruct s; reflexivity.
  - destruct s; reflexivity.
  - reflexivity.
  - destruct s; [reflexivity|].
    unfold Math_min, Math_max, lt, SFltb.
    destruct (SFcompare (S754_finite false mx ex) (S754_finite false m e))
      as [[| |]|] eqn:E; try reflexivity; discriminate E.
Qed.

End Binary64Facts.

(* ===================================================================== *)
(** ** Signs and integers in binary64                                      *)
(* ===================================================================== *)

Section Binary64Signs.
Import Binary64.

Lemma iter_pos_invariant {A : Type} (P : A -> Prop) (f : A -> A) :
  (forall x, P x -> P (f x)) ->
  forall p x, P x -> P (iter_pos f p x).
Proof.
  intros Hf. induction p as [p IH|p IH|]; intros x Hx; cbn [iter_pos].
  - apply IH, IH, Hf, Hx.
  - apply IH, IH, Hx.
  - apply Hf, Hx.
Qed.

Lemma shr_1_not_negative mrs : (0 <= shr_m mrs -> 0 <= shr_m (shr_1 mrs))%Z.
Proof.
  destruct mrs as [m r s]. cbn [shr_m]. intros H.
  destruct m as [|p|p]; [reflexivity| |now contradiction H].
  destruct p; cbn [shr_1 shr_m]; lia.
Qed.

Lemma shr_not_negative mrs e n :
  (0 <= shr_m mrs -> 0 <= shr_m (fst (shr mrs e n)))%Z.
Proof.
  intros H. unfold shr. destruct n as [|p|p]; cbn [fst]; try exact H.
  now apply iter_pos_invariant; [apply shr_1_not_negative|].
Qed.

Lemma shr_fexp_not_negative m e l :
  (0 <= m -> 0 <= shr_m (fst (shr_fexp prec emax m e l)))%Z.
Proof.
  intros H. unfold shr_fexp. apply shr_not_negative.
  destruct l as [|[| |]]; exact H.
Qed.

Lemma round_nearest_even_not_negative m l :
  (0 <= m -> 0 <= round_nearest_even m l)%Z.
Proof.
  intros H. unfold round_nearest_even.
  destruct l as [|[| |]]; try destruct (Z.even m); lia.
Qed.

(** Rounding a mantissa that is not negative gives a number whose sign
    bit is clear: a zero, a finite number or an infinity. *)
Lemma binary_round_aux_sign m e l :
  (0 <= m)%Z ->
  positive_sign (binary_round_aux prec emax false m e l) = true.
Proof.
  intros H. unfold binary_round_aux.
  pose proof (shr_fexp_not_negative e l H) as H1.
  destruct (shr_fexp prec emax m e l) as [mrs' e']. cbn [fst] in H1.
  pose proof (round_nearest_even_not_negative (loc_of_shr_record mrs') H1)
    as H2.
  pose proof (shr_fexp_not_negative e' loc_Exact H2) as H3.
  destruct (shr_fexp prec emax _ e' loc_Exact) as [mrs'' e''].
  cbn [fst] in H3.
  destruct (shr_m mrs'') as [|p|p]; [reflexivity| |now contradiction H3].
  now destruct (e'' <=? emax - prec)%Z.
Qed.

Lemma binary_round_sign m e :
  positive_sign (binary_round prec emax false m e) = true.
Proof.
  unfold binary_round. destruct (shl_align m e _) as [mz ez].
  now apply binary_round_aux_sign.
Qed.

Lemma of_Z_sign (n : Z) : (0 <= n)%Z -> positive_sign (of_Z n) = true.
Proof.
  intros H. unfold of_Z, binary_normalize.
  destruct n as [|p|p]; [reflexivity | apply binary_round_sign|].
  now contradiction H.
Qed.

(** The sum of two numbers with a clear sign bit has one. *)
Lemma add_sign (x y : double) :
  positive_sign x = true -> positive_sign y = true ->
  positive_sign (add x y) = true.
Proof.
  destruct x as [[|]|[|]| |[|] mx ex]; try discriminate;
    destruct y as [[|]|[|]| |[|] my ey]; try discriminate;
    intros _ _; try reflexivity.
  unfold add, SFadd. cbn [cond_Zopp Z.add binary_normalize].
  apply binary_round_sign.
Qed.

(** So has the product by a positive finite number. *)
Lemma mul_sign (x : double) (m : positive) (e : Z) :
  positive_sign x = true ->
  positive_sign (mul x (S754_finite false m e)) = true.
Proof.
  destruct x as [[|]|[|]| |[|] mx ex]; try discriminate; intros _;
    try reflexivity.
  unfold mul, SFmul. cbn [xorb]. now apply binary_round_aux_sign.
Qed.

(** And the quotient of a zero or a finite number by a finite one. *)
Lemma div_sign (x : double) (m : positive) (e : Z) :
  match x with
  | S754_zero false | S754_finite false _ _ => True
  | _ => False
  end ->
  positive_sign (div x (S754_finite false m e)) = true.
Proof.
  destruct x as [[|]|[|]| |[|] mx ex]; try contradiction; intros _;
    [reflexivity|].
  unfold div, SFdiv.
  destruct (SFdiv_core_binary prec emax (Z.pos mx) ex (Z.pos m) e)
    as [[mz ez] lz] eqn:E.
  cbn [xorb]. apply binary_round_aux_sign.
  unfold SFdiv_core_binary in E.
  set (m' := match (ex - e - _)%Z with
             | Z0 => Z.pos mx | Z.pos _ => _ | Z.neg _ => 0%Z end) in E.
  assert (0 <= m')%Z as Hm.
  { unfold m'. destruct (ex - e - _)%Z; try lia.
    apply Z.shiftl_nonneg. lia. }
  pose proof (Z.div_pos m' (Z.pos m) Hm eq_refl) as Hq.
  unfold Z.div in Hq. destruct (Z.div_eucl m' (Z.pos m)) as [q r].
  injection E as <- _ _. exact Hq.
Qed.

Lemma max_sign (x y : double) :
  positive_sign x = true -> positive_sign y = true ->
  positive_sign (Math_max x y) = true.
Proof.
  intros Hx Hy. unfold Math_max.
  destruct x as [[|]|[|]| |[|] mx ex]; try discriminate;
    destruct y as [[|]|[|]| |[|] my ey]; try discriminate;
    try reflexivity;
    match goal with |- context [lt ?a ?b] => now destruct (lt a b) end.
Qed.

(** [Math.min(1, x)] lies between 0 and 1 when [x] has a clear sign
    bit. *)
Lemma min_one_range (x : double) :
  positive_sign x = true ->
  le zero (Math_min one x) = true /\ le (Math_min one x) one = true.
Proof.
  intros H. unfold Math_min.
  change one with (S754_finite false 4503599627370496 (-52)).
  destruct x as [[|]|[|]| |[|] mx ex]; try discriminate;
    try (split; reflexivity).
  unfold lt, le, SFltb, SFleb.
  destruct (SFcompare (S754_finite false mx ex) _) as [[| |]|] eqn:E;
    try (split; reflexivity).
  split; [reflexivity|]. now rewrite E.
Qed.

(** Adding +0 changes nothing but -0. *)
Lemma add_zero (x : double) : x <> S754_zero true -> add x zero = x.
Proof.
  destruct x as [[|]|s| |s m e]; try reflexivity. now intros H.
Qed.

Lemma mul_comm (x y : double) : mul x y = mul y x.
Proof.
  destruct x as [sx|sx| |sx mx ex], y as [sy|sy| |sy my ey];
    try reflexivity; unfold mul, SFmul; try now rewrite xorb_comm.
  now rewrite xorb_comm, Pos.mul_comm, Z.add_comm.
Qed.

(** A number over itself is 1. *)
Lemma div_same (s : bool) (m : positive) (e : Z) :
  div (S754_finite s m e) (S754_finite s m e) = one.
Proof.
  unfold div, SFdiv, SFdiv_core_binary.
  replace (Zdigits2 (Z.pos m) + e - (Zdigits2 (Z.pos m) + e))%Z with 0%Z
    by lia.
  rewrite Z.sub_diag, xorb_nilpotent.
  change (Z.min (fexp prec emax 0) 0) with (-53)%Z.
  change (0 - -53)%Z with 53%Z.
  rewrite Z.shiftl_mul_pow2 by lia.
  pose proof (Z.div_mul (2 ^ 53) (Z.pos m) ltac:(discriminate)) as Q.
  pose proof (Z.mod_mul (2 ^ 53) (Z.pos m) ltac:(discriminate)) as R.
  rewrite (Z.mul_comm (Z.pos m)).
  unfold Z.div in Q. unfold Z.modulo in R.
  destruct (Z.div_eucl (2 ^ 53 * Z.pos m) (Z.pos m)) as [q r].
  subst q r.
  assert (new_location (Z.pos m) 0 = loc_Exact) as ->
    by (unfold new_location, new_location_even, new_location_odd;
        now destruct (Z.even (Z.pos m))).
  vm_compute. reflexivity.
Qed.

End Binary64Signs.

Section Binary64Integers.
Import Binary64.

Lemma digits2_pos_iter_xO (p k : positive) :
  digits2_pos (Pos.iter xO p k) = (digits2_pos p + k)%positive.
Proof.
  induction k as [|k IH] using Pos.peano_ind.
  - cbn [Pos.iter digits2_pos]. lia.
  - rewrite Pos.iter_succ. cbn [digits2_pos]. rewrite IH. lia.
Qed.

Lemma digits2_pos_lower (p : positive) :
  (2 ^ (Z.pos (digits2_pos p) - 1) <= Z.pos p)%Z.
Proof.
  induction p as [p IH|p IH|]; cbn [digits2_pos]; [| |reflexivity];
    rewrite Pos2Z.inj_succ;
    replace (Z.succ (Z.pos (digits2_pos p)) - 1)%Z
      with (Z.succ (Z.pos (digits2_pos p) - 1)) by lia;
    rewrite Z.pow_succ_r by lia; lia.
Qed.

Lemma digits2_pos_53 (p : positive) :
  (Z.pos p < 2 ^ 53)%Z -> (Z.pos (digits2_pos p) <= 53)%Z.
Proof.
  intros H. destruct (Z.le_gt_cases (Z.pos (digits2_pos p)) 53) as [L | G];
    [exact L|].
  pose proof (digits2_pos_lower p) as Hp.
  assert (2 ^ 53 <= 2 ^ (Z.pos (digits2_pos p) - 1))%Z
    by (apply Z.pow_le_mono_r; lia).
  lia.
Qed.

(** A mantissa of 53 bits is kept as it is. *)
Lemma binary_round_aux_exact (m : positive) (e : Z) :
  digits2_pos m = 53%positive -> (-1074 <= e <= 971)%Z ->
  binary_round_aux prec emax false (Z.pos m) e loc_Exact
  = S754_finite false m e.
Proof.
  intros D He.
  assert (shr_fexp prec emax (Z.pos m) e loc_Exact
          = ({| shr_m := Z.pos m; shr_r := false; shr_s := false |}, e)) as S.
  { unfold shr_fexp, Zdigits2, fexp, emin, prec, emax. rewrite D.
    replace (Z.max (53 + e - 53) (3 - 1024 - 53) - e)%Z with 0%Z by lia.
    reflexivity. }
  unfold binary_round_aux. rewrite S.
  cbn [shr_m loc_of_shr_record round_nearest_even]. rewrite S.
  cbn [shr_m]. unfold emax, prec.
  destruct (Z.leb_spec e (1024 - 53)); [reflexivity | lia].
Qed.

(** An integer below 2^53 is a finite double. *)
Lemma of_Z_finite (p : positive) :
  (Z.pos p < 2 ^ 53)%Z ->
  exists m e, of_Z (Z.pos p) = S754_finite false m e.
Proof.
  intros H. pose proof (digits2_pos_53 H) as D.
  unfold of_Z, binary_normalize, binary_round.
  assert (fexp prec emax (Z.pos (digits2_pos p) + 0)
          = (Z.pos (digits2_pos p) - 53)%Z) as ->
    by (unfold fexp, emin, prec, emax; lia).
  unfold shl_align.
  destruct (Z.pos (digits2_pos p) - 53 - 0)%Z as [|d|d] eqn:E; [|lia|].
  - exists p, 0%Z. apply binary_round_aux_exact; [lia | lia].
  - exists (Pos.iter xO p d), (Z.pos (digits2_pos p) - 53)%Z.
    apply binary_round_aux_exact; [|lia].
    rewrite digits2_pos_iter_xO. lia.
Qed.

Lemma of_nat_finite (n : nat) :
  (0 < n)%nat -> (Z.of_nat n < 2 ^ 53)%Z ->
  exists m e, of_nat n = S754_finite false m e.
Proof.
  intros H0 H. unfold of_nat.
  destruct (Z.of_nat n) as [|p|p] eqn:E; [lia| |lia].
  now apply of_Z_finite.
Qed.

End Binary64Integers.

(* ===================================================================== *)
(** ** parseInstalls over binary64                                         *)
(* ===================================================================== *)

Section DoubleInstalls.
Import Binary64.

Lemma Double_parseInstalls_general (s : jsstring) :
  Double.parseInstalls s
  = match installs_match (toUpperCase (trim (strip is_plus_or_comma s))) with
    | None => zero
    | Some (digits, suffix) =>
        mul (Double.parseFloat digits) (Double.multiplier suffix)
    end.
Proof.
  unfold Double.parseInstalls. destruct s as [|c r]; [reflexivity|].
  destruct (str_eqb (c :: r) (lit "N/A")) eqn:E; [|reflexivity].
  apply str_eqb_eq in E. now rewrite E.
Qed.

(** A run of digits reads as the integer that it writes. *)
Lemma decimal_prefix_digits (ip : jsstring) :
  Forall (fun c => is_digit c = true) ip ->
  decimal_prefix ip
  = match ip with
    | [] => None
    | _ => Some (digits_value ip, 0%nat)
    end.
Proof.
  intros H. unfold decimal_prefix.
  rewrite <- (app_nil_r ip) at 1. rewrite (@span_app is_digit ip [] H I).
  rewrite app_nil_r. now destruct ip.
Qed.

(** Digits, a dot and digits read as the digits taken together, with as
    many decimal places as there are digits after the dot; what follows
    the second run is ignored. *)
Lemma decimal_prefix_point (ip fp rest : jsstring) :
  Forall (fun c => is_digit c = true) ip ->
  Forall (fun c => is_digit c = true) fp ->
  match rest with c :: _ => is_digit c = false | [] => True end ->
  decimal_prefix (ip ++ 46%N :: fp ++ rest)
  = match ip ++ fp with
    | [] => None
    | ds => Some (digits_value ds, length fp)
    end.
Proof.
  intros Hi Hf Hr. unfold decimal_prefix.
  rewrite (@span_app is_digit ip (46%N :: fp ++ rest) Hi eq_refl).
  rewrite (@span_app is_digit fp rest Hf Hr). reflexivity.
Qed.

(** C8. [parseInstalls] removes [+] and [,], trims, upper-cases, and reads
    the result against the pattern: a string of the pattern gives its
    numeric part times the multiplier of its suffix (1e3, 1e6, 1e9, 1e12
    for K, M, B, T, and 1 without a suffix), the product rounded as a
    double.  The numeric part is what [parseFloat] reads in the first
    group: the digits up to a second dot, as a decimal number rounded to
    the nearest double, and NaN when the group has no digit.  "1,234K+"
    gives 1234000; "2.01K" gives 2009.9999999999998; four hundred nines
    give Infinity; "N/A", the empty string and every string outside the
    pattern give 0. *)
Theorem parseInstalls_spec :
  (forall s digits ws suffix,
      matches_pattern (toUpperCase (trim (strip is_plus_or_comma s)))
        digits ws suffix ->
      Double.parseInstalls s
      = mul (Double.parseFloat digits) (Double.multiplier suffix))
  /\ (forall ip,
         Forall (fun c => is_digit c = true) ip ->
         Double.parseFloat ip
         = match ip with
           | [] => NaN
           | _ => decimal (digits_value ip) 0
           end)
  /\ (forall ip fp rest,
         Forall (fun c => is_digit c = true) ip ->
         Forall (fun c => is_digit c = true) fp ->
         match rest with c :: _ => is_digit c = false | [] => True end ->
         Double.parseFloat (ip ++ lit "." ++ fp ++ rest)
         = match ip ++ fp with
           | [] => NaN
           | ds => decimal (digits_value ds) (length fp)
           end)
  /\ (Double.multiplier [] = of_Z 1
      /\ Double.multiplier (lit "K") = of_Z 1000
      /\ Double.multiplier (lit "M") = of_Z 1000000
      /\ Double.multiplier (lit "B") = of_Z 1000000000
      /\ Double.multiplier (lit "T") = of_Z 1000000000000)
  /\ (Double.parseInstalls (lit "1,234K+") = of_Z 1234000
      /\ Double.parseInstalls (lit "2.5m") = of_Z 2500000
      /\ Double.parseInstalls (lit "2.01K")
         = S754_finite false 8840073487319039 (-42)
      /\ Double.parseInstalls (lit "007") = of_Z 7
      /\ Double.parseInstalls (lit ".5 k") = of_Z 500
      /\ Double.parseInstalls (lit "1.2.3") = decimal 12 1
      /\ Double.parseInstalls (lit "..5") = NaN
      /\ Double.parseInstalls (lit ".") = NaN
      /\ Double.parseInstalls (repeat 57%N 400) = infinity)
  /\ Double.parseInstalls (lit "N/A") = zero
  /\ Double.parseInstalls [] = zero
  /\ (forall s,
         (forall digits ws suffix,
             ~ matches_pattern (toUpperCase (trim (strip is_plus_or_comma s)))
                 digits ws suffix) ->
         Double.parseInstalls s = zero).
Proof.
  split; [|split; [|split; [|split; [|split; [|split; [|split]]]]]].
  - intros s digits ws suffix Hm.
    apply installs_match_complete in Hm.
    now rewrite Double_parseInstalls_general, Hm.
  - intros ip H. unfold Double.parseFloat.
    rewrite (decimal_prefix_digits H). now destruct ip.
  - intros ip fp rest Hi Hf Hr. unfold Double.parseFloat.
    change (lit "." ++ fp ++ rest) with (46%N :: fp ++ rest).
    rewrite (decimal_prefix_point rest Hi Hf Hr).
    now destruct (ip ++ fp).
  - repeat split.
  - repeat split; vm_compute; reflexivity.
  - reflexivity.
  - reflexivity.
  - intros s Hno. rewrite Double_parseInstalls_general.
    destruct (installs_match _) as [[d suf]|] eqn:E; [|reflexivity].
    apply installs_match_sound in E. destruct E as [ws Hm].
    now apply Hno in Hm.
Qed.

Lemma parseInstalls_spec_witness :
  matches_pattern (toUpperCase (trim (strip is_plus_or_comma (lit "2.5m"))))
    (lit "2.5") [] (lit "M")
  /\ Double.parseInstalls (lit "2.5m")
     = mul (Double.parseFloat (lit "2.5")) (Double.multiplier (lit "M")).
Proof.
  assert (matches_pattern
            (toUpperCase (trim (strip is_plus_or_comma (lit "2.5m"))))
            (lit "2.5") [] (lit "M")) as Hm.
  { repeat split;
      [discriminate | repeat constructor | constructor
      | right; exists 77%N; split; reflexivity]. }
  split; [exact Hm|].
  apply (proj1 parseInstalls_spec (lit "2.5m") (lit "2.5") [] (lit "M")).
  exact Hm.
Defined.

(** The decimal literals of the source, as doubles. *)
Example decimal_0_1 : decimal 1 1 = S754_finite false 7205759403792794 (-56).
Proof. vm_compute. reflexivity. Qed.

Example decimal_2_01 : decimal 201 2 = S754_finite false 4526117625507348 (-51).
Proof. vm_compute. reflexivity. Qed.

Example decimal_1e3 : of_Z 1000 = S754_finite false 8796093022208000 (-43).
Proof. vm_compute. reflexivity. Qed.

End DoubleInstalls.

(* ===================================================================== *)
(** ** calculateOpportunityScore over binary64                             *)
(* ===================================================================== *)

Section DoubleScore.
Import Binary64.

Lemma max_min_clamp_finite (x hi : double) :
  match hi with S754_finite false _ _ => True | _ => False end ->
  Math_max zero (Math_min hi x) = Double.clamp x zero hi.
Proof.
  destruct hi as [s|s| |s m e]; try contradiction.
  destruct s; [contradiction|]. intros _. apply max_min_clamp.
Qed.

Lemma calculateOpportunityScore_weighted
  (log10 : double -> double) (s : Double.Stats) :
  Double.calculateOpportunityScore log10 s
  = Double.weighted
      (Double.F1 (Double.competitorsCount s))
      (Double.F2 (Double.avgRating s))
      (Double.F3_if_positive log10
         (Double.installsNum_of (Double.installs s)))
      (Double.F4 (Double.gpRating s))
      (Double.F5 (Double.maxRating s)).
Proof.
  unfold Double.calculateOpportunityScore, Double.weighted, Double.F4,
    Double.clamp01. cbv zeta.
  rewrite (@max_min_clamp_finite _ one I).
  rewrite (@max_min_clamp_finite _ (of_Z 100) I).
  reflexivity.
Qed.

(** Where the installs are a number, [> 0] and [<= 0] are opposite. *)
Lemma F3_if_positive_F3 (log10 : double -> double) (parsed : double) :
  parsed <> NaN -> Double.F3_if_positive log10 parsed = Double.F3 log10 parsed.
Proof.
  intros H. unfold Double.F3_if_positive, Double.F3.
  rewrite (@lt_le_opposite zero parsed); [|discriminate | exact H].
  now destruct (le parsed zero).
Qed.

(** The score asks [Math.log10] one question at most. *)
Lemma calculateOpportunityScore_log10
  (log10 log10' : double -> double) (s : Double.Stats) :
  let x := add (Double.installsNum_of (Double.installs s)) one in
  log10 x = log10' x ->
  Double.calculateOpportunityScore log10 s
  = Double.calculateOpportunityScore log10' s.
Proof.
  intros x H. unfold Double.calculateOpportunityScore, Math_log10.
  fold x. now rewrite H.
Qed.

Lemma near_cases (k : Z) (s : bool) (m : positive) (e : Z) (y : double) :
  near k (S754_finite s m e) y = true ->
  exists i, (- k <= i <= k)%Z /\ (0 < Z.pos m + i)%Z
            /\ y = S754_finite s (Z.to_pos (Z.pos m + i)) e.
Proof.
  destruct y as [| | |sy my ey]; try discriminate. cbn [near].
  rewrite !andb_true_iff, Bool.eqb_true_iff, Z.eqb_eq, Z.leb_le.
  intros [[-> ->] H]. exists (Z.pos my - Z.pos m)%Z.
  split; [lia|]. split; [lia|].
  replace (Z.pos m + (Z.pos my - Z.pos m))%Z with (Z.pos my) by lia.
  reflexivity.
Qed.

Lemma scenario3_at (y : double) :
  near 4 Double.log10_10000001 y = true ->
  Double.calculateOpportunityScore (fun _ => y) Double.scenario3 = of_Z 85.
Proof.
  intros H. apply near_cases in H. destruct H as (i & Hi & _ & ->).
  assert (i = -4 \/ i = -3 \/ i = -2 \/ i = -1 \/ i = 0 \/ i = 1 \/ i = 2
          \/ i = 3 \/ i = 4)%Z as C by lia.
  repeat (destruct C as [-> | C]; [vm_compute; reflexivity|]).
  subst i. vm_compute. reflexivity.
Qed.

(** C1. In the arithmetic of the engine, the score is the clamped,
    rounded, weighted sum of the five factors of the formula, with this
    third factor: [min(1, log10(installs + 1) / 9)] if the parsed installs
    are above 0, and 0 if not.  That is the third factor of the
    specification, 0 if the installs are [<= 0], wherever the installs
    parse to a number; where they parse to NaN it is 0.  For no
    competitor, installs "10M+" and rating 4.2 the score is 85, for every
    [Math.log10] that is right at 10000001 to four units in the last
    place. *)
Theorem calculateOpportunityScore_formula (log10 : double -> double) :
  (forall s : Double.Stats,
      let parsed := Double.installsNum_of (Double.installs s) in
      Double.calculateOpportunityScore log10 s
      = Double.weighted
          (Double.F1 (Double.competitorsCount s))
          (Double.F2 (Double.avgRating s))
          (if lt zero parsed
           then Math_min one
                  (div (Math_log10 log10 (add parsed one)) (of_Z 9))
           else zero)
          (Double.F4 (Double.gpRating s))
          (Double.F5 (Double.maxRating s))
      /\ (parsed <> NaN ->
          Double.calculateOpportunityScore log10 s
          = Double.score log10 (Double.competitorsCount s)
              (Double.avgRating s) (Double.maxRating s)
              (Double.gpRating s) parsed)
      /\ (parsed = NaN ->
          Double.calculateOpportunityScore log10 s
          = Double.weighted
              (Double.F1 (Double.competitorsCount s))
              (Double.F2 (Double.avgRating s))
              zero
              (Double.F4 (Double.gpRating s))
              (Double.F5 (Double.maxRating s))))
  /\ (near 4 Double.log10_10000001 (log10 (of_Z 10000001)) = true ->
      Double.calculateOpportunityScore log10 Double.scenario3 = of_Z 85).
Proof.
  split.
  - intros s parsed. split; [|split].
    + apply calculateOpportunityScore_weighted.
    + intros H. rewrite calculateOpportunityScore_weighted.
      unfold Double.score. fold parsed.
      now rewrite (F3_if_positive_F3 log10 H).
    + intros H. rewrite calculateOpportunityScore_weighted.
      fold parsed. now rewrite H.
  - intros H.
    rewrite (@calculateOpportunityScore_log10 log10
               (fun _ => log10 (of_Z 10000001)) Double.scenario3).
    + now apply scenario3_at.
    + vm_compute. reflexivity.
Qed.

Lemma calculateOpportunityScore_formula_witness :
  Double.installsNum_of (Double.installs Double.scenario3) <> NaN
  /\ near 4 Double.log10_10000001 (Double.sample_log10 (of_Z 10000001)) = true
  /\ Double.calculateOpportunityScore Double.sample_log10 Double.scenario3
     = Double.score Double.sample_log10 zero None None (decimal 42 1)
         (of_Z 10000000)
  /\ Double.calculateOpportunityScore Double.sample_log10 Double.scenario3
     = of_Z 85.
Proof.
  assert (Double.installsNum_of (Double.installs Double.scenario3) <> NaN)
    as H1 by (vm_compute; discriminate).
  assert (near 4 Double.log10_10000001 (Double.sample_log10 (of_Z 10000001))
          = true) as H2 by (vm_compute; reflexivity).
  split; [exact H1|]. split; [exact H2|].
  destruct (calculateOpportunityScore_formula Double.sample_log10)
    as [F S]. split.
  - exact (proj1 (proj2 (F Double.scenario3)) H1).
  - exact (S H2).
Defined.

(** C1 as stated fails on installs that read as NaN: the code takes the
    third factor to be 0 and returns 66, where the formula of the
    specification, whose test [installs <= 0] is false of NaN, gives
    NaN. *)
Theorem calculateOpportunityScore_NaN_installs :
  Double.installsNum_of (Double.installs Double.dot_installs) = NaN
  /\ (forall log10,
         Double.calculateOpportunityScore log10 Double.dot_installs
         = of_Z 66)
  /\ (forall log10,
         Double.score log10 zero None None (decimal 42 1) NaN = NaN).
Proof.
  split; [vm_compute; reflexivity|].
  split; intros log10; vm_compute; reflexivity.
Qed.

(** No competitor, no rating and no installs: 57, where the sum of the
    weights taken exactly is 0.575 and would round to 58. *)
Example calculateOpportunityScore_57 (log10 : double -> double) :
  Double.calculateOpportunityScore log10
    {| Double.competitorsCount := zero; Double.avgRating := None;
       Double.maxRating := None; Double.gpRating := zero;
       Double.installs := Double.InstallsStr (lit "N/A") |}
  = of_Z 57.
Proof. vm_compute. reflexivity. Qed.

Example calculateOpportunityScore_63 (log10 : double -> double) :
  Double.calculateOpportunityScore log10
    {| Double.competitorsCount := one; Double.avgRating := None;
       Double.maxRating := None; Double.gpRating := of_Z 4;
       Double.installs := Double.InstallsStr (lit "N/A") |}
  = of_Z 63.
Proof. vm_compute. reflexivity. Qed.

End DoubleScore.

(** *** The words of a string *)

Section Words.

Let ends_with_space (before : jsstring) : Prop :=
  exists b c, before = b ++ [c] /\ is_space c = true.

Let starts_with_space (after : jsstring) : Prop :=
  exists c a, after = c :: a /\ is_space c = true.

Lemma ends_with_space_cons c before :
  ends_with_space (c :: before)
  <-> (before = [] /\ is_space c = true) \/ ends_with_space before.
Proof.
  unfold ends_with_space. split.
  - intros ([|b0 b] & d & E & Hd); cbn in E; injection E as -> E.
    + subst before. now left.
    + right. now exists b, d.
  - intros [[-> Hc] | (b & d & -> & Hd)].
    + now exists [], c.
    + now exists (c :: b), d.
Qed.

(** The pieces of [split_go]: the one that goes on with what was read
    so far, and the runs that start after white space. *)
Lemma split_go_pieces (s : jsstring) :
  forall inrun acc w,
    w <> [] -> (inrun = true -> acc = []) ->
    (In w (split_go inrun acc s)
     <-> (exists p after,
             s = p ++ after /\ Forall (fun c => is_space c = false) p
             /\ (after = [] \/ starts_with_space after)
             /\ w = rev acc ++ p)
         \/ (exists before after,
                s = before ++ w ++ after
                /\ ends_with_space before
                /\ Forall (fun c => is_space c = false) w
                /\ (after = [] \/ starts_with_space after))).
Proof.
  induction s as [|c r IH]; intros inrun acc w Hw Hacc.
  - cbn [split_go In]. split.
    + intros [<- | []]. left. exists [], [].
      split; [reflexivity|]. split; [constructor|].
      split; [now left | now rewrite app_nil_r].
    + intros [(p & after & E & _ & _ & ->) | (before & after & E & Hb & _)].
      * symmetry in E. apply app_eq_nil in E. destruct E as [-> _].
        left. now rewrite app_nil_r.
      * destruct Hb as (b & d & -> & _). destruct b; discriminate E.
  - cbn [split_go]. destruct (is_space c) eqn:Ec.
    + assert (In w (split_go true [] r)
              <-> exists before after,
                    c :: r = before ++ w ++ after
                    /\ ends_with_space before
                    /\ Forall (fun c => is_space c = false) w
                    /\ (after = [] \/ starts_with_space after)) as Tail.
      { rewrite (IH true [] w Hw (fun _ => eq_refl)). cbn [rev app]. split.
        - intros [(p & after & -> & Hp & Ha & ->)
                 | (before & after & -> & Hb & Hf & Ha)].
          + exists [c], after. repeat split; auto. now exists [], c.
          + exists (c :: before), after. repeat split; auto.
            apply ends_with_space_cons. now right.
        - intros (before & after & E & Hb & Hf & Ha).
          destruct before as [|c0 before];
            [destruct Hb as (b & d & Eb & _); destruct b; discriminate Eb|].
          cbn in E. injection E as <- ->.
          apply ends_with_space_cons in Hb.
          destruct Hb as [[-> _] | Hb].
          + left. now exists w, after.
          + right. now exists before, after. }
      assert (forall p after,
                 c :: r = p ++ after ->
                 Forall (fun c => is_space c = false) p -> p = []) as First.
      { intros [|c0 p] after E Hp; [reflexivity|].
        cbn in E. injection E as <- _. apply Forall_inv in Hp. congruence. }
      destruct inrun.
      * rewrite Tail. split; [now right|].
        intros [(p & after & E & Hp & Ha & ->) | H]; [|exact H].
        rewrite (First p after E Hp), (Hacc eq_refl) in Hw.
        now contradiction Hw.
      * cbn [In]. rewrite Tail. split.
        -- intros [<- | H]; [|now right].
           left. exists [], (c :: r). repeat split; auto.
           ++ right. now exists c, r.
           ++ now rewrite app_nil_r.
        -- intros [(p & after & E & Hp & Ha & ->) | H]; [|now right].
           left. rewrite (First p after E Hp). now rewrite app_nil_r.
    + rewrite (IH false (c :: acc) w Hw ltac:(discriminate)). split.
      * intros [(p & after & -> & Hp & Ha & ->)
               | (before & after & -> & Hb & Hf & Ha)].
        -- left. exists (c :: p), after. repeat split; auto.
           cbn [rev]. now rewrite <- app_assoc.
        -- right. exists (c :: before), after. repeat split; auto.
           apply ends_with_space_cons. now right.
      * intros [(p & after & E & Hp & Ha & ->)
               | (before & after & E & Hb & Hf & Ha)].
        -- destruct p as [|c0 p].
           ++ cbn in E. subst after.
              destruct Ha as [Ha | (d & a & Ha & Hd)];
                [discriminate Ha | injection Ha as <- _; congruence].
           ++ cbn in E. injection E as <- ->. left.
              exists p, after. apply Forall_inv_tail in Hp.
              repeat split; auto. cbn [rev]. now rewrite <- app_assoc.
        -- destruct before as [|c0 before];
             [destruct Hb as (b & d & Eb & _); destruct b; discriminate Eb|].
           cbn in E. injection E as <- ->.
           apply ends_with_space_cons in Hb.
           destruct Hb as [[_ Hc] | Hb]; [congruence|].
           right. now exists before, after.
Qed.

(** The words that [split(/\s+/)] gives, the empty pieces apart, are the
    maximal runs without white space. *)
Lemma split_ws_words (w s : jsstring) :
  w <> [] -> (In w (split_ws s) <-> Relevance.word_of w s).
Proof.
  intros Hw. unfold split_ws.
  rewrite (@split_go_pieces s false [] w Hw ltac:(discriminate)).
  unfold Relevance.word_of. cbn [rev app]. split.
  - intros [(p & after & -> & Hp & Ha & ->)
           | (before & after & -> & Hb & Hf & Ha)].
    + split; [exact Hw|]. split; [exact Hp|].
      exists [], after. repeat split; auto.
    + split; [exact Hw|]. split; [exact Hf|].
      exists before, after. repeat split; auto.
  - intros (_ & Hf & before & after & -> & [-> | Hb] & Ha).
    + left. now exists w, after.
    + right. now exists before, after.
Qed.

(** The token set of [wordJaccard]. *)
Lemma tokens_words (w a : jsstring) :
  In w (tokens a) <-> 2 <= length w /\ Relevance.word_of w (toLowerCase a).
Proof.
  unfold tokens. rewrite filter_In, Nat.leb_le. split.
  - intros [Hin Hl]. split; [exact Hl|]. apply split_ws_words; [|exact Hin].
    intros ->. cbn in Hl. lia.
  - intros [Hl Hword]. split; [|exact Hl]. apply split_ws_words; [|exact Hword].
    intros ->. cbn in Hl. lia.
Qed.

End Words.

(* ===================================================================== *)
(** ** Relevance over binary64                                             *)
(* ===================================================================== *)

Section DoubleRelevance.
Import Binary64.

(** A string has at most half as many words of two code units as it has
    code units in lower case. *)
Lemma tokens_length (a : jsstring) :
  2 * length (tokens a) <= length (toLowerCase a).
Proof.
  unfold tokens.
  pose proof (long_words_length (split_ws (toLowerCase a))) as H.
  unfold split_ws in H at 2.
  rewrite concat_split_go in H by discriminate. cbn [rev app] in H.
  eapply Nat.le_trans; [exact H|].
  exact (filter_length_le not_space (toLowerCase a)).
Qed.

Lemma set_of_length (l : list jsstring) : length (set_of l) <= length l.
Proof.
  apply NoDup_incl_length; [apply set_of_NoDup|].
  intros w Hw. now apply set_of_In.
Qed.

(** The loop of [wordJaccard] computes |A ∩ B| / |A ∪ B|. *)
Lemma Double_wordJaccard_formula (a b : jsstring) :
  Double.wordJaccard a b = Double.jaccard a b.
Proof.
  unfold Double.wordJaccard, Double.jaccard.
  destruct (word_set_set_of a) as [NA HA], (word_set_set_of b) as [NB HB].
  pose proof (length_same_members (set_of_NoDup (tokens a)) NA HA) as LA.
  pose proof (length_same_members (set_of_NoDup (tokens b)) NB HB) as LB.
  rewrite LA, LB.
  destruct (Relevance.word_set a) as [|x A] eqn:EA; [reflexivity|].
  destruct (Relevance.word_set b) as [|y B] eqn:EB; [reflexivity|].
  cbn [length Nat.eqb orb]. rewrite <- EA, <- EB in *.
  rewrite count_as_filter. cbn [Nat.add]. f_equal; f_equal.
  - rewrite (filter_ext _ (fun w => Relevance.member w (Relevance.word_set b)))
      by (intros w; apply member_set_has).
    now apply filter_length_same_members; [apply set_of_NoDup| |].
  - apply length_same_members;
      [apply set_of_NoDup | apply NoDup_nodup |].
    intros w. rewrite set_of_In, nodup_In, !in_app_iff, HA, HB. tauto.
Qed.

(** The two counts of [wordJaccard], when it divides. *)
Lemma wordJaccard_counts (a b : jsstring) :
  let setA := set_of (tokens a) in
  let setB := set_of (tokens b) in
  let i := fold_left (fun n w => if set_has w setB then S n else n) setA 0 in
  let u := length (set_of (setA ++ setB)) in
  i <= length (tokens a)
  /\ u <= length (tokens a) + length (tokens b)
  /\ (length setA <> 0 -> 0 < u).
Proof.
  intros setA setB i u.
  pose proof (set_of_length (tokens a)) as LA.
  pose proof (set_of_length (tokens b)) as LB.
  fold setA in LA. fold setB in LB. split; [|split].
  - unfold i. rewrite count_as_filter. cbn [Nat.add].
    pose proof (filter_length_le (fun w => set_has w setB) setA). lia.
  - pose proof (set_of_length (setA ++ setB)) as L.
    rewrite length_app in L. fold u in L. lia.
  - intros H.
    assert (length setA <= u); [|lia].
    apply NoDup_incl_length; [apply set_of_NoDup|].
    intros w Hw. apply set_of_In, in_app_iff. now left.
Qed.

Lemma of_nat_sign (n : nat) : positive_sign (of_nat n) = true.
Proof. apply of_Z_sign. lia. Qed.

Lemma of_nat_zero_or_finite (n : nat) :
  (Z.of_nat n < 2 ^ 53)%Z ->
  match of_nat n with
  | S754_zero false | S754_finite false _ _ => True
  | _ => False
  end.
Proof.
  intros H. destruct n as [|n]; [exact I|].
  destruct (@of_nat_finite (S n) ltac:(lia) H) as (m & e & ->). exact I.
Qed.

(** The similarity of two strings of the language is a number with a
    clear sign bit. *)
Lemma wordJaccard_sign (a b : jsstring) :
  Double.representable (toLowerCase a) ->
  Double.representable (toLowerCase b) ->
  positive_sign (Double.wordJaccard a b) = true.
Proof.
  unfold Double.representable. intros Ra Rb. unfold Double.wordJaccard.
  destruct (wordJaccard_counts a b) as (Hi & Hu & H0). cbv zeta in *.
  pose proof (tokens_length a). pose proof (tokens_length b).
  destruct ((length (set_of (tokens a)) =? 0)
            || (length (set_of (tokens b)) =? 0))%nat eqn:E; [reflexivity|].
  apply orb_false_iff in E. destruct E as [EA _]. apply Nat.eqb_neq in EA.
  specialize (H0 EA).
  set (i := fold_left _ _ _) in *. set (u := length (set_of (_ ++ _))) in *.
  destruct (@of_nat_finite u H0 ltac:(lia)) as (m & e & ->).
  apply div_sign. apply of_nat_zero_or_finite. lia.
Qed.

(** Without a bound on the strings, it is that or NaN. *)
Lemma div_sign_or_NaN (x y : double) :
  positive_sign x = true -> positive_sign y = true ->
  div x y = NaN \/ positive_sign (div x y) = true.
Proof.
  intros Hx Hy.
  destruct y as [[|]|[|]| |[|] my ey]; try discriminate.
  - destruct x as [[|]|[|]| |[|] mx ex]; try discriminate;
      (now left) || (now right).
  - destruct x as [[|]|[|]| |[|] mx ex]; try discriminate;
      (now left) || (now right).
  - destruct x as [[|]|[|]| |[|] mx ex]; try discriminate.
    + right. now apply div_sign.
    + now right.
    + right. now apply div_sign.
Qed.

Lemma wordJaccard_sign_or_NaN (a b : jsstring) :
  Double.wordJaccard a b = NaN
  \/ positive_sign (Double.wordJaccard a b) = true.
Proof.
  unfold Double.wordJaccard.
  destruct (_ || _)%bool; [now right|].
  apply div_sign_or_NaN; apply of_nat_sign.
Qed.

Lemma max_sign_or_NaN (x y : double) :
  x = NaN \/ positive_sign x = true ->
  y = NaN \/ positive_sign y = true ->
  Math_max x y = NaN \/ positive_sign (Math_max x y) = true.
Proof.
  intros [-> | Hx]; [now left|].
  intros [-> | Hy]; [left; now destruct x|].
  right. now apply max_sign.
Qed.

Lemma mul_sign_or_NaN (x : double) (m : positive) (e : Z) :
  x = NaN \/ positive_sign x = true ->
  mul x (S754_finite false m e) = NaN
  \/ positive_sign (mul x (S754_finite false m e)) = true.
Proof.
  intros [-> | Hx]; [now left | right; now apply mul_sign].
Qed.

Lemma add_sign_or_NaN (x : double) (m : positive) (e : Z) :
  x = NaN \/ positive_sign x = true ->
  add x (S754_finite false m e) = NaN
  \/ positive_sign (add x (S754_finite false m e)) = true.
Proof.
  intros [-> | Hx]; [now left | right; now apply add_sign].
Qed.

Lemma add_zero_sign (x : double) :
  x = NaN \/ positive_sign x = true -> add x zero = x.
Proof.
  intros H. apply add_zero. intros ->.
  destruct H as [H | H]; discriminate H.
Qed.

(** C2. In the arithmetic of the engine, the relevance is the minimum of
    1 and of: 0.6 times the best of the two word-level Jaccard
    similarities, plus 0.3 when the name, lower-cased and trimmed, has at
    least two code units and lies inside, or contains, the query or the
    cleaned title (lower-cased and trimmed alike, of at least two code
    units), plus 0.1 when the competitor has a rating; for strings of the
    language, of less than 2^53 code units in lower case, it lies
    between 0 and 1; and a competitor is accepted exactly when it is 0.15
    or more.  A similarity is |A ∩ B| / |A ∪ B| on the sets of the words
    of two code units at least of the lower-cased strings, and 0 when
    one set is empty; a word is a run of code units without white space
    that white space, or an end of the string, bounds on each side. *)
Theorem calculateRelevance_spec
  (competitor : Double.Competitor) (searchQuery cleanedTitle : jsstring) :
  let name := Double.name competitor in
  let bestJaccard :=
    Math_max (Double.jaccard name searchQuery)
             (Double.jaccard name cleanedTitle) in
  let score := Double.calculateRelevance competitor searchQuery cleanedTitle in
  score
  = Math_min one
      (add (add (mul (decimal 6 1) bestJaccard)
                (if substringMatch name searchQuery
                    || substringMatch name cleanedTitle
                 then decimal 3 1 else zero))
           (match Double.rating competitor with
            | Some _ => decimal 1 1
            | None => zero
            end))
  /\ (substringMatch name searchQuery
      || substringMatch name cleanedTitle = true
      <-> Relevance.overlap name searchQuery
          \/ Relevance.overlap name cleanedTitle)
  /\ (Double.representable (toLowerCase name) ->
      Double.representable (toLowerCase searchQuery) ->
      Double.representable (toLowerCase cleanedTitle) ->
      le zero score = true /\ le score one = true)
  /\ (Double.accept score = true <-> le (decimal 15 2) score = true)
  /\ (forall a w,
         In w (Relevance.word_set a)
         <-> 2 <= length w /\ Relevance.word_of w (toLowerCase a)).
Proof.
  cbv zeta. split; [|split; [|split; [|split; [reflexivity|]]]];
    [| | |intros a w; unfold Relevance.word_set; rewrite nodup_In;
          apply tokens_words].
  - unfold Double.calculateRelevance. rewrite !Double_wordJaccard_formula.
    set (best := Math_max _ _).
    assert (best = NaN \/ positive_sign best = true) as Hb.
    { unfold best. rewrite <- !Double_wordJaccard_formula.
      apply max_sign_or_NaN; apply wordJaccard_sign_or_NaN. }
    rewrite (mul_comm (decimal 6 1) best).
    change (decimal 6 1) with (S754_finite false 5404319552844595 (-53)).
    change (decimal 3 1) with (S754_finite false 5404319552844595 (-54)).
    pose proof (mul_sign_or_NaN 5404319552844595 (-53) Hb) as Hm.
    pose proof (add_sign_or_NaN 5404319552844595 (-54) Hm) as Ha.
    destruct (_ || _)%bool, (Double.rating competitor);
      rewrite ?(add_zero_sign Hm), ?(add_zero_sign Ha); reflexivity.
  - now rewrite orb_true_iff, !substringMatch_iff.
  - intros Rn Rq Rc. apply min_one_range.
    unfold Double.calculateRelevance.
    pose proof (max_sign _ _ (wordJaccard_sign _ _ Rn Rq)
                  (wordJaccard_sign _ _ Rn Rc)) as Hb.
    set (best := Math_max _ _) in *.
    change (decimal 6 1) with (S754_finite false 5404319552844595 (-53)).
    change (decimal 3 1) with (S754_finite false 5404319552844595 (-54)).
    change (decimal 1 1) with (S754_finite false 7205759403792794 (-56)).
    pose proof (mul_sign _ 5404319552844595 (-53) Hb) as Hm.
    destruct (_ || _)%bool, (Double.rating competitor);
      repeat apply add_sign; try exact Hm; reflexivity.
Qed.

Lemma calculateRelevance_spec_witness :
  let c := {| Double.name := lit "Photo Editor";
              Double.category := lit "Photography";
              Double.rating := Some (decimal 45 1);
              Double.url := lit "https://www.rustore.ru/x" |} in
  let score := Double.calculateRelevance c (lit "photo editor pro")
                 (lit "Photo  EDITOR") in
  Double.representable (toLowerCase (lit "Photo Editor"))
  /\ Double.representable (toLowerCase (lit "photo editor pro"))
  /\ Double.representable (toLowerCase (lit "Photo  EDITOR"))
  /\ le zero score = true /\ le score one = true.
Proof.
  intros c score.
  assert (Double.representable (toLowerCase (lit "Photo Editor"))) as R1
    by (vm_compute; reflexivity).
  assert (Double.representable (toLowerCase (lit "photo editor pro"))) as R2
    by (vm_compute; reflexivity).
  assert (Double.representable (toLowerCase (lit "Photo  EDITOR"))) as R3
    by (vm_compute; reflexivity).
  split; [exact R1|]. split; [exact R2|]. split; [exact R3|].
  exact (proj1 (proj2 (proj2 (calculateRelevance_spec c
                                (lit "photo editor pro")
                                (lit "Photo  EDITOR")))) R1 R2 R3).
Defined.

(** The words of a name, and two similarities: two words of three in
    common, and the same words in another order and another case. *)
Example word_set_photo :
  Relevance.word_set (lit " Photo  a EDITOR photo ")
  = [lit "editor"; lit "photo"].
Proof. vm_compute. reflexivity. Qed.

Example jaccard_two_thirds :
  Double.wordJaccard (lit "Photo Editor") (lit "photo editor pro")
  = S754_finite false 6004799503160661 (-53).
Proof. vm_compute. reflexivity. Qed.

Example calculateRelevance_photo :
  Double.calculateRelevance
    {| Double.name := lit "Photo Editor";
       Double.category := lit "Photography";
       Double.rating := Some (decimal 45 1);
       Double.url := lit "https://www.rustore.ru/x" |}
    (lit "photo editor pro") (lit "collage maker")
  = S754_finite false 7205759403792793 (-53).
Proof. vm_compute. reflexivity. Qed.

(** *** A competitor named like the query *)

Lemma filter_all {A : Type} (p : A -> bool) (l : list A) :
  (forall x, In x l -> p x = true) -> filter p l = l.
Proof.
  induction l as [|x l IH]; intros H; [reflexivity|]. cbn [filter].
  rewrite (H x (or_introl eq_refl)). f_equal.
  apply IH. intros y Hy. apply H. now right.
Qed.

Lemma wordJaccard_same (a : jsstring) :
  tokens a <> [] -> Double.representable (toLowerCase a) ->
  Double.wordJaccard a a = one.
Proof.
  intros Ht Ra. unfold Double.representable in Ra.
  unfold Double.wordJaccard.
  destruct (wordJaccard_counts a a) as (_ & Hu & _). cbv zeta in Hu.
  pose proof (tokens_length a) as Hl.
  assert (length (set_of (tokens a)) <> 0) as Hne.
  { destruct (tokens a) as [|w ws]; [now contradiction Ht|].
    assert (In w (set_of (w :: ws))) as Hw by (apply set_of_In; now left).
    destruct (set_of (w :: ws)); [destruct Hw | discriminate]. }
  set (setA := set_of (tokens a)) in *.
  destruct (Nat.eqb_spec (length setA) 0) as [E | _]; [contradiction|].
  cbn [orb]. rewrite count_as_filter. cbn [Nat.add].
  rewrite filter_all by (intros w Hw; now apply set_has_In).
  assert (length (set_of (setA ++ setA)) = length setA) as ->.
  { apply length_same_members; try apply set_of_NoDup.
    intros w. rewrite set_of_In, in_app_iff. tauto. }
  destruct (@of_nat_finite (length setA) ltac:(lia)) as (m & e & ->).
  - pose proof (set_of_length (tokens a)). fold setA in H. lia.
  - apply div_same.
Qed.

(** X13. A competitor named exactly like the search query and the
    cleaned title, with one word of two code units at least, has
    relevance 0.9999999999999999 when it has a rating and
    0.8999999999999999 when it has none: the sums 0.6 + 0.3 and
    0.6 + 0.3 + 0.1 of the doubles fall short of 0.9 and of 1. *)
Theorem calculateRelevance_same_name (competitor : Double.Competitor) :
  tokens (Double.name competitor) <> [] ->
  Double.representable (toLowerCase (Double.name competitor)) ->
  Double.calculateRelevance competitor (Double.name competitor)
    (Double.name competitor)
  = match Double.rating competitor with
    | Some _ => S754_finite false 9007199254740991 (-53)
    | None => S754_finite false 8106479329266892 (-53)
    end.
Proof.
  intros Ht Ra. unfold Double.calculateRelevance.
  rewrite (substringMatch_refl _ Ht), (wordJaccard_same _ Ht Ra).
  destruct (Double.rating competitor); vm_compute; reflexivity.
Qed.

Lemma calculateRelevance_same_name_witness :
  let c := {| Double.name := lit "Photo Editor";
              Double.category := lit "Photography";
              Double.rating := Some (decimal 45 1);
              Double.url := lit "https://www.rustore.ru/x" |} in
  tokens (Double.name c) <> []
  /\ Double.representable (toLowerCase (Double.name c))
  /\ Double.calculateRelevance c (Double.name c) (Double.name c)
     = S754_finite false 9007199254740991 (-53).
Proof.
  intros c.
  assert (tokens (Double.name c) <> []) as H by (vm_compute; discriminate).
  assert (Double.representable (toLowerCase (Double.name c))) as R
    by (vm_compute; reflexivity).
  split; [exact H|]. split; [exact R|].
  apply (@calculateRelevance_same_name c H R).
Defined.

End DoubleRelevance.
